(** * format_blocks: the layout optimiser, embedded and verified

    The development follows the Python package [format_blocks]
    ([base.py], [blocks.py], [extras.py]).

    Modelling conventions.
    - Python [int]s (margins, knots, spans) are [Z]; in the layout code
      the Python numbers that carry a cost are exact rationals [Qc] (no
      rounding).  The constructor of [Options], where any float can
      arrive, takes floats ([pyfloat]): a number, an infinity or NaN.
    - A Python value of type [Optional[Solution]] is an [option Solution].
    - A method that can raise returns in the monad [M], which threads the
      heap of memo tables and stops at the first exception.
    - Every block object has an identity ([oid]); its memo table
      [layout_cache] lives in the heap under that identity, so that a block
      shared by two parents shares its memo.
    - The module [support] of the package is not part of the sources that
      are verified here; its operations are modelled from the specification
      and marked as such. *)

From Stdlib Require Import ZArith QArith Qcanon Qround String Ascii List Lia.
From stdpp Require Import base numbers option list strings countable gmap.

Local Open Scope Z_scope.
Set Warnings "-register-all".

(** ** Layouts ([support.Layout], [support.LayoutElement]) *)

Module LayoutElement.
(** Modelled from the spec: a layout element is [String(s)] or
    [NewLine(indent)], the indent defaulting to 0 (section 3.2).  The class
    itself lives in [support]. *)
Inductive t :=
| String (s : string)
| NewLine (indent : Z).

#[global] Instance eq_dec : EqDecision t.
Proof. solve_decision. Defined.

#[global] Instance countable : Countable t.
Proof.
  refine (inj_countable'
    (λ e, match e with String s => inl s | NewLine i => inr i end)
    (λ x, match x with inl s => String s | inr i => NewLine i end) _).
  by intros [].
Defined.
End LayoutElement.

(** Modelled from the spec: a layout is an ordered sequence of layout
    elements (section 3.3); [support.Layout(elements)] builds one. *)
Definition Layout := list LayoutElement.t.

(** ** Solutions ([support.Solution]) *)

(** Modelled from the spec: a solution is five parallel sequences indexed by
    knot (section 3.4).  The constructor call [support.Solution(knots, spans,
    intercepts, gradients, layouts, options=options)] of [blocks.py] gives
    them in this order, and [PrintOn] reads the attribute [layouts]. *)
Record Solution := NewSolution {
  knots : list Z;
  spans : list Z;
  intercepts : list Qc;
  gradients : list Qc;
  layouts : list Layout
}.

#[global] Instance Solution_eq_dec : EqDecision Solution.
Proof. solve_decision. Defined.

#[global] Instance Solution_countable : Countable Solution.
Proof.
  refine (inj_countable'
    (λ s, (knots s, spans s, intercepts s, gradients s, layouts s))
    (λ x, let '(k, sp, i, g, l) := x in NewSolution k sp i g l) _).
  by intros [].
Defined.

(** Modelled from the spec: one segment of a solution, with the five data
    that [SolutionFactory.Append] receives (section 4.1). *)
Record piece := Piece {
  p_knot : Z;
  p_span : Z;
  p_intercept : Qc;
  p_gradient : Qc;
  p_layout : Layout
}.

(** Modelled from the spec: the solution made of the given segments, and
    the segments of a solution. *)
Definition of_pieces (ps : list piece) : Solution :=
  NewSolution (p_knot <$> ps) (p_span <$> ps) (p_intercept <$> ps)
             (p_gradient <$> ps) (p_layout <$> ps).

(** Modelled from the spec: the five parallel sequences read segment by
    segment. *)
Fixpoint pieces_of (ks sps : list Z) (cs gs : list Qc) (ls : list Layout)
  : list piece :=
  match ks, sps, cs, gs, ls with
  | k :: ks, sp :: sps, c :: cs, g :: gs, l :: ls =>
      Piece k sp c g l :: pieces_of ks sps cs gs ls
  | _, _, _, _, _ => []
  end.

(** Modelled from the spec: the segments of a solution. *)
Definition pieces (s : Solution) : list piece :=
  pieces_of (knots s) (spans s) (intercepts s) (gradients s) (layouts s).

(** Modelled from the spec: segment [i] covers the columns from [knot[i]]
    up to the next knot (section 3.4); the segment that holds column [k] is
    the one of the last knot that is at most [k] (segment 0 when there is
    none). *)
Fixpoint index_from (i best : nat) (ks : list Z) (k : Z) : nat :=
  match ks with
  | [] => best
  | x :: ks' => index_from (S i) (if x <=? k then i else best) ks' k
  end.

(** Modelled from the spec: the segment of [s] in force at column [k]. *)
Definition index_at (s : Solution) (k : Z) : nat := index_from 0 0 (knots s) k.

(** Modelled from the spec: [span_at(k)], the span on the segment in force
    at column [k]. *)
Definition SpanAt (s : Solution) (k : Z) : Z :=
  default 0 (spans s !! index_at s k).

(** Modelled from the spec: [slope_at(k)]. *)
Definition GradientAt (s : Solution) (k : Z) : Qc :=
  default 0%Qc (gradients s !! index_at s k).

(** Modelled from the spec: [layout_at(k)]. *)
Definition LayoutAt (s : Solution) (k : Z) : Layout :=
  default [] (layouts s !! index_at s k).

(** Modelled from the spec:
    [value(k) = cost_at_knot[i] + slope[i] * (k - knot[i])] on segment [i]
    (section 3.4). *)
Definition ValueAt (s : Solution) (k : Z) : Qc :=
  let i := index_at s k in
  let knot := default 0 (knots s !! i) in
  (default 0 (intercepts s !! i)
   + default 0 (gradients s !! i) * Qc_of_Z (k - knot))%Qc.

(** Modelled from the spec: [plus_const(c)] shifts every cost by [c] and
    leaves knots, spans, slopes and layouts alone (section 4.1);
    [Solution.PlusConst] is in [support]. *)
Definition PlusConst (s : Solution) (c : Qc) : Solution :=
  NewSolution (knots s) (spans s) ((λ x, (x + c)%Qc) <$> intercepts s)
             (gradients s) (layouts s).

(** Modelled from the spec: column [k] lies before the end [hi] of a
    segment, the last segment having no end. *)
Definition below (hi : option Z) (k : Z) : bool :=
  match hi with Some h => k <? h | None => true end.

(** Modelled from the spec: a new knot is emitted whenever the left function
    or the shifted right function has one (section 4.1).  These are the
    columns of one segment [lo, hi) of the left operand at which the
    composition has a knot: [lo] itself and every knot of [rest], shifted
    left by the segment's span, that falls strictly inside. *)
Definition segment_columns (lo : Z) (hi : option Z) (sp : Z) (rest : Solution)
  : list Z :=
  lo :: List.filter (λ k, (lo <? k) && below hi k)
                    ((λ x, x - sp) <$> knots rest).

(** Modelled from the spec: at a new knot [k] on a segment of [self],
    [cost = self.cost + rest.cost_at(k + self.span)], and the same for
    slope, span and layout (section 4.1). *)
Definition compose_piece (p : piece) (rest : Solution) (k : Z) : piece :=
  let k' := k + p_span p in
  Piece k
        (p_span p + SpanAt rest k')
        (p_intercept p + p_gradient p * Qc_of_Z (k - p_knot p)
         + ValueAt rest k')%Qc
        (p_gradient p + GradientAt rest k')%Qc
        (p_layout p ++ LayoutAt rest k').

(** Modelled from the spec: the walk over the segments of [self]. *)
Fixpoint compose_pieces (ps : list piece) (rest : Solution) : list piece :=
  match ps with
  | [] => []
  | p :: ps' =>
      (compose_piece p rest
         <$> segment_columns (p_knot p) (p_knot <$> head ps') (p_span p) rest)
      ++ compose_pieces ps' rest
  end.

(** Modelled from the spec: [with_rest_of_line(self, rest)] is [self] when
    [rest] is [None]; otherwise both functions are walked by knot, the
    argument of [rest] shifted by the span of the current segment of [self],
    and cost, slope, span and layout are combined at every new knot
    (section 4.1).  [Solution.WithRestOfLine] is in [support]. *)
Definition WithRestOfLine (self : Solution) (rest_of_line : option Solution)
  : Solution :=
  match rest_of_line with
  | None => self
  | Some rest => of_pieces (compose_pieces (pieces self) rest)
  end.

(** Modelled from the spec: [v_sum(solutions)] keeps the knots and slopes of
    the first solution, adds the value at column 0 of every later solution to
    the costs, takes the span of the last solution at column 0 and joins the
    layouts with newlines (section 4.1).  The later lines start at column 0,
    which is the indent of the newline put before them.  The spec defines the
    sum for a non-empty list; for the empty list the model answers [None],
    the degenerate result that [StackBlock.DoOptLayout] tests for.
    [support.VSumSolution] is in [support]; [vsum] is its value on a first
    solution and the later ones. *)
Definition vsum (s0 : Solution) (later : list Solution) : Solution :=
  let extra := foldr (λ s acc, (ValueAt s 0 + acc)%Qc) 0%Qc later in
  let sp := SpanAt (List.last later s0) 0 in
  let tail :=
    concat ((λ s, LayoutElement.NewLine 0 :: LayoutAt s 0) <$> later) in
  NewSolution (knots s0)
              ((λ _, sp) <$> spans s0)
              ((λ c, (c + extra)%Qc) <$> intercepts s0)
              (gradients s0)
              ((λ l, l ++ tail) <$> layouts s0).

(** Modelled from the spec: [v_sum] of a list; see [vsum]. *)
Definition VSumSolution (solutions : list Solution) : option Solution :=
  match solutions with
  | [] => None
  | s0 :: later => Some (vsum s0 later)
  end.

(** *** The lower envelope ([support.MinSolution]) *)

(** Modelled from the spec: what one candidate of [min_solution] offers at a
    column: its position in the input list, the segment in force, and that
    segment's data. *)
Record cand := Cand {
  c_idx : nat;
  c_seg : nat;
  c_value : Qc;
  c_gradient : Qc;
  c_span : Z;
  c_layout : Layout
}.

(** Modelled from the spec: the candidate [s], the [i]-th of the input, at
    column [k]. *)
Definition cand_at (k : Z) (i : nat) (s : Solution) : cand :=
  Cand i (index_at s k) (ValueAt s k) (GradientAt s k) (SpanAt s k)
       (LayoutAt s k).

(** Modelled from the spec: all the candidates at column [k]. *)
Definition cands_at (solutions : list Solution) (k : Z) : list cand :=
  imap (cand_at k) solutions.

(** Modelled from the spec: the smallest value wins; the tie-break prefers
    the earlier candidate in input order (section 4.1). *)
Fixpoint argmin (best : cand) (cs : list cand) : cand :=
  match cs with
  | [] => best
  | c :: cs' =>
      argmin (if bool_decide (c_value c < c_value best)%Qc then c else best) cs'
  end.

(** Modelled from the spec: the crossing column of two linear pieces
    (section 4.1): the first column after [k_l] at which candidate [c], of smaller slope than
    the current minimum [b], takes over from it: where it gets strictly
    smaller, or already where it draws level when it comes earlier in the
    input. *)
Definition crossing (k_l : Z) (b c : cand) : option Z :=
  if bool_decide (c_gradient c < c_gradient b)%Qc then
    let x := ((c_value c - c_value b) / (c_gradient b - c_gradient c))%Qc in
    Some (k_l + (if (c_idx c <? c_idx b)%nat
                 then Qceiling (this x) else Qfloor (this x) + 1))
  else None.

(** Modelled from the spec: the nearest crossing that lies strictly inside
    the current interval (section 4.1). *)
Definition next_crossing (k_l : Z) (hi : option Z) (b : cand) (cs : list cand)
  : option Z :=
  match List.filter (λ k, (k_l <? k) && below hi k) (omap (crossing k_l b) cs)
  with
  | [] => None
  | k :: ks => Some (foldr Z.min k ks)
  end.

(** Modelled from the spec: on each interval the values of the candidates
    are compared and a knot is added whenever the argmin changes (section
    4.1).  Sweep of one interval [k_l, hi) of the merged knots: a piece is emitted
    whenever the minimum moves to another candidate or another segment.
    [last] is the (candidate, segment) of the piece emitted last.  Each
    crossing moves to a candidate of smaller slope, so as many steps as there
    are candidates are enough. *)
Fixpoint sweep (fuel : nat) (solutions : list Solution) (k_l : Z)
    (hi : option Z) (last : option (nat * nat))
  : list piece * option (nat * nat) :=
  match cands_at solutions k_l with
  | [] => ([], last)
  | c0 :: cs =>
      let b := argmin c0 cs in
      let here := (c_idx b, c_seg b) in
      let emitted :=
        if decide (last = Some here) then []
        else [Piece k_l (c_span b) (c_value b) (c_gradient b) (c_layout b)] in
      match fuel, next_crossing k_l hi b (c0 :: cs) with
      | S fuel', Some k' =>
          let '(ps, last') := sweep fuel' solutions k' hi (Some here) in
          (emitted ++ ps, last')
      | _, _ => (emitted, Some here)
      end
  end.

(** Modelled from the spec: the advance through the merged knots, interval
    by interval (section 4.1). *)
Fixpoint envelope (solutions : list Solution) (lo : Z) (later : list Z)
    (last : option (nat * nat)) : list piece :=
  match later with
  | [] => (sweep (length solutions) solutions lo None last).1
  | k :: later' =>
      let '(ps, last') := sweep (length solutions) solutions lo (Some k) last in
      ps ++ envelope solutions k later' last'
  end.

(** Modelled from the spec: one more knot in an increasing sequence of
    knots. *)
Fixpoint insert_knot (k : Z) (ks : list Z) : list Z :=
  match ks with
  | [] => [k]
  | x :: ks' =>
      if k <? x then k :: ks
      else if k =? x then ks
      else x :: insert_knot k ks'
  end.

(** Modelled from the spec: the merged knot set (section 4.1): the knots of
    all candidates after column 0, in increasing order and without
    repetition. *)
Definition merged_knots (solutions : list Solution) : list Z :=
  foldr insert_knot [] (List.filter (λ k, 0 <? k) (concat (knots <$> solutions))).

(** Modelled from the spec: [min_solution(solutions)] advances through the
    merged knots, compares the values of the candidates on each interval,
    keeps the smallest (the earlier candidate on a tie) and adds a knot
    wherever the minimum changes hands, crossings inside an interval
    included (section 4.1).  The spec defines the minimum of a non-empty list
    only; the model answers [None] for the empty one.
    [support.MinSolution] is in [support]; [lower_envelope] is its value on
    a non-empty list. *)
Definition lower_envelope (solutions : list Solution) : Solution :=
  of_pieces (envelope solutions 0 (merged_knots solutions) None).

(** Modelled from the spec: [min_solution] of a list; see
    [lower_envelope]. *)
Definition MinSolution (solutions : list Solution) : option Solution :=
  match solutions with
  | [] => None
  | _ => Some (lower_envelope solutions)
  end.

(** ** Exceptions and the heap of memo tables *)

Inductive exn :=
| BlockUsageError
| TypeError
| ValueError
| AssertionError
| AttributeError
| IndexError
| KeyError
| InternalInvariant.

#[global] Instance exn_eq_dec : EqDecision exn.
Proof. solve_decision. Defined.

(** Outcome of a call: a value, a raised exception, or the recursion budget
    of the model used up (Python itself has no such budget). *)
Inductive outcome (A : Type) :=
| Ok (a : A)
| Raise (e : exn)
| OutOfFuel.
Arguments Ok {A} a.
Arguments Raise {A} e.
Arguments OutOfFuel {A}.

Definition oid := positive.

(** [layout_cache: Dict[Optional[Solution], Solution]].  The key is compared
    as a value: two uses of the same object are the same key. *)
Abbreviation cache := (gmap (option Solution) (option Solution)).

Record heap := MkHeap {
  caches : gmap oid cache;
  next_oid : oid
}.

Definition M (A : Type) : Type := heap → outcome A * heap.

#[global] Instance M_ret : MRet M := λ A a h, (Ok a, h).
#[global] Instance M_bind : MBind M := λ A B f m h,
  match m h with
  | (Ok a, h') => f a h'
  | (Raise e, h') => (Raise e, h')
  | (OutOfFuel, h') => (OutOfFuel, h')
  end.

Definition raise {A} (e : exn) : M A := λ h, (Raise e, h).
Definition out_of_fuel {A} : M A := λ h, (OutOfFuel, h).

(** [assert c] *)
Definition assert (c : bool) : M unit :=
  if c then mret () else raise AssertionError.

(** A method call or attribute access on a value that may be [None]. *)
Definition deref {A} (o : option A) : M A :=
  match o with Some a => mret a | None => raise AttributeError end.

(** [l[i]] for a Python list. *)
Definition getitem {A} (l : list A) (i : nat) : M A :=
  match l !! i with Some a => mret a | None => raise IndexError end.

(** [d[key]] for a Python dict. *)
Definition getkey `{Countable K} {A} (d : gmap K A) (key : K) : M A :=
  match d !! key with Some a => mret a | None => raise KeyError end.

(** [l[-1]] *)
Definition getitem_last {A} (l : list A) : M A :=
  match last l with Some a => mret a | None => raise IndexError end.

(** [LayoutBlock.__init__]: a new object with an empty [layout_cache]. *)
Definition new_object : M oid := λ h,
  (Ok (next_oid h),
   MkHeap (<[next_oid h := ∅]> (caches h)) (Pos.succ (next_oid h))).

Definition cache_of (o : oid) : M cache := λ h,
  (Ok (default ∅ (caches h !! o)), h).

(** [self.layout_cache[key] = value] *)
Definition cache_store (o : oid) (key : option Solution)
    (value : option Solution) : M unit := λ h,
  (Ok (),
   MkHeap (<[o := <[key := value]> (default ∅ (caches h !! o))]> (caches h))
          (next_oid h)).

(** ** Python loops *)

(** [for x in xs: body], the loop variables threaded as [s]. *)
Fixpoint for_ {A S} (xs : list A) (body : A → S → M S) (s : S) : M S :=
  match xs with
  | [] => mret s
  | x :: xs' => s' ← body x s; for_ xs' body s'
  end.

(** [for x in xs: body ... else: ...]: the body answers [true] when it
    leaves through [break]; the loop answers [false] when it was exhausted,
    which is when Python runs the [else] clause. *)
Fixpoint for_else {A S} (xs : list A) (body : A → S → M (S * bool)) (s : S)
  : M (S * bool) :=
  match xs with
  | [] => mret (s, false)
  | x :: xs' =>
      '((s', broke) : S * bool) ← body x s;
      if broke then mret (s', true) else for_else xs' body s'
  end.

(** [enumerate(xs)] *)
Definition enumerate {A} (xs : list A) : list (nat * A) := imap pair xs.

(** [range(lo, hi)] and [range(n - 1, -1, -1)] *)
Definition range (lo hi : nat) : list nat := seq lo (hi - lo).
Definition range_down (n : nat) : list nat := reverse (seq 0 n).

(** [xs[:-1]] *)
Definition but_last {A} (xs : list A) : list A := take (length xs - 1) xs.

(** ** Blocks ([base.py], [blocks.py], [extras.py]) *)

(** Every constructor carries the identity of the object and the attribute
    [is_breaking], which [__init__] sets once. *)
Inductive LayoutBlock :=
| TextBlock (self : oid) (is_breaking : bool) (text : string)
| VerbBlock (self : oid) (is_breaking : bool) (lines : list string)
            (first_nl : bool)
| LineBlock (self : oid) (is_breaking : bool) (elements : list LayoutBlock)
| ChoiceBlock (self : oid) (is_breaking : bool) (elements : list LayoutBlock)
| StackBlock (self : oid) (is_breaking : bool) (elements : list LayoutBlock)
             (break_mult : Qc)
| WrapBlock (self : oid) (is_breaking : bool) (elements : list LayoutBlock)
            (sep : string) (break_mult : Qc) (prefix : option string)
| JoinedLineBlock (self : oid) (is_breaking : bool)
                  (elements : list LayoutBlock)
                  (joiner : string + LayoutBlock) (join_breaking : bool).

Definition oid_of (b : LayoutBlock) : oid :=
  match b with
  | TextBlock o _ _ | VerbBlock o _ _ _ | LineBlock o _ _ | ChoiceBlock o _ _
  | StackBlock o _ _ _ | WrapBlock o _ _ _ _ _ | JoinedLineBlock o _ _ _ _ => o
  end.

Definition is_breaking (b : LayoutBlock) : bool :=
  match b with
  | TextBlock _ br _ | VerbBlock _ br _ _ | LineBlock _ br _
  | ChoiceBlock _ br _ | StackBlock _ br _ _ | WrapBlock _ br _ _ _ _
  | JoinedLineBlock _ br _ _ _ => br
  end.

(** A value handed to a constructor where a block is expected: Python does
    not check it before [__init__] runs. *)
Inductive PyObject :=
| PyBlock (b : LayoutBlock)
| PyOther (repr : string).

(** *** Options ([base.Options]) *)

Record Options := MkOptions {
  margin_0 : Z;
  margin_0_cost : Qc;
  margin_1 : Z;
  margin_1_cost : Qc;
  break_cost : Qc;
  late_pack_cost : Qc;
  break_element_lines :
    option (list (list LayoutBlock) → list (list LayoutBlock))
}.

(** A Python [float] given as a cost: a finite number (an [int] counts as
    one), an infinity or NaN. *)
Inductive pyfloat :=
| Finite (q : Qc)
| PosInf
| NegInf
| NaN.

(** [x >= 0] on floats: false for NaN, as every comparison with NaN is. *)
Definition float_nonneg (x : pyfloat) : bool :=
  match x with
  | Finite q => bool_decide (0 ≤ q)%Qc
  | PosInf => true
  | NegInf | NaN => false
  end.

(** The fields of an [Options] object as the constructor receives them: the
    costs are any float.  [Options] above is such an object with finite
    costs, which is what the layout code is modelled on. *)
Record OptionsFields := MkOptionsFields {
  f_margin_0 : Z;
  f_margin_0_cost : pyfloat;
  f_margin_1 : Z;
  f_margin_1_cost : pyfloat;
  f_break_cost : pyfloat;
  f_late_pack_cost : pyfloat;
  f_break_element_lines :
    option (list (list LayoutBlock) → list (list LayoutBlock))
}.

(** The fields of an object with finite costs. *)
Definition fields_of (o : Options) : OptionsFields :=
  MkOptionsFields (margin_0 o) (Finite (margin_0_cost o)) (margin_1 o)
                  (Finite (margin_1_cost o)) (Finite (break_cost o))
                  (Finite (late_pack_cost o)) (break_element_lines o).

(** [Options.Check]: the first assertion that fails is turned into a
    [ValueError] ([base.py], lines 47-57).  Each assertion is a comparison
    [>=], which a NaN fails. *)
Definition Check (self : OptionsFields) : M unit :=
  if negb (0 <=? f_margin_0 self) then raise ValueError
  else if negb (f_margin_0 self <=? f_margin_1 self) then raise ValueError
  else if negb (float_nonneg (f_margin_0_cost self)) then raise ValueError
  else if negb (float_nonneg (f_margin_1_cost self)) then raise ValueError
  else if negb (float_nonneg (f_break_cost self)) then raise ValueError
  else if negb (float_nonneg (f_late_pack_cost self)) then raise ValueError
  else mret ().

(** The dataclass constructor: the fields are set, then [__post_init__]
    runs [Check]. *)
Definition Options_new (margin_0 : Z) (margin_0_cost : pyfloat) (margin_1 : Z)
    (margin_1_cost break_cost late_pack_cost : pyfloat)
    (break_element_lines :
       option (list (list LayoutBlock) → list (list LayoutBlock)))
  : M OptionsFields :=
  let self := MkOptionsFields margin_0 margin_0_cost margin_1 margin_1_cost
                              break_cost late_pack_cost break_element_lines in
  Check self;; mret self.

(** *** Constructors *)

Definition TextBlock_new (text : string) (is_breaking : bool) : M LayoutBlock :=
  self ← new_object; mret (TextBlock self is_breaking text).

Definition VerbBlock_new (lines : list string) (is_breaking first_nl : bool)
  : M LayoutBlock :=
  self ← new_object; mret (VerbBlock self is_breaking lines first_nl).

(** [CompositeLayoutBlock.__init__] ([blocks.py], lines 95-110). *)
Definition CompositeLayoutBlock_init (elements : list PyObject)
  : M (oid * bool * list LayoutBlock) :=
  self ← new_object;
  match elements with
  | [] => raise BlockUsageError
  | _ =>
      es ← mapM (λ e, match e with
                      | PyBlock b => mret b
                      | PyOther _ => raise TypeError
                      end) elements;
      mret (self,
            match last es with Some e => is_breaking e | None => false end,
            es)
  end.

Definition LineBlock_new (elements : list PyObject) : M LayoutBlock :=
  '(self, is_breaking, elements) ← CompositeLayoutBlock_init elements;
  mret (LineBlock self is_breaking elements).

Definition ChoiceBlock_new (elements : list PyObject) : M LayoutBlock :=
  '(self, is_breaking, elements) ← CompositeLayoutBlock_init elements;
  mret (ChoiceBlock self is_breaking elements).

Definition StackBlock_new (elements : list PyObject) (break_mult : Qc)
  : M LayoutBlock :=
  '(self, is_breaking, elements) ← CompositeLayoutBlock_init elements;
  mret (StackBlock self is_breaking elements break_mult).

(** [WrapBlock.__init__]; the list [elt_is_breaking] that it also stores is
    never read. *)
Definition WrapBlock_new (elements : list PyObject) (sep : string)
    (break_mult : Qc) (prefix : option string) : M LayoutBlock :=
  '(self, is_breaking, elements) ← CompositeLayoutBlock_init elements;
  mret (WrapBlock self is_breaking elements sep break_mult prefix).

Definition JoinedLineBlock_new (elements : list PyObject)
    (joiner : string + LayoutBlock) (join_breaking : bool) : M LayoutBlock :=
  '(self, is_breaking, elements) ← CompositeLayoutBlock_init elements;
  mret (JoinedLineBlock self is_breaking elements joiner join_breaking).

(** *** The solution factory ([support.SolutionFactory]) *)

(** Modelled from the spec: an append-only builder; [Append] enforces
    strictly increasing knots and non-decreasing slopes, a violation being
    an internal-invariant failure (sections 4.1 and 7); [MkSolution] yields
    the solution.  The class is in [support]. *)
Definition SolutionFactory := list piece.

(** Modelled from the spec: [append(knot, span, cost, slope, layout)]
    enforces strict knot monotonicity and slope monotonicity (section 4.1);
    the model raises the internal-invariant error of section 7 otherwise. *)
Definition Append (sf : SolutionFactory) (knot span : Z)
    (intercept gradient : Qc) (layout : Layout) : M SolutionFactory :=
  match last sf with
  | Some q =>
      if (p_knot q <? knot) && bool_decide (p_gradient q ≤ gradient)%Qc
      then mret (sf ++ [Piece knot span intercept gradient layout])
      else raise InternalInvariant
  | None => mret [Piece knot span intercept gradient layout]
  end.

(** Modelled from the spec: [build()] yields the solution (section 4.1);
    the source calls it [MkSolution(options)]. *)
Definition MkSolution (sf : SolutionFactory) (options : Options) : Solution :=
  of_pieces sf.

(** *** [DoOptLayout], block by block

    The recursive calls [elt.OptLayout(...)] go through [rec], which
    [OptLayout] below instantiates with itself. *)

Section DoOptLayout.
Variable rec : LayoutBlock → option Solution → Options → M (option Solution).

(** [TextBlock.DoOptLayout] ([blocks.py], lines 40-86).  [len] counts the
    characters of the text. *)
Definition TextBlock_DoOptLayout (text : string)
    (rest_of_line : option Solution) (options : Options) : Solution :=
  let span := Z.of_nat (String.length text) in
  let layout : Layout := [LayoutElement.String text] in
  let s :=
    if margin_1 options <=? span then
      NewSolution
        [0]
        [span]
        [(Qc_of_Z (span - margin_0 options) * margin_0_cost options
          + Qc_of_Z ((span - margin_1 options) * margin_1 options))%Qc]
        [(margin_0_cost options + margin_1_cost options)%Qc]
        [layout]
    else if margin_0 options <=? span then
      NewSolution
        [0; margin_1 options - span]
        (replicate 2 span)
        [(Qc_of_Z (span - margin_0 options) * margin_0_cost options)%Qc;
         (Qc_of_Z (margin_1 options - margin_0 options)
          * margin_0_cost options)%Qc]
        [margin_0_cost options;
         (margin_0_cost options + margin_1_cost options)%Qc]
        (replicate 2 layout)
    else
      NewSolution
        [0; margin_0 options - span; margin_1 options - span]
        (replicate 3 span)
        [0%Qc; 0%Qc;
         (Qc_of_Z (margin_1 options - margin_0 options)
          * margin_0_cost options)%Qc]
        [0%Qc; margin_0_cost options;
         (margin_0_cost options + margin_1_cost options)%Qc]
        (replicate 3 layout) in
  WithRestOfLine s rest_of_line.

(** The layout of a [VerbBlock]: the loop of lines 338-343. *)
Definition verb_layout (lines : list string) (first_nl : bool) : Layout :=
  foldl (λ l_elts '(i, ln),
           (if (0 <? i)%nat || first_nl
            then l_elts ++ [LayoutElement.NewLine 0] else l_elts)
           ++ [LayoutElement.String ln])
        [] (enumerate lines).

(** [VerbBlock.DoOptLayout] ([blocks.py], lines 333-357). *)
Definition VerbBlock_DoOptLayout (lines : list string) (first_nl : bool)
    (rest_of_line : option Solution) (options : Options) : M Solution :=
  let layout := verb_layout lines first_nl in
  let span := 0 in
  let sf : SolutionFactory := [] in
  sf ← (if 0 <? margin_0 options
        then Append sf 0 span 0%Qc 0%Qc layout else mret sf);
  sf ← Append sf (margin_0 options - span) span 0%Qc
              (margin_0_cost options) layout;
  sf ← Append sf (margin_1 options - span) span
              (Qc_of_Z (margin_1 options - margin_0 options)
               * margin_0_cost options)%Qc
              (margin_0_cost options + margin_1_cost options)%Qc layout;
  mret (MkSolution sf options).

(** The element-lines of a [LineBlock]: the loop of lines 135-140. *)
Definition split_element_lines (elements : list LayoutBlock)
  : list (list LayoutBlock) :=
  foldl (λ element_lines '(i, elt),
           let element_lines :=
             alter (λ ln, ln ++ [elt]) (length element_lines - 1)%nat
                   element_lines in
           if (Z.of_nat i <? Z.of_nat (length elements) - 1)
              && is_breaking elt
           then element_lines ++ [[]] else element_lines)
        [[]] (enumerate elements).

(** [LineBlock.DoOptLayout] ([blocks.py], lines 128-152).  A solution
    object is true in a boolean context. *)
Definition LineBlock_DoOptLayout (elements : list LayoutBlock)
    (rest_of_line : option Solution) (options : Options)
  : M (option Solution) :=
  match elements with
  | [] => assert (bool_decide (is_Some rest_of_line));; mret rest_of_line
  | _ =>
      let element_lines := split_element_lines elements in
      let element_lines :=
        match break_element_lines options with
        | Some hook =>
            if (1 <? length element_lines)%nat then hook element_lines
            else element_lines
        | None => element_lines
        end in
      line_solns ← for_ (enumerate element_lines)
        (λ '(i, ln) line_solns,
           let ln_layout :=
             if Z.of_nat i <? Z.of_nat (length element_lines) - 1
             then None else rest_of_line in
           ln_layout ← for_ (reverse ln)
             (λ elt ln_layout, rec elt ln_layout options) ln_layout;
           mret (line_solns ++ [ln_layout]))
        [];
      soln ← deref (VSumSolution (omap id line_solns));
      mret (Some (PlusConst soln
        (break_cost options
         * Qc_of_Z (Z.of_nat (length line_solns) - 1))%Qc))
  end.

(** [ChoiceBlock.DoOptLayout] ([blocks.py], lines 162-169).  The
    functions of [support] work on solutions: a [None] among their
    arguments is an attribute error. *)
Definition ChoiceBlock_DoOptLayout (elements : list LayoutBlock)
    (rest_of_line : option Solution) (options : Options)
  : M (option Solution) :=
  solns ← mapM (λ e, rec e rest_of_line options) elements;
  solns ← mapM deref solns;
  mret (MinSolution solns).

(** [StackBlock.DoOptLayout] ([blocks.py], lines 194-216). *)
Definition StackBlock_DoOptLayout (elements : list LayoutBlock)
    (break_mult : Qc) (rest_of_line : option Solution) (options : Options)
  : M (option Solution) :=
  match elements with
  | [] => assert (bool_decide (is_Some rest_of_line));; mret rest_of_line
  | _ =>
      firsts ← mapM (λ e, rec e None options) (but_last elements);
      final ← (e ← getitem_last elements; rec e rest_of_line options);
      solns ← mapM deref (firsts ++ [final]);
      match VSumSolution solns with
      | None => mret rest_of_line
      | Some soln =>
          mret (Some (PlusConst soln
            (break_cost options * break_mult
             * Qc_of_Z (Z.max (Z.of_nat (length elements) - 1) 0))%Qc))
      end
  end.
End DoOptLayout.

(** [WrapBlock.DoOptLayout], the dynamic program ([blocks.py], lines
    246-317). *)
Section Wrap.
Variables (elements : list LayoutBlock) (break_mult : Qc).
Variables (rest_of_line : option Solution) (options : Options).
Variables (sep_layout prefix_layout : option Solution).
Variable elt_layouts : list (option Solution).

Let n : nat := length elements.

(** The state of the inner loop: [solutions_i], [line_layout] and
    [last_breaking]. *)
Definition inner_state : Type := list Solution * option Solution * bool.

(** One turn of the loop [for j in range(i, self.n - 1)] (lines 285-308). *)
Definition wrap_inner (wrap_solutions : list (option Solution)) (j : nat)
    (st : inner_state) : M (inner_state * bool) :=
  let '(solutions_i, line_layout, last_breaking) := st in
  solution_j ← getitem wrap_solutions (j + 1);
  assert (bool_decide (is_Some solution_j));;
  args ← mapM deref [line_layout; solution_j];
  full_soln ← deref (VSumSolution args);
  let solutions_i :=
    solutions_i ++
      [PlusConst full_soln
         (break_cost options * break_mult
          + late_pack_cost options
            * Qc_of_Z (Z.of_nat n - Z.of_nat j))%Qc] in
  if last_breaking then mret ((solutions_i, line_layout, last_breaking), true)
  else
    sep ← deref sep_layout;
    elt ← getitem elt_layouts (j + 1);
    let sep_elt_layout := WithRestOfLine sep elt in
    assert (bool_decide (is_Some line_layout));;
    line ← deref line_layout;
    let line_layout := Some (WithRestOfLine line (Some sep_elt_layout)) in
    next ← getitem elements (j + 1);
    mret ((solutions_i, line_layout, is_breaking next), false).

(** One turn of the loop [for i in range(self.n - 1, -1, -1)] (lines
    267-312). *)
Definition wrap_outer (i : nat) (wrap_solutions : list (option Solution))
  : M (list (option Solution)) :=
  elt ← getitem elt_layouts i;
  let line_layout :=
    match prefix_layout with
    | None => elt
    | Some prefix => Some (WithRestOfLine prefix elt)
    end in
  first ← getitem elements i;
  '((st, broke) : inner_state * bool) ←
    for_else (range i (n - 1)) (wrap_inner wrap_solutions)
             ([], line_layout, is_breaking first);
  let '(solutions_i, line_layout, _) := st in
  solutions_i ←
    (if broke then mret solutions_i
     else
       assert (bool_decide (is_Some line_layout));;
       line ← deref line_layout;
       mret (solutions_i ++ [WithRestOfLine line rest_of_line]));
  mret (<[i := MinSolution solutions_i]> wrap_solutions).

(** Lines 261-317. *)
Definition wrap_program : M (option Solution) :=
  let wrap_solutions : list (option Solution) := replicate n None in
  wrap_solutions ← for_ (range_down n) wrap_outer wrap_solutions;
  result ← getitem wrap_solutions 0;
  assert (bool_decide (is_Some result));;
  mret result.
End Wrap.

Section Dispatch.
Variable rec : LayoutBlock → option Solution → Options → M (option Solution).

(** Lines 252-258 evaluate the separator, the prefix and the elements;
    the rest is [wrap_program].  A non-empty string is true in a boolean
    context. *)
Definition WrapBlock_DoOptLayout (elements : list LayoutBlock)
    (sep : string) (break_mult : Qc) (prefix : option string)
    (rest_of_line : option Solution) (options : Options)
  : M (option Solution) :=
  sep_block ← TextBlock_new sep false;
  sep_layout ← rec sep_block None options;
  assert (bool_decide (is_Some sep_layout));;
  prefix_layout ←
    match prefix with
    | Some (String a p) =>
        _ ← TextBlock_new (String a p) false;
        mret (Some (TextBlock_DoOptLayout (String a p) None options))
    | _ => mret None
    end;
  elt_layouts ← mapM (λ e, rec e None options) elements;
  wrap_program elements break_mult rest_of_line options sep_layout
               prefix_layout elt_layouts.

(** [JoinedLineBlock.CompositeOptLayout]: the list [joined] of lines
    123-129. *)
Definition joined_elements (elements : list LayoutBlock)
    (joiner : LayoutBlock) (join_breaking : bool) : M (list LayoutBlock) :=
  let joined :=
    foldl (λ joined element,
             let joined := joined ++ [element] in
             if negb (is_breaking element) || join_breaking
             then joined ++ [joiner] else joined)
          [] (but_last elements) in
  final ← getitem_last elements;
  mret (joined ++ [final]).

Definition is_empty_text (e : LayoutBlock) : bool :=
  match e with
  | TextBlock _ _ text => bool_decide (text = "")
  | _ => false
  end.

(** [JoinedLineBlock.CompositeOptLayout] ([extras.py], lines 114-132).
    The list [elements] of lines 119-121 is computed and not used. *)
Definition JoinedLineBlock_CompositeOptLayout (self_elements : list LayoutBlock)
    (self_joiner : string + LayoutBlock) (join_breaking : bool)
    (rest_of_line : option Solution) (options : Options)
  : M (option Solution) :=
  joiner ← match self_joiner with
           | inl s => TextBlock_new s false
           | inr b => mret b
           end;
  let elements := List.filter (λ e, negb (is_empty_text e)) self_elements in
  joined ← joined_elements self_elements joiner join_breaking;
  block ← LineBlock_new (PyBlock <$> joined);
  rec block rest_of_line options.

(** [CompositeShortcutMixin.DoOptLayout] ([extras.py], lines 77-86), as
    inherited by [JoinedLineBlock]. *)
Definition JoinedLineBlock_DoOptLayout (elements : list LayoutBlock)
    (joiner : string + LayoutBlock) (join_breaking : bool)
    (rest_of_line : option Solution) (options : Options)
  : M (option Solution) :=
  match elements with
  | [] => empty ← TextBlock_new "" false; rec empty rest_of_line options
  | [e] => rec e rest_of_line options
  | _ => JoinedLineBlock_CompositeOptLayout elements joiner join_breaking
           rest_of_line options
  end.

(** Dispatch on the class of the block. *)
Definition DoOptLayout (self : LayoutBlock) (rest_of_line : option Solution)
    (options : Options) : M (option Solution) :=
  match self with
  | TextBlock _ _ text =>
      mret (Some (TextBlock_DoOptLayout text rest_of_line options))
  | VerbBlock _ _ lines first_nl =>
      soln ← VerbBlock_DoOptLayout lines first_nl rest_of_line options;
      mret (Some soln)
  | LineBlock _ _ elements =>
      LineBlock_DoOptLayout rec elements rest_of_line options
  | ChoiceBlock _ _ elements =>
      ChoiceBlock_DoOptLayout rec elements rest_of_line options
  | StackBlock _ _ elements break_mult =>
      StackBlock_DoOptLayout rec elements break_mult rest_of_line options
  | WrapBlock _ _ elements sep break_mult prefix =>
      WrapBlock_DoOptLayout elements sep break_mult prefix rest_of_line
                            options
  | JoinedLineBlock _ _ elements joiner join_breaking =>
      JoinedLineBlock_DoOptLayout elements joiner join_breaking rest_of_line
                                  options
  end.

(** [LayoutBlock.OptLayout] ([base.py], lines 90-105), around any
    [DoOptLayout]. *)
Definition memoised (self : oid) (do_opt_layout : M (option Solution))
    (rest_of_line : option Solution) : M (option Solution) :=
  layout_cache ← cache_of self;
  (if bool_decide (is_Some (layout_cache !! rest_of_line)) then mret ()
   else
     soln ← do_opt_layout;
     cache_store self rest_of_line soln);;
  layout_cache ← cache_of self;
  getkey layout_cache rest_of_line.
End Dispatch.

Fixpoint OptLayout (fuel : nat) (self : LayoutBlock)
    (rest_of_line : option Solution) (options : Options)
  : M (option Solution) :=
  match fuel with
  | O => out_of_fuel
  | S fuel' =>
      memoised (oid_of self)
               (DoOptLayout (OptLayout fuel') self rest_of_line options)
               rest_of_line
  end.

(** Modelled from the spec: [n] spaces of indentation before [out]. *)
Fixpoint concat_spaces (n : nat) (out : string) : string :=
  match n with
  | O => out
  | S n' => String " "%char (concat_spaces n' out)
  end.

(** Modelled from the spec: the writer walks the elements; [String(s)]
    appends [s], [NewLine(i)] emits a line feed and then [i] spaces
    (section 4.9).  [Console.PrintLayout] is in [support]. *)
Definition PrintLayout (layout : Layout) : string :=
  foldr (λ e out,
           match e with
           | LayoutElement.String s => s +:+ out
           | LayoutElement.NewLine i =>
               String "010"%char
                 (concat_spaces (Z.to_nat i) out)
           end) "" layout.

(** [LayoutBlock.PrintOn] ([base.py], lines 121-131); the stream is the
    text written so far. *)
Definition PrintOn (fuel : nat) (self : LayoutBlock) (options : Options)
    (outp : string) : M string :=
  soln ← OptLayout fuel self None options;
  match soln with
  | Some soln =>
      layout ← getitem (layouts soln) 0;
      mret (outp +:+ PrintLayout layout)
  | None => mret outp
  end.

(** [LayoutBlock.Render] ([base.py], lines 136-139). *)
Definition Render (fuel : nat) (self : LayoutBlock) (options : Options)
  : M string :=
  PrintOn fuel self options "".

(** ** The rest of the block classes *)

(** [s * n] for a string [s]: no copy when [n] is not positive. *)
Fixpoint str_repeat (s : string) (n : nat) : string :=
  match n with
  | O => ""
  | S n' => s +:+ str_repeat s n'
  end.

Definition str_mul (s : string) (n : Z) : string := str_repeat s (Z.to_nat n).

(** [s[:n]] and [s[-n:]] for a positive [n]. *)
Definition str_prefix (n : nat) (s : string) : string := substring 0 n s.
Definition str_suffix (n : nat) (s : string) : string :=
  substring (String.length s - n) n s.

(** [VerbBlock.__repr__] ([blocks.py], lines 330-331). *)
Definition VerbBlock_repr (lines : list string) : M string :=
  first ← getitem lines 0;
  final ← getitem_last lines;
  mret (str_prefix 3 first +:+ "..." +:+ str_suffix 3 final).

(** [extended]: the constructor of the class of [self] on the old elements
    followed by the new ones ([LineBlock], [blocks.py], lines 125-126;
    [StackBlock], lines 189-192; [WrapBlock], lines 236-241;
    [JoinedLineBlock], [extras.py], lines 104-105).  [WrapBlock.extended]
    hands on [break_mult] and [prefix], and [JoinedLineBlock.extended] hands
    on [joiner]: the arguments that are not handed on take their defaults.
    The other classes have no such method. *)
Definition extended (self : LayoutBlock) (new_elements : list PyObject)
  : M LayoutBlock :=
  match self with
  | LineBlock _ _ elements =>
      LineBlock_new ((PyBlock <$> elements) ++ new_elements)
  | StackBlock _ _ elements break_mult =>
      StackBlock_new ((PyBlock <$> elements) ++ new_elements) break_mult
  | WrapBlock _ _ elements _ break_mult prefix =>
      WrapBlock_new ((PyBlock <$> elements) ++ new_elements) " " break_mult
                    prefix
  | JoinedLineBlock _ _ elements joiner _ =>
      JoinedLineBlock_new ((PyBlock <$> elements) ++ new_elements) joiner false
  | TextBlock _ _ _ | VerbBlock _ _ _ _ | ChoiceBlock _ _ _ =>
      raise AttributeError
  end.

(** [indented] ([extras.py], lines 34-36). *)
Definition indented (content : LayoutBlock) (indent : Z) : M LayoutBlock :=
  spaces ← TextBlock_new (str_mul " " indent) false;
  LineBlock_new [PyBlock spaces; PyBlock content].

(** [filter(None, xs)] on a list of blocks and [None]s: a block is true in
    a boolean context. *)
Definition filter_None (xs : list (option LayoutBlock)) : list PyObject :=
  PyBlock <$> omap id xs.

(** [optionally_indented] ([extras.py], lines 39-58). *)
Definition optionally_indented (prefix content suffix : option LayoutBlock)
    (indent : Z) : M LayoutBlock :=
  content_block ← match content with
                  | Some c => mret c
                  | None => TextBlock_new "" false
                  end;
  inner ← indented content_block indent;
  stack ← StackBlock_new (filter_None [prefix; Some inner; suffix]) 1%Qc;
  line ← LineBlock_new (filter_None [prefix; content; suffix]);
  ChoiceBlock_new [PyBlock stack; PyBlock line].

(** [isinstance(element, CompositeLayoutBlock)], with the elements. *)
Definition composite_elements (element : LayoutBlock)
  : option (list LayoutBlock) :=
  match element with
  | LineBlock _ _ es | ChoiceBlock _ _ es | StackBlock _ _ es _
  | WrapBlock _ _ es _ _ _ | JoinedLineBlock _ _ es _ _ => Some es
  | TextBlock _ _ _ | VerbBlock _ _ _ _ => None
  end.

(** [get_start] ([extras.py], lines 247-250). *)
Fixpoint get_start (element : LayoutBlock) : M LayoutBlock :=
  match element with
  | LineBlock _ _ es | ChoiceBlock _ _ es | StackBlock _ _ es _
  | WrapBlock _ _ es _ _ _ | JoinedLineBlock _ _ es _ _ =>
      match es with
      | e :: _ => get_start e
      | [] => raise IndexError
      end
  | TextBlock _ _ _ | VerbBlock _ _ _ _ => mret element
  end.

(** [getattr(block, "text", "")]: only a [TextBlock] has the attribute. *)
Definition text_or_empty (block : LayoutBlock) : string :=
  match block with
  | TextBlock _ _ text => text
  | _ => ""
  end.

(** [get_start_text] ([extras.py], lines 253-254). *)
Definition get_start_text (element : LayoutBlock) : M string :=
  b ← get_start element; mret (text_or_empty b).

(** [get_end] ([extras.py], lines 257-260): on a composite block it is
    [get_start] that is called on the last element. *)
Definition get_end (element : LayoutBlock) : M LayoutBlock :=
  match composite_elements element with
  | Some es => e ← getitem_last es; get_start e
  | None => mret element
  end.

(** [get_end_text] ([extras.py], lines 263-264). *)
Definition get_end_text (element : LayoutBlock) : M string :=
  b ← get_end element; mret (text_or_empty b).

(** The groups of [_ConditionalJoinedLineBlock.CompositeOptLayout]
    ([extras.py], lines 163-171); [no_space_left] and [no_space_right] are
    containers of strings, given by their membership test. *)
Definition conditional_groups (no_space_left no_space_right : string → bool)
    (elements : list LayoutBlock) : M (list (list LayoutBlock)) :=
  first ← getitem elements 0;
  st ← for_ (drop 1 elements)
    (λ element '(result, end_),
       start ← get_start_text element;
       let result :=
         if no_space_left start || no_space_right end_
         then alter (λ g, g ++ [element]) (length result - 1)%nat result
         else result ++ [[element]] in
       end_ ← get_end_text element;
       mret (result, end_))
    ([[first]], "");
  mret st.1.

Section Shortcut.
Variable rec : LayoutBlock → option Solution → Options → M (option Solution).

(** [CompositeShortcutMixin.DoOptLayout] ([extras.py], lines 77-86) for a
    class with the given [CompositeOptLayout]. *)
Definition CompositeShortcutMixin_DoOptLayout (elements : list LayoutBlock)
    (CompositeOptLayout : option Solution → Options → M (option Solution))
    (rest_of_line : option Solution) (options : Options)
  : M (option Solution) :=
  match elements with
  | [] => empty ← TextBlock_new "" false; rec empty rest_of_line options
  | [e] => rec e rest_of_line options
  | _ => CompositeOptLayout rest_of_line options
  end.

(** [_ConditionalJoinedLineBlock.CompositeOptLayout] ([extras.py], lines
    160-175). *)
Definition _ConditionalJoinedLineBlock_CompositeOptLayout
    (elements : list LayoutBlock) (joiner : string)
    (no_space_left no_space_right : string → bool)
    (rest_of_line : option Solution) (options : Options)
  : M (option Solution) :=
  result ← conditional_groups no_space_left no_space_right elements;
  lines ← mapM (λ x, LineBlock_new (PyBlock <$> x)) result;
  block ← JoinedLineBlock_new (PyBlock <$> lines) (inl joiner) false;
  rec block rest_of_line options.

(** [_JoinedStackBlock.CompositeOptLayout] ([extras.py], lines 197-204). *)
Definition _JoinedStackBlock_CompositeOptLayout (elements : list LayoutBlock)
    (self_joiner : string + LayoutBlock) (break_mult : Qc)
    (rest_of_line : option Solution) (options : Options)
  : M (option Solution) :=
  joiner ← match self_joiner with
           | inl s => TextBlock_new s false
           | inr b => mret b
           end;
  first ← mapM (λ x, LineBlock_new [PyBlock x; PyBlock joiner])
               (but_last elements);
  final ← getitem_last elements;
  block ← StackBlock_new (PyBlock <$> (first ++ [final])) break_mult;
  rec block rest_of_line options.

(** [_WrapIfLongBlock.CompositeOptLayout] ([extras.py], lines 232-244). *)
Definition _WrapIfLongBlock_CompositeOptLayout (elements : list LayoutBlock)
    (sep : string) (break_mult : Qc) (prefix : option string) (wrap_len : Z)
    (rest_of_line : option Solution) (options : Options)
  : M (option Solution) :=
  block ← (if wrap_len <=? Z.of_nat (length elements)
           then WrapBlock_new (PyBlock <$> elements) sep break_mult prefix
           else
             joiner ← TextBlock_new sep false;
             JoinedLineBlock_new (PyBlock <$> elements) (inr joiner) false);
  rec block rest_of_line options.
End Shortcut.

(** * Notions used to state the properties *)

(** The elements of a [WrapBlock] with what the dynamic program needs of
    them: [is_breaking] and the solution against [None]. *)
Definition paired (elements : list LayoutBlock) (sols : list Solution)
  : list (bool * Solution) :=
  zip (is_breaking <$> elements) sols.

(** [x < 0] and [x >= 0] on floats, as propositions: neither holds of
    NaN. *)
Definition negative (x : pyfloat) : Prop :=
  match x with
  | Finite q => (q < 0)%Qc
  | NegInf => True
  | PosInf | NaN => False
  end.

Definition nonnegative (x : pyfloat) : Prop :=
  match x with
  | Finite q => (0 ≤ q)%Qc
  | PosInf => True
  | NegInf | NaN => False
  end.

(** The invariants of section 3.1, negated. *)
Definition violates (m0 : Z) (m0c : pyfloat) (m1 : Z)
    (m1c bc lpc : pyfloat) : Prop :=
  m0 < 0 ∨ m1 < m0 ∨ negative m0c ∨ negative m1c ∨ negative bc
  ∨ negative lpc.

(** The six conditions that [Check] asserts. *)
Definition satisfies (m0 : Z) (m0c : pyfloat) (m1 : Z)
    (m1c bc lpc : pyfloat) : Prop :=
  0 ≤ m0 ∧ m0 ≤ m1 ∧ nonnegative m0c ∧ nonnegative m1c ∧ nonnegative bc
  ∧ nonnegative lpc.

(** The cost that section 4.2 gives for the one-knot case. *)
Definition one_knot_cost (span : Z) (options : Options) : Qc :=
  (Qc_of_Z (span - margin_0 options) * margin_0_cost options
   + Qc_of_Z (span - margin_1 options) * margin_1_cost options)%Qc.

(** [Options(margin_1=3)]: every other field at its default. *)
Definition options_margin_1_3 : Options :=
  MkOptions 0 (Q2Qc (5 # 100)) 3 (Q2Qc 100) (Q2Qc 2) (Q2Qc (1 # 1000)) None.

(** The five composite classes with the arguments of their constructors
    other than the elements. *)
Inductive composite_kind :=
| KLine
| KChoice
| KStack (break_mult : Qc)
| KWrap (sep : string) (break_mult : Qc) (prefix : option string)
| KJoinedLine (joiner : string + LayoutBlock) (join_breaking : bool).

(** The constructor of the given class applied to [elements]. *)
Definition construct (k : composite_kind) (elements : list PyObject)
  : M LayoutBlock :=
  match k with
  | KLine => LineBlock_new elements
  | KChoice => ChoiceBlock_new elements
  | KStack break_mult => StackBlock_new elements break_mult
  | KWrap sep break_mult prefix => WrapBlock_new elements sep break_mult prefix
  | KJoinedLine joiner join_breaking =>
      JoinedLineBlock_new elements joiner join_breaking
  end.

(** [isinstance(x, LayoutBlock)] *)
Definition is_block (x : PyObject) : bool :=
  match x with PyBlock _ => true | PyOther _ => false end.

(** The heap after a constructor raised: the object was allocated with an
    empty memo, and no memo of another object changed. *)
Definition allocated (h : heap) : heap := (new_object h).2.

(** The joiner goes after every element but the last, unless the element is
    breaking and [join_breaking] is off; nothing else about the element is
    looked at. *)
Fixpoint interleave (elements : list LayoutBlock) (joiner : LayoutBlock)
    (join_breaking : bool) : list LayoutBlock :=
  match elements with
  | [] => []
  | e :: es =>
      match es with
      | [] => [e]
      | _ =>
          e :: (if negb (is_breaking e) || join_breaking then [joiner] else [])
            ++ interleave es joiner join_breaking
      end
  end.

(** The joiner as a block: line 117 wraps a string in a new [TextBlock]. *)
Definition joiner_block (joiner : string + LayoutBlock) : M LayoutBlock :=
  match joiner with
  | inl s => TextBlock_new s false
  | inr b => mret b
  end.

(** The continuation that child [i] of [n] children faces. *)
Definition faces (n i : nat) (rest_of_line : option Solution)
  : option Solution :=
  if bool_decide (i = (n - 1)%nat) then rest_of_line else None.

(** The children of a stack solved in order, each against the continuation
    it faces. *)
Definition stack_children
    (rec : LayoutBlock → option Solution → Options → M (option Solution))
    (elements : list LayoutBlock) (rest_of_line : option Solution)
    (options : Options) : M (list (option Solution)) :=
  mapM (λ '(i, e), rec e (faces (length elements) i rest_of_line) options)
       (enumerate elements).

(** Section 4.4 in the model's terms. *)
Definition stack_layout
    (rec : LayoutBlock → option Solution → Options → M (option Solution))
    (elements : list LayoutBlock) (break_mult : Qc)
    (rest_of_line : option Solution) (options : Options)
  : M (option Solution) :=
  solns ← stack_children rec elements rest_of_line options;
  solns ← mapM deref solns;
  vsum ← deref (VSumSolution solns);
  mret (Some (PlusConst vsum
    (break_cost options * break_mult
     * Qc_of_Z (Z.max 0 (Z.of_nat (length elements) - 1)))%Qc)).

(** The children split after each child that is breaking and not the last. *)
Fixpoint element_lines_of (elements : list LayoutBlock)
  : list (list LayoutBlock) :=
  match elements with
  | [] => [[]]
  | e :: es =>
      match es with
      | [] => [[e]]
      | _ =>
          if is_breaking e then [e] :: element_lines_of es
          else match element_lines_of es with
               | ln :: lns => (e :: ln) :: lns
               | [] => [[e]]
               end
      end
  end.

(** The hook of the options, applied as line 142 applies it. *)
Definition rearranged (options : Options) (lines : list (list LayoutBlock))
  : list (list LayoutBlock) :=
  match break_element_lines options with
  | Some hook => if (1 <? length lines)%nat then hook lines else lines
  | None => lines
  end.

(** One element-line folded from the right: the last child is solved
    against the continuation [k], each earlier child against the solution
    of what follows it. *)
Fixpoint line_fold
    (rec : LayoutBlock → option Solution → Options → M (option Solution))
    (ln : list LayoutBlock) (k : option Solution) (options : Options)
  : M (option Solution) :=
  match ln with
  | [] => mret k
  | e :: ln' => s ← line_fold rec ln' k options; rec e s options
  end.

(** The layout of the given element-lines: only the last one faces
    [rest_of_line]; the lines that have a solution are summed vertically and
    every line after the first costs one break. *)
Definition lines_layout
    (rec : LayoutBlock → option Solution → Options → M (option Solution))
    (lines : list (list LayoutBlock)) (rest_of_line : option Solution)
    (options : Options) : M (option Solution) :=
  solns ← mapM (λ '(i, ln),
                  line_fold rec ln (faces (length lines) i rest_of_line)
                            options)
               (enumerate lines);
  vsum ← deref (VSumSolution (omap id solns));
  mret (Some (PlusConst vsum
    (break_cost options * Qc_of_Z (Z.of_nat (length lines) - 1))%Qc)).

Definition glue {A} (cur : list A) (lns : list (list A)) : list (list A) :=
  match lns with
  | ln :: r => (cur ++ ln) :: r
  | [] => [cur]
  end.

(** A hook that puts all the element-lines back on one line. *)
Definition one_line_hook (lines : list (list LayoutBlock))
  : list (list LayoutBlock) :=
  [concat lines].

(** The default options with that hook. *)
Definition options_one_line : Options :=
  MkOptions 0 (Q2Qc (5 # 100)) 80 (Q2Qc 100) (Q2Qc 2) (Q2Qc (1 # 1000))
            (Some one_line_hook).

(** [Options()] with every field at its default. *)
Definition default_options : Options :=
  MkOptions 0 (Q2Qc (5 # 100)) 80 (Q2Qc 100) (Q2Qc 2) (Q2Qc (1 # 1000)) None.

(** A heap in which the objects 1, 2 and 3 exist and nothing is memoised. *)
Definition fresh_heap : heap := MkHeap ∅ 4%positive.

Definition text_a : LayoutBlock := TextBlock 1%positive false "a".
Definition text_empty : LayoutBlock := TextBlock 2%positive false "".
Definition text_b : LayoutBlock := TextBlock 3%positive true "b".

Section WrapSpec.
Variables (break_mult : Qc) (rest_of_line : option Solution).
Variables (options : Options) (sep : Solution) (prefix : option Solution).

(** A line that starts with one element, after the prefix when there is
    one. *)
Definition line_start (s : Solution) : Solution :=
  match prefix with
  | None => s
  | Some p => WithRestOfLine p (Some s)
  end.

(** The line with the separator and one more element at its end. *)
Definition line_extend (line s : Solution) : Solution :=
  WithRestOfLine line (Some (WithRestOfLine sep (Some s))).

(** The line followed, after a break, by the best layout [tail] of the
    elements after it; [remaining] is [n - j] when the line ends with
    element [j]. *)
Definition broken_after (line tail : Solution) (remaining : nat) : Solution :=
  PlusConst (vsum line [tail])
            (break_cost options * break_mult
             + late_pack_cost options * Qc_of_Z (Z.of_nat remaining))%Qc.

(** The candidates for [wrap[i]].  [line] holds the elements [i..j],
    [breaking] tells whether element [j] mandates a break, [upcoming] are
    the elements after [j] (their [is_breaking] and their solutions) and
    [wraps] the entries [wrap[j+1]], [wrap[j+2]], ...  As long as an
    element follows, the line can be broken after [j]; it is extended past
    [j] only when [j] is not breaking; when no element is left, the line
    takes the continuation. *)
Fixpoint candidates (line : Solution) (breaking : bool)
    (upcoming : list (bool * Solution)) (wraps : list Solution)
  : list Solution :=
  match upcoming, wraps with
  | (b, s) :: upcoming', w :: wraps' =>
      broken_after line w (S (length upcoming))
      :: (if breaking then []
          else candidates (line_extend line s) b upcoming' wraps')
  | _, _ => [WithRestOfLine line rest_of_line]
  end.

(** [wrap[i], wrap[i+1], ..., wrap[n-1]] for the elements [i..n-1] given
    with their [is_breaking] and their solutions: each entry is the minimum
    of its candidates. *)
Fixpoint wrap_table (items : list (bool * Solution)) : list Solution :=
  match items with
  | [] => []
  | (b, s) :: later =>
      let wraps := wrap_table later in
      lower_envelope (candidates (line_start s) b later wraps) :: wraps
  end.
End WrapSpec.

(** The solution of the prefix text, when a prefix is set (a non-empty
    string), and the heap after line 255, which creates a block for it. *)
Definition wrap_prefix (prefix : option string) (options : Options)
  : option Solution :=
  match prefix with
  | Some (String a p) => Some (TextBlock_DoOptLayout (String a p) None options)
  | _ => None
  end.

Definition after_prefix (prefix : option string) (h : heap) : heap :=
  match prefix with
  | Some (String _ _) => allocated h
  | _ => h
  end.

(** The part of the invariants of section 3.4 that rendering relies on: the
    five sequences have the same length, the first knot is 0 and every
    later knot is positive. *)
Definition sol_ok (s : Solution) : Prop :=
  (∃ ks, knots s = 0 :: ks ∧ Forall (λ k, 0 < k) ks)
  ∧ length (spans s) = length (knots s)
  ∧ length (intercepts s) = length (knots s)
  ∧ length (gradients s) = length (knots s)
  ∧ length (layouts s) = length (knots s).

Definition pieces_ok (ps : list piece) : Prop :=
  ∃ p ps', ps = p :: ps' ∧ p_knot p = 0 ∧ Forall (λ q, 0 < p_knot q) ps'.

(** The options that [Options.Check] accepts. *)
Definition valid_options (o : Options) : Prop :=
  0 ≤ margin_0 o ∧ margin_0 o ≤ margin_1 o
  ∧ (0 ≤ margin_0_cost o)%Qc ∧ (0 ≤ margin_1_cost o)%Qc
  ∧ (0 ≤ break_cost o)%Qc ∧ (0 ≤ late_pack_cost o)%Qc.

(** The solution of a [VerbBlock] with the given layout: a knot at 0 with
    no cost when [margin_0] is positive, then the knots at the two
    margins. *)
Definition verb_solution (options : Options) (layout : Layout) : Solution :=
  of_pieces
    ((if 0 <? margin_0 options then [Piece 0 0 0%Qc 0%Qc layout] else [])
     ++ [Piece (margin_0 options - 0) 0 0%Qc (margin_0_cost options) layout;
         Piece (margin_1 options - 0) 0
               (Qc_of_Z (margin_1 options - margin_0 options)
                * margin_0_cost options)%Qc
               (margin_0_cost options + margin_1_cost options)%Qc layout]).

(** A value that is a well-formed solution, and a continuation that is
    well-formed when there is one. *)
Definition ok_value (v : option Solution) : Prop := ∃ s, v = Some s ∧ sol_ok s.
Definition ok_rest (v : option Solution) : Prop := ∀ s, v = Some s → sol_ok s.

(** Every memoised value is a well-formed solution. *)
Definition heap_ok (h : heap) : Prop :=
  ∀ o c key v, caches h !! o = Some c → c !! key = Some v → ok_value v.

(** Partial correctness in the monad: from a good heap, a returned value
    satisfies [Q] and the heap is good again. *)
Definition safe {A} (m : M A) (Q : A → Prop) : Prop :=
  ∀ h a h', heap_ok h → m h = (Ok a, h') → Q a ∧ heap_ok h'.

(** The blocks that the constructors build: a composite block has at least
    one element. *)
Inductive wf_block : LayoutBlock → Prop :=
| wf_TextBlock o br text : wf_block (TextBlock o br text)
| wf_VerbBlock o br lines first_nl : wf_block (VerbBlock o br lines first_nl)
| wf_LineBlock o br es :
    es ≠ [] → Forall wf_block es → wf_block (LineBlock o br es)
| wf_ChoiceBlock o br es :
    es ≠ [] → Forall wf_block es → wf_block (ChoiceBlock o br es)
| wf_StackBlock o br es break_mult :
    es ≠ [] → Forall wf_block es → wf_block (StackBlock o br es break_mult)
| wf_WrapBlock o br es sep break_mult prefix :
    es ≠ [] → Forall wf_block es →
    wf_block (WrapBlock o br es sep break_mult prefix)
| wf_JoinedLineBlock o br es joiner join_breaking :
    es ≠ [] → Forall wf_block es →
    (∀ b, joiner = inr b → wf_block b) →
    wf_block (JoinedLineBlock o br es joiner join_breaking).

(** A hook for the element-lines hands back well-formed blocks. *)
Definition hook_ok (options : Options) : Prop :=
  ∀ hook lines, break_element_lines options = Some hook →
    Forall (Forall wf_block) lines → Forall (Forall wf_block) (hook lines).

(** What [PrintOn] writes, from the outcome of [OptLayout]. *)
Definition printed (outp : string) (r : outcome (option Solution))
  : outcome string :=
  match r with
  | Ok (Some soln) =>
      match layouts soln !! 0%nat with
      | Some layout => Ok (outp +:+ PrintLayout layout)
      | None => Raise IndexError
      end
  | Ok None => Ok outp
  | Raise e => Raise e
  | OutOfFuel => OutOfFuel
  end.

(** Nesting depth of a block tree; a [JoinedLineBlock] counts for two
    levels, its [DoOptLayout] building a [LineBlock] around its elements. *)
Fixpoint depth (b : LayoutBlock) : nat :=
  match b with
  | TextBlock _ _ _ | VerbBlock _ _ _ _ => 0
  | LineBlock _ _ es | ChoiceBlock _ _ es | StackBlock _ _ es _
  | WrapBlock _ _ es _ _ _ =>
      S (foldr (λ e acc, depth e `max` acc) 0 es)%nat
  | JoinedLineBlock _ _ es joiner _ =>
      S (S ((foldr (λ e acc, depth e `max` acc) 0 es)
            `max` match joiner with inr j => depth j | inl _ => 0 end))%nat
  end.

Definition max_depth (es : list LayoutBlock) : nat :=
  foldr (λ e acc, depth e `max` acc)%nat 0%nat es.

(** The call does not use up the recursion budget of the model. *)
Definition returns {A} (m : M A) : Prop := ∀ h, (m h).1 ≠ OutOfFuel.

(** *** The scenarios of [tests/test_blocks.py] *)

(** A heap without objects. *)
Definition empty_heap : heap := MkHeap ∅ 1%positive.

Definition nl : string := String "010"%char "".

(** [TextBlock(text, is_breaking=is_breaking).Render(OPTS)] *)
Definition test_text_block_basic (text : string) (is_breaking : bool)
  : M string :=
  block ← TextBlock_new text is_breaking;
  Render 1 block default_options.

(** [JoinedLineBlock([TextBlock("hello", is_breaking=True),
    TextBlock("world"), TextBlock("!")]).Render(OPTS)] *)
Definition test_joined_line_block : M string :=
  hello ← TextBlock_new "hello" true;
  world ← TextBlock_new "world" false;
  bang ← TextBlock_new "!" false;
  block ← JoinedLineBlock_new [PyBlock hello; PyBlock world; PyBlock bang]
                              (inl " ") false;
  Render 3 block default_options.

(** [StackBlock([TextBlock("hello"), TextBlock("world"),
    TextBlock("!")]).Render(OPTS)] *)
Definition test_stack_block_basic : M string :=
  hello ← TextBlock_new "hello" false;
  world ← TextBlock_new "world" false;
  bang ← TextBlock_new "!" false;
  block ← StackBlock_new [PyBlock hello; PyBlock world; PyBlock bang] 1%Qc;
  Render 2 block default_options.

(** [ChoiceBlock([JoinedLineBlock(elements),
    StackBlock(elements)]).Render(options)] *)
Definition test_choice_block (options : Options) : M string :=
  hello ← TextBlock_new "hello" false;
  beautiful ← TextBlock_new "beautiful" false;
  world ← TextBlock_new "world" false;
  bang ← TextBlock_new "!" false;
  let elements :=
    [PyBlock hello; PyBlock beautiful; PyBlock world; PyBlock bang] in
  joined ← JoinedLineBlock_new elements (inl " ") false;
  stack ← StackBlock_new elements 1%Qc;
  block ← ChoiceBlock_new [PyBlock joined; PyBlock stack];
  Render 4 block options.

(** [JoinedLineBlock([TextBlock("a"), TextBlock(""),
    TextBlock("b")]).Render(OPTS)] *)
Definition joined_around_empty_text : M string :=
  a ← TextBlock_new "a" false;
  empty ← TextBlock_new "" false;
  b ← TextBlock_new "b" false;
  block ← JoinedLineBlock_new [PyBlock a; PyBlock empty; PyBlock b]
                              (inl " ") false;
  Render 3 block default_options.

(** [Options(margin_0=105, margin_1=125)] and [Options(margin_1=10)] *)
Definition options_105_125 : Options :=
  MkOptions 105 (Q2Qc (5 # 100)) 125 (Q2Qc 100) (Q2Qc 2) (Q2Qc (1 # 1000))
            None.

Definition options_margin_1_10 : Options :=
  MkOptions 0 (Q2Qc (5 # 100)) 10 (Q2Qc 100) (Q2Qc 2) (Q2Qc (1 # 1000)) None.

(** *** Notions for the further properties *)

(** The block that the constructor of class [k] builds from the blocks
    [elements]: it is breaking when its last element is. *)
Definition built (k : composite_kind) (self : oid)
    (elements : list LayoutBlock) : LayoutBlock :=
  let br := match last elements with
            | Some e => is_breaking e
            | None => false
            end in
  match k with
  | KLine => LineBlock self br elements
  | KChoice => ChoiceBlock self br elements
  | KStack break_mult => StackBlock self br elements break_mult
  | KWrap sep break_mult prefix =>
      WrapBlock self br elements sep break_mult prefix
  | KJoinedLine joiner join_breaking =>
      JoinedLineBlock self br elements joiner join_breaking
  end.

(** The leaves of a block tree from left to right: the blocks that are not
    composite. *)
Fixpoint leaves (b : LayoutBlock) : list LayoutBlock :=
  match b with
  | LineBlock _ _ es | ChoiceBlock _ _ es | StackBlock _ _ es _
  | WrapBlock _ _ es _ _ _ | JoinedLineBlock _ _ es _ _ =>
      concat (leaves <$> es)
  | TextBlock _ _ _ | VerbBlock _ _ _ _ => [b]
  end.

(** [sep.join(ls)] *)
Definition str_join (sep : string) (ls : list string) : string :=
  String.concat sep ls.

(** The heap [h'] extends the heap [h]: no identity of [h] is given out
    again, and what is memoised in [h] for an object of [h] is memoised in
    [h'] with the same value. *)
Definition heap_le (h h' : heap) : Prop :=
  (next_oid h ≤ next_oid h')%positive
  ∧ ∀ o key v, (o < next_oid h)%positive →
      default ∅ (caches h !! o) !! key = Some v →
      default ∅ (caches h' !! o) !! key = Some v.

(** Whatever its outcome, the call extends the heap. *)
Definition keeps {A} (m : M A) : Prop :=
  ∀ h r h', m h = (r, h') → heap_le h h'.

(** Total correctness in the monad: from a good heap the call returns, its
    value satisfies [Q] and the heap is good again. *)
Definition total {A} (m : M A) (Q : A → Prop) : Prop :=
  ∀ h, heap_ok h → ∃ a h', m h = (Ok a, h') ∧ Q a ∧ heap_ok h'.

(** Each element of the list is related to the next one. *)
Fixpoint ascending {A} (R : A → A → Prop) (l : list A) : Prop :=
  match l with
  | x :: l' =>
      match l' with
      | y :: _ => R x y ∧ ascending R l'
      | [] => True
      end
  | [] => True
  end.

(** * Properties *)

(** ** Running monadic code *)

Lemma run_bind {A B} (m : M A) (f : A → M B) (h : heap) :
  (m ≫= f) h = match m h with
               | (Ok a, h') => f a h'
               | (Raise e, h') => (Raise e, h')
               | (OutOfFuel, h') => (OutOfFuel, h')
               end.
Proof. reflexivity. Qed.

Lemma run_bind_ok {A B} (m : M A) (f : A → M B) (h h' : heap) (a : A) :
  m h = (Ok a, h') → (m ≫= f) h = f a h'.
Proof. intros E. rewrite run_bind, E. reflexivity. Qed.

Lemma run_ret {A} (a : A) (h : heap) : (mret a : M A) h = (Ok a, h).
Proof. reflexivity. Qed.

(** One step of evaluation wherever the goal shows a bind or a return
    applied to a heap. *)
Ltac mred :=
  repeat first [rewrite run_bind | rewrite run_ret]; cbn beta iota.

(** Inversion of a bind that returned. *)
Lemma bind_ok_inv {A B} (m : M A) (f : A → M B) (h h2 : heap) (b : B) :
  (m ≫= f) h = (Ok b, h2) →
  ∃ a h1, m h = (Ok a, h1) ∧ f a h1 = (Ok b, h2).
Proof.
  rewrite run_bind. destruct (m h) as [[a| |] h1]; try discriminate.
  intros E. exists a, h1. split; [reflexivity | exact E].
Qed.

(** ** Options *)

Lemma float_nonneg_spec (x : pyfloat) :
  float_nonneg x = true ↔ nonnegative x.
Proof.
  destruct x as [q| | |]; cbn; [apply bool_decide_eq_true | | |];
    split; intros H; try done.
Qed.

(** A float that is not NaN is negative or not negative. *)
Lemma negative_or_nonnegative (x : pyfloat) :
  x ≠ NaN → (negative x ↔ ¬ nonnegative x).
Proof.
  intros Hx. destruct x as [q| | |]; cbn; [| tauto | tauto | done].
  split.
  - intros Hlt Hle. exact (Qclt_not_le _ _ Hlt Hle).
  - apply Qcnot_le_lt.
Qed.

Lemma Check_spec (o : OptionsFields) (h : heap) :
  ¬ satisfies (f_margin_0 o) (f_margin_0_cost o) (f_margin_1 o)
              (f_margin_1_cost o) (f_break_cost o) (f_late_pack_cost o)
  ∧ Check o h = (Raise ValueError, h)
  ∨ satisfies (f_margin_0 o) (f_margin_0_cost o) (f_margin_1 o)
              (f_margin_1_cost o) (f_break_cost o) (f_late_pack_cost o)
  ∧ Check o h = (Ok (), h).
Proof.
  unfold Check, satisfies.
  destruct (0 <=? f_margin_0 o) eqn:E0; simpl;
    [apply Z.leb_le in E0 | apply Z.leb_gt in E0; left; split; [lia | done]].
  destruct (f_margin_0 o <=? f_margin_1 o) eqn:E1; simpl;
    [apply Z.leb_le in E1 | apply Z.leb_gt in E1; left; split; [lia | done]].
  destruct (float_nonneg (f_margin_0_cost o)) eqn:E2; simpl;
    [ apply float_nonneg_spec in E2
    | left; split; [| done]; rewrite <- !float_nonneg_spec, E2;
      intros (_ & _ & H & _); discriminate ].
  destruct (float_nonneg (f_margin_1_cost o)) eqn:E3; simpl;
    [ apply float_nonneg_spec in E3
    | left; split; [| done]; rewrite <- !float_nonneg_spec, E3;
      intros (_ & _ & _ & H & _); discriminate ].
  destruct (float_nonneg (f_break_cost o)) eqn:E4; simpl;
    [ apply float_nonneg_spec in E4
    | left; split; [| done]; rewrite <- !float_nonneg_spec, E4;
      intros (_ & _ & _ & _ & H & _); discriminate ].
  destruct (float_nonneg (f_late_pack_cost o)) eqn:E5; simpl;
    [ apply float_nonneg_spec in E5
    | left; split; [| done]; rewrite <- !float_nonneg_spec, E5;
      intros (_ & _ & _ & _ & _ & H); discriminate ].
  right. split; [| done]. tauto.
Qed.

(** C7.  Constructing an [Options] value raises (a [ValueError]) exactly
    when one of the six conditions that [Check] asserts is not satisfied:
    [margin_0 >= 0], [margin_1 >= margin_0] and [cost >= 0] for each of
    the four costs; when all are satisfied the construction returns the
    value with its fields as given.  As long as no cost is NaN a condition
    is not satisfied exactly when the invariant is violated:
    [margin_0 < 0], or [margin_1 < margin_0], or a cost is negative. *)
Theorem C7_options_construction (m0 : Z) (m0c : pyfloat) (m1 : Z)
    (m1c bc lpc : pyfloat)
    (hook : option (list (list LayoutBlock) → list (list LayoutBlock)))
    (h : heap) :
  (¬ satisfies m0 m0c m1 m1c bc lpc
   ↔ Options_new m0 m0c m1 m1c bc lpc hook h = (Raise ValueError, h))
  ∧ (satisfies m0 m0c m1 m1c bc lpc
     ↔ Options_new m0 m0c m1 m1c bc lpc hook h
       = (Ok (MkOptionsFields m0 m0c m1 m1c bc lpc hook), h))
  ∧ (m0c ≠ NaN → m1c ≠ NaN → bc ≠ NaN → lpc ≠ NaN →
     (violates m0 m0c m1 m1c bc lpc ↔ ¬ satisfies m0 m0c m1 m1c bc lpc)).
Proof.
  split; [| split].
  - unfold Options_new. rewrite run_bind.
    destruct (Check_spec (MkOptionsFields m0 m0c m1 m1c bc lpc hook) h)
      as [[V E]|[V E]]; simpl in V; rewrite E; simpl.
    + split; intros; done.
    + split; intros; [tauto | discriminate].
  - unfold Options_new. rewrite run_bind.
    destruct (Check_spec (MkOptionsFields m0 m0c m1 m1c bc lpc hook) h)
      as [[V E]|[V E]]; simpl in V; rewrite E; simpl.
    + split; intros; [tauto | discriminate].
    + split; intros; done.
  - intros H1 H2 H3 H4. unfold violates, satisfies.
    rewrite (negative_or_nonnegative m0c H1),
      (negative_or_nonnegative m1c H2), (negative_or_nonnegative bc H3),
      (negative_or_nonnegative lpc H4).
    split.
    + intros [H|[H|[H|[H|[H|H]]]]] (A & B & C & D & E & F);
        try lia; contradiction.
    + intros Hn.
      destruct (Z_lt_le_dec m0 0) as [|A]; [tauto|].
      destruct (Z_lt_le_dec m1 m0) as [|B]; [tauto|].
      do 2 right.
      destruct (float_nonneg m0c) eqn:E1;
        [apply float_nonneg_spec in E1
        |left; rewrite <- float_nonneg_spec, E1; discriminate].
      destruct (float_nonneg m1c) eqn:E2;
        [apply float_nonneg_spec in E2
        |right; left; rewrite <- float_nonneg_spec, E2; discriminate].
      destruct (float_nonneg bc) eqn:E3;
        [apply float_nonneg_spec in E3
        |do 2 right; left; rewrite <- float_nonneg_spec, E3; discriminate].
      destruct (float_nonneg lpc) eqn:E4;
        [apply float_nonneg_spec in E4
        |do 3 right; rewrite <- float_nonneg_spec, E4; discriminate].
      exfalso. apply Hn. repeat split; assumption.
Qed.

(** C7 as stated fails: [Options(margin_0_cost=float("nan"))] raises
    [ValueError], the assertion [margin_0_cost >= 0] being false of NaN,
    although [margin_0 < 0], [margin_1 < margin_0] and [cost < 0] are all
    false: no invariant is violated in the sense of the claim. *)
Lemma C7_nan_cost_is_refused :
  ¬ (∀ (m0 : Z) (m0c : pyfloat) (m1 : Z) (m1c bc lpc : pyfloat)
       (hook : option (list (list LayoutBlock) → list (list LayoutBlock)))
       (h : heap),
       (violates m0 m0c m1 m1c bc lpc
        ↔ Options_new m0 m0c m1 m1c bc lpc hook h = (Raise ValueError, h))
       ∧ (¬ violates m0 m0c m1 m1c bc lpc
          ↔ Options_new m0 m0c m1 m1c bc lpc hook h
            = (Ok (MkOptionsFields m0 m0c m1 m1c bc lpc hook), h))).
Proof.
  intros H.
  destruct (H 0 NaN 80 (Finite (Q2Qc 100)) (Finite (Q2Qc 2))
              (Finite (Q2Qc (1 # 1000))) None (MkHeap ∅ 1%positive))
    as [[_ Hraise] _].
  assert (V : violates 0 NaN 80 (Finite (Q2Qc 100)) (Finite (Q2Qc 2))
                       (Finite (Q2Qc (1 # 1000))))
    by (apply Hraise; reflexivity).
  destruct V as [V|[V|[V|[V|[V|V]]]]]; try (cbn in V; lia);
    try exact V; vm_compute in V; discriminate.
Qed.

(** The options that [Check] accepts, when the costs are finite. *)
Lemma Check_valid_options (o : Options) (h : heap) :
  Check (fields_of o) h = (Ok (), h) ↔ valid_options o.
Proof.
  destruct (Check_spec (fields_of o) h) as [[V E]|[V E]]; rewrite E;
    unfold satisfies, valid_options in *; cbn in V.
  - split; [discriminate | intros Hv; exfalso; tauto].
  - split; [intros _; tauto | reflexivity].
Qed.

(** ** Text blocks *)

(** What the one-knot branch computes: the second summand multiplies by the
    margin itself ([options.margin_1], line 55). *)
Lemma TextBlock_one_knot (text : string) (options : Options) :
  let span := Z.of_nat (String.length text) in
  margin_1 options ≤ span →
  TextBlock_DoOptLayout text None options
  = NewSolution [0] [span]
      [(Qc_of_Z (span - margin_0 options) * margin_0_cost options
        + Qc_of_Z ((span - margin_1 options) * margin_1 options))%Qc]
      [(margin_0_cost options + margin_1_cost options)%Qc]
      [[LayoutElement.String text]].
Proof.
  intros span H. unfold TextBlock_DoOptLayout. fold span.
  apply Z.leb_le in H. rewrite H. reflexivity.
Qed.

(** C1.  [TextBlock("hello")] under [Options(margin_1=3)] has
    [len(t) = 5 >= margin_1]; [DoOptLayout(None, options)] returns one knot
    at column 0 whose slope is [margin_0_cost + margin_1_cost], but whose
    cost is [5 * 0.05 + 2 * 3 = 25/4], where the stated formula
    [(len(t) - margin_0) * margin_0_cost + (len(t) - margin_1) * margin_1_cost]
    gives [5 * 0.05 + 2 * 100 = 801/4]. *)
Theorem C1_text_one_knot_cost (rec : LayoutBlock → option Solution → Options
                                     → M (option Solution))
    (self : oid) (br : bool) (h : heap) :
  let options := options_margin_1_3 in
  let soln := TextBlock_DoOptLayout "hello" None options in
  margin_1 options ≤ Z.of_nat (String.length "hello")
  ∧ DoOptLayout rec (TextBlock self br "hello") None options h
    = (Ok (Some soln), h)
  ∧ knots soln = [0]
  ∧ gradients soln = [(margin_0_cost options + margin_1_cost options)%Qc]
  ∧ intercepts soln = [Q2Qc (25 # 4)]
  ∧ one_knot_cost 5 options = Q2Qc (801 # 4)
  ∧ intercepts soln ≠ [one_knot_cost 5 options].
Proof.
  intros options soln.
  assert (Hi : intercepts soln = [Q2Qc (25 # 4)]).
  { unfold soln. simpl. f_equal; apply Qc_is_canon; reflexivity. }
  assert (Hc : one_knot_cost 5 options = Q2Qc (801 # 4)).
  { apply Qc_is_canon. reflexivity. }
  repeat split; try done.
Qed.

(** ** Construction of composite blocks *)

Lemma allocated_caches (h : heap) (o : oid) :
  o ≠ next_oid h → caches (allocated h) !! o = caches h !! o.
Proof. intros Hne. simpl. by rewrite lookup_insert_ne. Qed.

Lemma init_empty (h : heap) :
  CompositeLayoutBlock_init [] h = (Raise BlockUsageError, allocated h).
Proof. reflexivity. Qed.

Lemma check_elements_other (elements : list PyObject) (h : heap) :
  Exists (λ x, is_block x = false) elements →
  mapM (λ e, match e with
             | PyBlock b => mret b
             | PyOther _ => raise TypeError
             end) elements h = (Raise TypeError, h).
Proof.
  induction 1 as [x l Hx | x l _ IH].
  - destruct x; [discriminate | reflexivity].
  - simpl. rewrite run_bind. destruct x as [b | r]; [| reflexivity].
    simpl. rewrite run_bind, IH. reflexivity.
Qed.

Lemma init_other (elements : list PyObject) (h : heap) :
  Exists (λ x, is_block x = false) elements →
  CompositeLayoutBlock_init elements h = (Raise TypeError, allocated h).
Proof.
  intros Hex. unfold CompositeLayoutBlock_init. rewrite run_bind. simpl.
  destruct elements as [| x l]; [inversion Hex |].
  rewrite run_bind, check_elements_other by exact Hex. reflexivity.
Qed.

(** C2 (amended).  For every composite block kind (Line, Stack, Choice,
    Wrap, JoinedLine), construction with a zero-element list raises
    [BlockUsageError], and construction with a list in which some child is
    not a block raises [TypeError]; both are raised by the constructor,
    which only allocates the object: no memo of any existing block changes,
    so no layout has been computed. *)
Theorem C2_construction_errors (k : composite_kind) (h : heap) :
  construct k [] h = (Raise BlockUsageError, allocated h)
  ∧ (∀ elements, Exists (λ x, is_block x = false) elements →
       construct k elements h = (Raise TypeError, allocated h))
  ∧ (∀ o, o ≠ next_oid h → caches (allocated h) !! o = caches h !! o).
Proof.
  split; [| split].
  - destruct k; reflexivity.
  - intros elements Hex.
    destruct k; simpl;
      unfold LineBlock_new, ChoiceBlock_new, StackBlock_new, WrapBlock_new,
             JoinedLineBlock_new;
      rewrite run_bind, init_other by exact Hex; reflexivity.
  - apply allocated_caches.
Qed.

(** C2 as stated fails: [LineBlock([1])], whose only child is not a block,
    raises [TypeError], not [BlockUsageError]. *)
Lemma C2_not_block_is_type_error :
  ¬ (∀ (k : composite_kind) (elements : list PyObject) (h : heap),
       Exists (λ x, is_block x = false) elements →
       (construct k elements h).1 = Raise BlockUsageError).
Proof.
  intros H.
  specialize (H KLine [PyOther "1"] (MkHeap ∅ 1%positive)).
  assert (Hex : Exists (λ x, is_block x = false) [PyOther "1"])
    by (constructor; reflexivity).
  specialize (H Hex). vm_compute in H. discriminate H.
Qed.

(** ** Verbatim blocks *)

(** What the factory is given: section 4.7. *)
Lemma VerbBlock_solution (lines : list string) (first_nl : bool)
    (rest_of_line : option Solution) (options : Options) (h : heap) :
  valid_options options → margin_0 options < margin_1 options →
  VerbBlock_DoOptLayout lines first_nl rest_of_line options h
  = (Ok (verb_solution options (verb_layout lines first_nl)), h).
Proof.
  intros (H0 & _ & Hc0 & Hc1 & _) H1.
  unfold VerbBlock_DoOptLayout, verb_solution.
  assert (Hc2 : (margin_0_cost options
                 ≤ margin_0_cost options + margin_1_cost options)%Qc).
  { rewrite <- (Qcplus_0_r (margin_0_cost options)) at 1.
    apply Qcplus_le_compat; [apply Qcle_refl | exact Hc1]. }
  assert (E2 : (margin_0 options - 0 <? margin_1 options - 0) = true)
    by (apply Z.ltb_lt; lia).
  destruct (0 <? margin_0 options) eqn:E0.
  - apply Z.ltb_lt in E0.
    unfold Append at 3. simpl last. rewrite run_bind, run_ret.
    unfold Append at 2. simpl last. cbn [p_knot p_gradient].
    assert (E1 : (0 <? margin_0 options - 0) = true) by (apply Z.ltb_lt; lia).
    rewrite E1, (bool_decide_eq_true_2 _ Hc0). simpl andb.
    rewrite run_bind, run_ret.
    unfold Append. simpl last. cbn [p_knot p_gradient].
    rewrite E2, (bool_decide_eq_true_2 _ Hc2). simpl andb.
    rewrite run_bind, run_ret. reflexivity.
  - rewrite run_bind, run_ret.
    unfold Append at 2. simpl last. rewrite run_bind, run_ret.
    unfold Append. simpl last. cbn [p_knot p_gradient].
    rewrite E2, (bool_decide_eq_true_2 _ Hc2). simpl andb.
    rewrite run_bind, run_ret. reflexivity.
Qed.

(** C9.  For every [VerbBlock] and every options value, [DoOptLayout] gives
    for every continuation [rest_of_line] exactly what it gives for the
    continuation [None]; under valid options whose margins differ it returns
    the flat solution of section 4.7 (knots at 0, [margin_0] and [margin_1],
    span 0, the verbatim layout at every knot), in which the continuation
    does not occur. *)
Theorem C9_verb_ignores_continuation
    (rec : LayoutBlock → option Solution → Options → M (option Solution))
    (self : oid) (br : bool) (lines : list string) (first_nl : bool)
    (rest_of_line : option Solution) (options : Options) (h : heap) :
  DoOptLayout rec (VerbBlock self br lines first_nl) rest_of_line options h
  = DoOptLayout rec (VerbBlock self br lines first_nl) None options h
  ∧ (valid_options options → margin_0 options < margin_1 options →
     DoOptLayout rec (VerbBlock self br lines first_nl) rest_of_line options h
     = (Ok (Some (verb_solution options (verb_layout lines first_nl))), h)).
Proof.
  split; [reflexivity |].
  intros Hvalid Hm. cbn [DoOptLayout].
  rewrite run_bind, (VerbBlock_solution _ _ _ _ _ Hvalid Hm).
  reflexivity.
Qed.

(** ** Memoisation *)

Lemma memoised_hit (self : oid) (again : M (option Solution))
    (rest_of_line v : option Solution) (h : heap) :
  default ∅ (caches h !! self) !! rest_of_line = Some v →
  memoised self again rest_of_line h = (Ok v, h).
Proof.
  intros Hv. unfold memoised. rewrite run_bind. unfold cache_of at 1.
  cbn beta iota. rewrite bool_decide_eq_true_2 by (rewrite Hv; eauto).
  rewrite run_bind, run_ret, run_bind. unfold cache_of, getkey.
  cbn beta iota. rewrite Hv. reflexivity.
Qed.

Lemma memoised_stores (self : oid) (m : M (option Solution))
    (rest_of_line v : option Solution) (h h1 : heap) :
  memoised self m rest_of_line h = (Ok v, h1) →
  default ∅ (caches h1 !! self) !! rest_of_line = Some v.
Proof.
  unfold memoised. rewrite run_bind. unfold cache_of at 1. cbn beta iota.
  case_bool_decide as Hc.
  - rewrite run_bind, run_ret, run_bind. unfold cache_of, getkey.
    cbn beta iota. destruct Hc as [w Hw]. rewrite Hw.
    intros E. inversion E; subst. exact Hw.
  - rewrite !run_bind.
    destruct (m h) as [[s | e |] h'] eqn:Em; try discriminate.
    unfold cache_store, cache_of, getkey. cbn beta iota.
    rewrite run_bind. cbn beta iota. cbn [caches].
    rewrite lookup_insert_eq. cbn [default from_option]. unfold id.
    rewrite lookup_insert_eq.
    intros E. inversion E; subst. cbn [caches].
    rewrite lookup_insert_eq. cbn [default from_option]. unfold id.
    apply lookup_insert_eq.
Qed.

(** C6.  When a call [OptLayout(rest_of_line, options)] on a block returns
    [v], a second call with the same continuation returns the same [v] and
    leaves every memo as it is; it is answered from the block's memo under
    the key [rest_of_line] ([None] being a key of its own) without running
    [DoOptLayout]: whatever computation stands in its place is not run. *)
Theorem C6_memoised_second_call (fuel : nat) (self : LayoutBlock)
    (rest_of_line : option Solution) (options : Options)
    (v : option Solution) (h h1 : heap) :
  OptLayout fuel self rest_of_line options h = (Ok v, h1) →
  default ∅ (caches h1 !! oid_of self) !! rest_of_line = Some v
  ∧ (∀ again : M (option Solution),
       memoised (oid_of self) again rest_of_line h1 = (Ok v, h1))
  ∧ (∀ fuel' options',
       OptLayout (S fuel') self rest_of_line options' h1 = (Ok v, h1)).
Proof.
  intros Hfirst.
  assert (Hv : default ∅ (caches h1 !! oid_of self) !! rest_of_line = Some v).
  { destruct fuel as [| fuel0]; [discriminate |].
    simpl in Hfirst. eapply memoised_stores; exact Hfirst. }
  split; [exact Hv |]. split.
  - intros again. by apply memoised_hit.
  - intros fuel' options'. simpl. by apply memoised_hit.
Qed.

(** ** Joined lines *)

Lemma but_last_cons {A} (x y : A) (l : list A) :
  but_last (x :: y :: l) = x :: but_last (y :: l).
Proof. unfold but_last. simpl. by rewrite Nat.sub_0_r. Qed.

Lemma but_last_snoc {A} (l : list A) (x : A) : but_last (l ++ [x]) = l.
Proof.
  unfold but_last. rewrite length_app. simpl.
  replace (length l + 1 - 1)%nat with (length l) by lia.
  by rewrite take_app_length.
Qed.

Lemma joined_loop (joiner : LayoutBlock) (join_breaking : bool)
    (l acc : list LayoutBlock) (final : LayoutBlock) :
  foldl (λ joined element,
           let joined := joined ++ [element] in
           if negb (is_breaking element) || join_breaking
           then joined ++ [joiner] else joined) acc l ++ [final]
  = acc ++ interleave (l ++ [final]) joiner join_breaking.
Proof.
  revert acc. induction l as [| e l IH]; intros acc; [reflexivity |].
  cbn [foldl]. rewrite IH. cbn [app interleave].
  destruct (l ++ [final]) as [| y l'] eqn:El.
  { destruct l; discriminate. }
  destruct (negb (is_breaking e) || join_breaking);
    rewrite <- ?app_assoc; reflexivity.
Qed.

Lemma joined_elements_spec (elements : list LayoutBlock) (joiner : LayoutBlock)
    (join_breaking : bool) (h : heap) :
  elements ≠ [] →
  joined_elements elements joiner join_breaking h
  = (Ok (interleave elements joiner join_breaking), h).
Proof.
  intros Hne.
  destruct (exists_last Hne) as (l & final & ->).
  unfold joined_elements, getitem_last.
  rewrite last_snoc, but_last_snoc, run_bind, run_ret, run_ret.
  exact (f_equal (λ x, (Ok x, h)) (joined_loop joiner join_breaking l [] final)).
Qed.

Lemma interleave_last (elements : list LayoutBlock) (joiner : LayoutBlock)
    (join_breaking : bool) :
  last (interleave elements joiner join_breaking) = last elements.
Proof.
  induction elements as [| e es IH]; [reflexivity |].
  destruct es as [| y es']; [reflexivity |].
  change (interleave (e :: y :: es') joiner join_breaking)
    with (e :: (if negb (is_breaking e) || join_breaking
                then [joiner] else [])
            ++ interleave (y :: es') joiner join_breaking).
  assert (Hne : interleave (y :: es') joiner join_breaking ≠ []).
  { simpl. destruct es'; discriminate. }
  destruct (interleave (y :: es') joiner join_breaking) as [| z zs] eqn:Ez;
    [done |].
  rewrite (last_cons_cons e y es'), <- IH.
  destruct (negb (is_breaking e) || join_breaking); cbn [app];
    by rewrite !last_cons_cons.
Qed.

Lemma check_elements_blocks (l : list LayoutBlock) (h : heap) :
  mapM (λ e, match e with
             | PyBlock b => mret b
             | PyOther _ => raise TypeError
             end) (PyBlock <$> l) h = (Ok l, h).
Proof.
  induction l as [| x l IH]; [reflexivity |].
  cbn [fmap list_fmap mapM]. rewrite run_bind, run_ret, run_bind, IH.
  reflexivity.
Qed.

(** C10.  For every [JoinedLineBlock] with at least two elements,
    [DoOptLayout] lays out a [LineBlock] made of the elements with the
    joiner block after every element but the last, left out only after a
    breaking element when [join_breaking] is false.  The elements are taken
    as they are: no element is dropped for its content, an empty [TextBlock]
    included, and the joiner is placed around it like around any other. *)
Theorem C10_joiner_placement
    (rec : LayoutBlock → option Solution → Options → M (option Solution))
    (elements : list LayoutBlock) (joiner : string + LayoutBlock)
    (join_breaking : bool) (rest_of_line : option Solution)
    (options : Options) (h : heap) :
  (2 ≤ length elements)%nat →
  JoinedLineBlock_DoOptLayout rec elements joiner join_breaking rest_of_line
                              options h
  = (j ← joiner_block joiner;
     self ← new_object;
     rec (LineBlock self
                    (match last elements with
                     | Some e => is_breaking e
                     | None => false
                     end)
                    (interleave elements j join_breaking))
         rest_of_line options) h.
Proof.
  intros Hlen.
  destruct elements as [| e1 [| e2 es]]; simpl in Hlen; try lia.
  unfold JoinedLineBlock_DoOptLayout, JoinedLineBlock_CompositeOptLayout.
  fold (joiner_block joiner). rewrite !(run_bind (joiner_block joiner)).
  destruct (joiner_block joiner h) as [[j | e |] h1]; try reflexivity.
  rewrite run_bind, joined_elements_spec by discriminate.
  unfold LineBlock_new, CompositeLayoutBlock_init.
  rewrite !run_bind. cbn beta iota.
  destruct (new_object h1) as [[self | e |] h2] eqn:Enew;
    try (unfold new_object in Enew; discriminate).
  destruct (PyBlock <$> interleave (e1 :: e2 :: es) j join_breaking)
    as [| x xs] eqn:El.
  { simpl in El. discriminate. }
  rewrite <- El, run_bind, check_elements_blocks, run_ret.
  cbn beta iota. rewrite run_ret, interleave_last. reflexivity.
Qed.

(** ** List comprehensions in the monad *)

Lemma mapM_cons {A B} (f : A → M B) (x : A) (l : list A) :
  mapM f (x :: l) = (y ← f x; k ← mapM f l; mret (y :: k)).
Proof. reflexivity. Qed.

Lemma mapM_snoc {A B} (f : A → M B) (l : list A) (x : A) (h : heap) :
  mapM f (l ++ [x]) h = (ys ← mapM f l; y ← f x; mret (ys ++ [y])) h.
Proof.
  revert h. induction l as [| a l IH]; intros h.
  - cbn [app]. rewrite mapM_cons.
    change (mapM f []) with (mret [] : M (list B)).
    rewrite (run_bind (f x)), (run_bind (mret [])), run_ret, (run_bind (f x)).
    destruct (f x h) as [[y | e |] h1]; reflexivity.
  - cbn [app]. rewrite !mapM_cons.
    rewrite (run_bind (f a)), (run_bind (_ ≫= _)), (run_bind (f a)).
    destruct (f a h) as [[b | e |] h1]; try reflexivity.
    rewrite (run_bind (mapM f (l ++ [x]))), IH.
    rewrite !(run_bind (mapM f l)).
    destruct (mapM f l h1) as [[ys | e |] h2]; try reflexivity.
    rewrite ?run_ret, !(run_bind (f x)).
    destruct (f x h2) as [[y | e |] h3]; reflexivity.
Qed.

Lemma mapM_ok_length {A B} (f : A → M B) (l : list A) (l' : list B)
    (h h' : heap) :
  mapM f l h = (Ok l', h') → length l' = length l.
Proof.
  revert l' h. induction l as [| a l IH]; intros l' h.
  - intros E. inversion E. reflexivity.
  - rewrite mapM_cons. intros E.
    apply bind_ok_inv in E as (b & h1 & _ & E).
    apply bind_ok_inv in E as (k & h2 & Ek & E).
    inversion E; subst. simpl. f_equal. eapply IH, Ek.
Qed.

(** A comprehension over [enumerate(l)] whose body agrees, on the indices
    met, with a body that does not look at the index. *)
Lemma mapM_imap_ext {A B} (F : nat → A → M B) (G : A → M B) (l : list A)
    (k : nat) :
  (∀ i x, l !! i = Some x → F (k + i)%nat x = G x) →
  mapM (λ '(i, x), F i x) (imap (λ i x, ((k + i)%nat, x)) l) = mapM G l.
Proof.
  revert k. induction l as [| a l IH]; intros k HF; [reflexivity |].
  cbn [imap]. rewrite !mapM_cons.
  rewrite (HF 0%nat a eq_refl).
  assert (E : mapM (λ '(i, x), F i x)
                   (imap ((λ i x, ((k + i)%nat, x)) ∘ S) l) = mapM G l).
  { rewrite <- (IH (S k)).
    - f_equal. apply imap_ext. intros i x _. simpl. f_equal. lia.
    - intros i x Hi. rewrite <- (HF (S i) x Hi). f_equal. lia. }
  rewrite E. reflexivity.
Qed.

Lemma mapM_enumerate_ext {A B} (F : nat → A → M B) (G : A → M B)
    (l : list A) :
  (∀ i x, l !! i = Some x → F i x = G x) →
  mapM (λ '(i, x), F i x) (enumerate l) = mapM G l.
Proof.
  intros HF. rewrite <- (mapM_imap_ext F G l 0) by exact HF.
  unfold enumerate. f_equal.
Qed.

Lemma enumerate_snoc {A} (l : list A) (x : A) :
  enumerate (l ++ [x]) = enumerate l ++ [(length l, x)].
Proof.
  unfold enumerate. rewrite imap_app. simpl. do 3 f_equal. lia.
Qed.

(** ** Stacks *)

Lemma stack_children_snoc
    (rec : LayoutBlock → option Solution → Options → M (option Solution))
    (l : list LayoutBlock) (x : LayoutBlock) (rest_of_line : option Solution)
    (options : Options) (h : heap) :
  stack_children rec (l ++ [x]) rest_of_line options h
  = (firsts ← mapM (λ e, rec e None options) l;
     final ← rec x rest_of_line options;
     mret (firsts ++ [final])) h.
Proof.
  unfold stack_children. rewrite enumerate_snoc, mapM_snoc.
  rewrite (mapM_enumerate_ext
             (λ i e, rec e (faces (length (l ++ [x])) i rest_of_line) options)
             (λ e, rec e None options) l).
  - unfold faces at 1. rewrite length_app. simpl.
    rewrite bool_decide_eq_true_2 by lia. reflexivity.
  - intros i e Hi. apply lookup_lt_Some in Hi. unfold faces.
    rewrite length_app. simpl. rewrite bool_decide_eq_false_2 by lia.
    reflexivity.
Qed.

Lemma VSumSolution_cons (s : Solution) (l : list Solution) :
  is_Some (VSumSolution (s :: l)).
Proof. simpl. eauto. Qed.

(** C5.  For every [StackBlock] with [n >= 1] children, [DoOptLayout]
    solves the children in order, every child except the last with the
    continuation [None] and the last with [rest_of_line], and returns the
    vertical sum of their solutions plus the constant
    [break_cost * break_mult * max(0, n - 1)]. *)
Theorem C5_stack_layout
    (rec : LayoutBlock → option Solution → Options → M (option Solution))
    (elements : list LayoutBlock) (break_mult : Qc)
    (rest_of_line : option Solution) (options : Options) (h : heap) :
  (1 ≤ length elements)%nat →
  StackBlock_DoOptLayout rec elements break_mult rest_of_line options h
  = stack_layout rec elements break_mult rest_of_line options h.
Proof.
  intros Hn.
  assert (Hne : elements ≠ []) by (destruct elements; simpl in Hn; [lia | done]).
  destruct (exists_last Hne) as (l & x & ->).
  unfold stack_layout. rewrite run_bind, stack_children_snoc.
  unfold StackBlock_DoOptLayout.
  destruct (l ++ [x]) as [| y ys] eqn:El; [done |]. rewrite <- El.
  unfold getitem_last. rewrite last_snoc, but_last_snoc. mred.
  destruct (mapM (λ e, rec e None options) l h) as [[firsts | e |] h1];
    try reflexivity.
  mred.
  destruct (rec x rest_of_line options h1) as [[final | e |] h2];
    try reflexivity.
  mred.
  destruct (mapM deref (firsts ++ [final]) h2) as [[solns | e |] h3] eqn:Ed;
    try reflexivity.
  apply mapM_ok_length in Ed. rewrite length_app in Ed. simpl in Ed.
  destruct solns as [| s solns]; [simpl in Ed; lia |].
  destruct (VSumSolution_cons s solns) as [vsum ->].
  cbn [deref]. mred. rewrite (Z.max_comm 0). reflexivity.
Qed.

(** ** Lines *)

Lemma element_lines_of_nonempty (l : list LayoutBlock) :
  element_lines_of l ≠ [].
Proof.
  induction l as [| e es IH]; [done |].
  simpl. destruct es; [done |]. destruct (is_breaking e); [done |].
  destruct (element_lines_of (l :: es)); done.
Qed.

Lemma element_lines_of_cons (e e' : LayoutBlock) (es : list LayoutBlock) :
  element_lines_of (e :: e' :: es)
  = if is_breaking e then [e] :: element_lines_of (e' :: es)
    else match element_lines_of (e' :: es) with
         | ln :: lns => (e :: ln) :: lns
         | [] => [[e]]
         end.
Proof. reflexivity. Qed.

Lemma split_loop (n k : nat) (l : list LayoutBlock)
    (pre : list (list LayoutBlock)) (cur : list LayoutBlock) :
  n = (k + length l)%nat →
  foldl (λ element_lines '(i, elt),
           if (Z.of_nat i <? Z.of_nat n - 1) && is_breaking elt
           then alter (λ ln, ln ++ [elt]) (length element_lines - 1)%nat
                      element_lines ++ [[]]
           else alter (λ ln, ln ++ [elt]) (length element_lines - 1)%nat
                      element_lines)
        (pre ++ [cur]) (imap (λ i x, ((k + i)%nat, x)) l)
  = pre ++ glue cur (element_lines_of l).
Proof.
  revert k pre cur. induction l as [| e es IH]; intros k pre cur Hn.
  - simpl. by rewrite app_nil_r.
  - cbn [imap foldl].
    assert (Halter :
      alter (λ ln, ln ++ [e]) (length (pre ++ [cur]) - 1)%nat (pre ++ [cur])
      = pre ++ [cur ++ [e]]).
    { rewrite length_app. simpl.
      replace (length pre + 1 - 1)%nat with (length pre + 0)%nat by lia.
      by rewrite alter_app_r. }
    rewrite Halter.
    assert (Himap : imap ((λ i x, ((k + i)%nat, x)) ∘ S) es
                    = imap (λ i x, ((S k + i)%nat, x)) es).
    { apply imap_ext. intros i x _. simpl. f_equal. lia. }
    rewrite Himap. cbn [length] in Hn.
    destruct es as [| e' es']; cbn [length] in Hn.
    + replace (Z.of_nat (k + 0) <? Z.of_nat n - 1) with false
        by (symmetry; apply Z.ltb_ge; lia).
      reflexivity.
    + replace (Z.of_nat (k + 0) <? Z.of_nat n - 1) with true
        by (symmetry; apply Z.ltb_lt; lia).
      cbn [andb]. destruct (is_breaking e) eqn:Eb.
      * rewrite (IH (S k) (pre ++ [cur ++ [e]]) []) by (cbn [length]; lia).
        rewrite element_lines_of_cons, Eb.
        pose proof (element_lines_of_nonempty (e' :: es')) as Hne.
        destruct (element_lines_of (e' :: es')) as [| ln lns]; [done |].
        cbn [glue app]. by rewrite <- app_assoc.
      * rewrite (IH (S k) pre (cur ++ [e])) by (cbn [length]; lia).
        rewrite element_lines_of_cons, Eb.
        pose proof (element_lines_of_nonempty (e' :: es')) as Hne.
        destruct (element_lines_of (e' :: es')) as [| ln lns]; [done |].
        cbn [glue]. by rewrite <- app_assoc.
Qed.

Lemma split_element_lines_spec (elements : list LayoutBlock) :
  split_element_lines elements = element_lines_of elements.
Proof.
  unfold split_element_lines, enumerate.
  pose proof (split_loop (length elements) 0 elements [] [] eq_refl) as H.
  cbn [app] in H.
  pose proof (element_lines_of_nonempty elements) as Hne.
  destruct (element_lines_of elements) as [| ln lns] eqn:E; [done |].
  simpl in H. rewrite <- H. reflexivity.
Qed.

Lemma for_app {A S} (xs ys : list A) (body : A → S → M S) (s : S) (h : heap) :
  for_ (xs ++ ys) body s h = (s' ← for_ xs body s; for_ ys body s') h.
Proof.
  revert s h. induction xs as [| x xs IH]; intros s h; [reflexivity |].
  cbn [app for_]. mred.
  destruct (body x s h) as [[s1 | e |] h1]; try reflexivity.
  rewrite IH. mred. reflexivity.
Qed.

Lemma for_ext {A S} (xs : list A) (body1 body2 : A → S → M S) (s : S)
    (h : heap) :
  (∀ x s h, x ∈ xs → body1 x s h = body2 x s h) →
  for_ xs body1 s h = for_ xs body2 s h.
Proof.
  revert s h. induction xs as [| x xs IH]; intros s h Hb; [reflexivity |].
  cbn [for_]. mred. rewrite Hb by left.
  destruct (body2 x s h) as [[s1 | e |] h1]; try reflexivity.
  apply IH. intros y s' h' Hy. apply Hb. by right.
Qed.

(** A loop that appends one result per turn is a comprehension. *)
Lemma for_collect {A B} (f : A → M B) (xs : list A) (acc : list B) (h : heap) :
  for_ xs (λ x acc, y ← f x; mret (acc ++ [y])) acc h
  = (ys ← mapM f xs; mret (acc ++ ys)) h.
Proof.
  revert acc h. induction xs as [| x xs IH]; intros acc h.
  - cbn [for_ mapM]. mred. by rewrite app_nil_r.
  - cbn [for_]. rewrite mapM_cons. mred.
    destruct (f x h) as [[y | e |] h1]; try reflexivity.
    mred. rewrite IH. mred.
    destruct (mapM f xs h1) as [[ys | e |] h2]; try reflexivity.
    mred. by rewrite <- app_assoc.
Qed.

Lemma mapM_ext_in {A B} (f g : A → M B) (l : list A) (h : heap) :
  (∀ x h, x ∈ l → f x h = g x h) → mapM f l h = mapM g l h.
Proof.
  revert h. induction l as [| x l IH]; intros h Hfg; [reflexivity |].
  rewrite !mapM_cons. mred. rewrite Hfg by left.
  destruct (g x h) as [[y | e |] h1]; try reflexivity.
  mred. rewrite IH; [reflexivity |].
  intros z h' Hz. apply Hfg. by right.
Qed.

Lemma line_fold_spec
    (rec : LayoutBlock → option Solution → Options → M (option Solution))
    (ln : list LayoutBlock) (k : option Solution) (options : Options)
    (h : heap) :
  for_ (reverse ln) (λ elt ln_layout, rec elt ln_layout options) k h
  = line_fold rec ln k options h.
Proof.
  revert h. induction ln as [| e ln IH]; intros h; [reflexivity |].
  rewrite reverse_cons, for_app. cbn [line_fold]. mred. rewrite IH.
  destruct (line_fold rec ln k options h) as [[s | x |] h1]; try reflexivity.
  cbn [for_]. mred.
  destruct (rec e s options h1) as [[s' | x |] h2]; reflexivity.
Qed.

Lemma enumerate_lookup {A} (l : list A) (i : nat) (x : A) :
  (i, x) ∈ enumerate l → l !! i = Some x.
Proof.
  unfold enumerate. rewrite elem_of_lookup_imap.
  intros (j & y & E & Hj). by inversion E; subst.
Qed.

(** C4 (amended).  For every [LineBlock], [DoOptLayout] splits the children
    into element-lines after each non-final child whose [is_breaking] is
    true; when [options.break_element_lines] is set and there is more than
    one element-line, the element-lines are replaced by what the hook
    returns for them.  Each element-line is folded right-to-left through the
    children's [OptLayout], only the last element-line against the supplied
    [rest_of_line] and all earlier ones against [None]; the result is the
    vertical sum of the per-line solutions that are not [None], plus the
    constant [break_cost * (number of element-lines - 1)]. *)
Theorem C4_line_layout
    (rec : LayoutBlock → option Solution → Options → M (option Solution))
    (elements : list LayoutBlock) (rest_of_line : option Solution)
    (options : Options) (h : heap) :
  elements ≠ [] →
  LineBlock_DoOptLayout rec elements rest_of_line options h
  = lines_layout rec (rearranged options (element_lines_of elements))
                 rest_of_line options h.
Proof.
  intros Hne. unfold LineBlock_DoOptLayout.
  destruct elements as [| e0 es]; [done |].
  rewrite split_element_lines_spec.
  fold (rearranged options (element_lines_of (e0 :: es))).
  set (lines := rearranged options (element_lines_of (e0 :: es))).
  unfold lines_layout. cbv zeta. mred.
  rewrite (for_ext _ _
    (λ x acc,
       y ← (let '(i, ln) := x in
            for_ (reverse ln) (λ elt ln_layout, rec elt ln_layout options)
                 (if Z.of_nat i <? Z.of_nat (length lines) - 1
                  then None else rest_of_line));
       mret (acc ++ [y])))
    by (intros [i ln] s h' _; reflexivity).
  rewrite for_collect. mred.
  rewrite (mapM_ext_in _
    (λ '(i, ln),
       line_fold rec ln (faces (length lines) i rest_of_line) options)).
  2:{ intros [i ln] h' Hin. apply enumerate_lookup, lookup_lt_Some in Hin.
      rewrite line_fold_spec. unfold faces.
      destruct (Z.of_nat i <? Z.of_nat (length lines) - 1) eqn:Ei.
      - apply Z.ltb_lt in Ei. by rewrite bool_decide_eq_false_2 by lia.
      - apply Z.ltb_ge in Ei. by rewrite bool_decide_eq_true_2 by lia. }
  destruct (@mapM M _ _ _ _ _ (enumerate lines) h) as [[solns | e |] h1] eqn:Em;
    try reflexivity.
  apply mapM_ok_length in Em. unfold enumerate in Em.
  rewrite length_imap in Em. mred. cbn [app]. rewrite Em. reflexivity.
Qed.

(** C4 as stated fails: for [LineBlock([TextBlock("a", is_breaking=True),
    TextBlock("b")])] and options whose hook joins the element-lines, the
    result is not the layout of the two element-lines [a] and [b]: the hook's
    single line [a b] is laid out, with no break cost. *)
Lemma C4_hook_replaces_element_lines :
  ¬ (∀ (rec : LayoutBlock → option Solution → Options → M (option Solution))
       (elements : list LayoutBlock) (rest_of_line : option Solution)
       (options : Options) (h : heap),
       elements ≠ [] →
       LineBlock_DoOptLayout rec elements rest_of_line options h
       = lines_layout rec (element_lines_of elements) rest_of_line options h).
Proof.
  intros H.
  specialize (H (OptLayout 1)
                [TextBlock 1%positive true "a"; TextBlock 2%positive false "b"]
                None
                options_one_line (MkHeap ∅ 3%positive) ltac:(done)).
  apply (f_equal fst) in H.
  assert (Hl : ∀ s1 s2 : Solution,
            Ok (Some s1) = Ok (Some s2) → layouts s1 = layouts s2)
    by (intros s1 s2 E; by inversion E).
  vm_compute in H. apply Hl in H. discriminate H.
Qed.

(** ** Wrapping *)

Lemma candidates_nonempty (break_mult : Qc) (rest_of_line : option Solution)
    (options : Options) (sep line : Solution) (breaking : bool)
    (upcoming : list (bool * Solution)) (wraps : list Solution) :
  candidates break_mult rest_of_line options sep line breaking upcoming wraps
  ≠ [].
Proof. destruct upcoming as [| [b s] u], wraps as [| w ws]; done. Qed.

Lemma wrap_table_length (break_mult : Qc) (rest_of_line : option Solution)
    (options : Options) (sep : Solution) (prefix : option Solution)
    (items : list (bool * Solution)) :
  length (wrap_table break_mult rest_of_line options sep prefix items)
  = length items.
Proof.
  induction items as [| [b s] items IH]; [reflexivity |].
  simpl. by rewrite IH.
Qed.

Lemma getitem_ok {A} (l : list A) (i : nat) (a : A) (h : heap) :
  l !! i = Some a → getitem l i h = (Ok a, h).
Proof. intros E. unfold getitem. by rewrite E. Qed.

Lemma drop_head_lookup {A} (l : list A) (k : nat) (x : A) (r : list A) :
  drop k l = x :: r → l !! k = Some x ∧ drop (S k) l = r.
Proof.
  intros E.
  assert (Hx : l !! k = Some x).
  { rewrite <- (Nat.add_0_r k), <- lookup_drop, E. reflexivity. }
  split; [exact Hx |].
  rewrite (drop_S _ _ _ Hx) in E. by inversion E.
Qed.

Section WrapProgram.
Variables (elements : list LayoutBlock) (sols : list Solution).
Variables (break_mult : Qc) (rest_of_line : option Solution).
Variables (options : Options) (sep : Solution) (prefix : option Solution).
Hypothesis Hlen : length sols = length elements.

Local Abbreviation items := (paired elements sols).

Lemma items_lookup (k : nat) (b : bool) (s : Solution) :
  items !! k = Some (b, s) →
  (∃ e, elements !! k = Some e ∧ is_breaking e = b) ∧ sols !! k = Some s.
Proof.
  unfold paired. intros E.
  apply lookup_zip_with_Some in E as (b' & s' & E & Hb & Hs).
  inversion E; subst. split; [| exact Hs].
  rewrite list_lookup_fmap in Hb.
  destruct (elements !! k) as [e |]; [| discriminate].
  exists e. split; [reflexivity |]. by inversion Hb.
Qed.

Lemma items_length : length items = length elements.
Proof.
  unfold paired. rewrite length_zip_with, length_fmap. lia.
Qed.

Lemma assert_true (h : heap) : assert true h = (Ok (), h).
Proof. reflexivity. Qed.

Lemma inner_loop_spec (ws : list (option Solution))
    (upcoming : list (bool * Solution)) :
  ∀ (wraps : list Solution) (j : nat) (acc : list Solution) (line : Solution)
    (lb : bool) (h : heap),
    drop (S j) items = upcoming →
    drop (S j) ws = Some <$> wraps →
    length wraps = length upcoming →
    S (j + length upcoming) = length elements →
    ∃ acc' line' lb' broke,
      for_else (seq j (length upcoming))
               (wrap_inner elements break_mult options (Some sep)
                           (Some <$> sols) ws)
               (acc, Some line, lb) h
      = (Ok ((acc', Some line', lb'), broke), h)
      ∧ acc ++ candidates break_mult rest_of_line options sep line lb
                          upcoming wraps
        = acc' ++ (if broke then []
                   else [WithRestOfLine line' rest_of_line]).
Proof.
  induction upcoming as [| [b s] upcoming IH];
    intros wraps j acc line lb h Hitems Hws Hwl Hn.
  - exists acc, line, lb, false. split; [reflexivity |].
    destruct wraps; reflexivity.
  - destruct wraps as [| w wraps]; [discriminate |].
    apply drop_head_lookup in Hitems as [Hitem Hitems].
    rewrite fmap_cons in Hws. apply drop_head_lookup in Hws as [Hw Hws].
    apply items_lookup in Hitem as [(e & He & Hb) Hs].
    cbn [length seq for_else]. rewrite run_bind.
    unfold wrap_inner at 1. cbn beta iota.
    rewrite Nat.add_1_r.
    rewrite run_bind, (getitem_ok _ _ _ _ Hw).
    rewrite bool_decide_eq_true_2 by eauto.
    rewrite run_bind, assert_true.
    rewrite run_bind.
    change (mapM deref [Some line; Some w] h) with (Ok [line; w], h).
    cbn beta iota.
    change (VSumSolution [line; w]) with (Some (vsum line [w])).
    rewrite run_bind. cbn [deref]. rewrite run_ret.
    replace (Z.of_nat (length elements) - Z.of_nat j)
      with (Z.of_nat (S (S (length upcoming))))
      by (cbn [length] in Hn; lia).
    fold (broken_after break_mult options line w (S (S (length upcoming)))).
    destruct lb.
    + rewrite run_ret. cbn beta iota. rewrite run_ret.
      eexists _, line, true, true. split; [reflexivity |].
      cbn [candidates length]. by rewrite app_nil_r.
    + rewrite run_bind. cbn [deref]. rewrite run_ret.
      rewrite run_bind, (getitem_ok (Some <$> sols) (S j) (Some s))
        by (rewrite list_lookup_fmap, Hs; reflexivity).
      rewrite ?bool_decide_eq_true_2 by eauto.
      rewrite run_bind, assert_true.
      rewrite run_bind, run_ret.
      rewrite run_bind, (getitem_ok _ _ _ _ He), run_ret. cbn beta iota.
      rewrite Hb.
      fold (line_extend sep line s).
      destruct (IH wraps (S j)
                   (acc ++ [broken_after break_mult options line w
                                         (S (S (length upcoming)))])
                   (line_extend sep line s) b h Hitems Hws)
        as (acc' & line' & lb' & broke & Hrun & Hc).
      { simpl in Hwl. lia. }
      { cbn [length] in Hn. lia. }
      exists acc', line', lb', broke. split; [exact Hrun |].
      rewrite <- Hc. cbn [candidates length]. by rewrite <- app_assoc.
Qed.
Lemma outer_loop_spec (k : nat) (h : heap) :
  (k ≤ length elements)%nat →
  for_ (reverse (seq 0 k))
       (wrap_outer elements break_mult rest_of_line options (Some sep) prefix
                   (Some <$> sols))
       (replicate k None
        ++ (Some <$> wrap_table break_mult rest_of_line options sep prefix
                                (drop k items))) h
  = (Ok (Some <$> wrap_table break_mult rest_of_line options sep prefix items),
     h).
Proof.
  induction k as [| k IH]; intros Hk; [reflexivity |].
  rewrite seq_S, reverse_snoc. cbn [for_ Nat.add].
  assert (Hki : (k < length items)%nat) by (rewrite items_length; lia).
  destruct (lookup_lt_is_Some_2 _ _ Hki) as [[b s] Hitem].
  pose proof (drop_S _ _ _ Hitem) as Hdrop.
  apply items_lookup in Hitem as [(e & He & Hb) Hs].
  set (wraps := wrap_table break_mult rest_of_line options sep prefix
                           (drop (S k) items)).
  set (ws := replicate (S k) None ++ (Some <$> wraps)).
  assert (Hws : drop (S k) ws = Some <$> wraps).
  { unfold ws. rewrite drop_app_length'; [reflexivity |].
    by rewrite length_replicate. }
  rewrite run_bind. unfold wrap_outer at 1.
  rewrite run_bind, (getitem_ok (Some <$> sols) k (Some s))
    by (rewrite list_lookup_fmap, Hs; reflexivity).
  rewrite run_bind, (getitem_ok _ _ _ _ He).
  rewrite run_bind. unfold range.
  assert (Hm : (length elements - 1 - k)%nat = length (drop (S k) items)).
  { rewrite length_drop, items_length. lia. }
  rewrite Hm.
  destruct (inner_loop_spec ws (drop (S k) items) wraps k []
              (line_start prefix s) (is_breaking e) h eq_refl Hws)
    as (acc' & line' & lb' & broke & Hrun & Hc).
  { unfold wraps. apply wrap_table_length. }
  { rewrite length_drop, items_length. lia. }
  assert (Hstart :
    match prefix with
    | Some prefix0 => Some (WithRestOfLine prefix0 (Some s))
    | None => Some s
    end = Some (line_start prefix s)) by (unfold line_start; by destruct prefix).
  rewrite Hstart, Hrun. cbn beta iota. cbn [app] in Hc.
  assert (Hsolns :
    ∀ f : list Solution → M (list (option Solution)),
      ((if broke then mret acc'
        else assert (bool_decide (is_Some (Some line')));;
             line ← deref (Some line');
             mret (acc' ++ [WithRestOfLine line rest_of_line])) ≫= f) h
      = f (candidates break_mult rest_of_line options sep
                      (line_start prefix s) (is_breaking e)
                      (drop (S k) items) wraps) h).
  { intros f. rewrite Hc. destruct broke.
    - rewrite run_bind, run_ret. by rewrite app_nil_r.
    - rewrite run_bind. rewrite bool_decide_eq_true_2 by eauto.
      rewrite run_bind, assert_true. cbn [deref].
      rewrite run_bind, run_ret, run_ret. reflexivity. }
  rewrite Hsolns, run_ret.
  pose proof (candidates_nonempty break_mult rest_of_line options sep
                (line_start prefix s) (is_breaking e) (drop (S k) items)
                wraps) as Hne.
  assert (Hmin : ∀ l, l ≠ [] → MinSolution l = Some (lower_envelope l))
    by (intros [| x l] Hl; [done | reflexivity]).
  rewrite (Hmin _ Hne).
  assert (Hins :
    <[k := Some (lower_envelope
                   (candidates break_mult rest_of_line options sep
                               (line_start prefix s) (is_breaking e)
                               (drop (S k) items) wraps))]> ws
    = replicate k None
      ++ (Some <$> wrap_table break_mult rest_of_line options sep prefix
                              (drop k items))).
  { unfold ws. rewrite Hdrop, Hb. cbn [wrap_table]. fold wraps.
    rewrite replicate_S_end, <- app_assoc.
    rewrite insert_app_r_alt by (rewrite length_replicate; lia).
    rewrite length_replicate, Nat.sub_diag. reflexivity. }
  rewrite Hins. apply IH. lia.
Qed.

(** The dynamic program, once the separator and the elements have their
    solutions: the table is filled with [wrap_table] and its first entry is
    returned. *)
Lemma wrap_program_spec (h : heap) :
  elements ≠ [] →
  wrap_program elements break_mult rest_of_line options (Some sep) prefix
               (Some <$> sols) h
  = (Ok (head (wrap_table break_mult rest_of_line options sep prefix items)),
     h).
Proof.
  intros Hne. unfold wrap_program, range_down.
  pose proof (outer_loop_spec (length elements) h (Nat.le_refl _)) as Hloop.
  rewrite drop_ge in Hloop by (rewrite items_length; lia).
  cbn [wrap_table fmap list_fmap] in Hloop. rewrite app_nil_r in Hloop.
  rewrite run_bind, Hloop.
  destruct items as [| [b s] items'] eqn:Ei.
  { pose proof items_length as Hl. rewrite Ei in Hl.
    destruct elements; [done | discriminate]. }
  cbn [wrap_table fmap list_fmap head].
  rewrite run_bind. unfold getitem. cbn [lookup list_lookup].
  rewrite run_ret. rewrite bool_decide_eq_true_2 by eauto.
  rewrite run_bind, assert_true, run_ret. reflexivity.
Qed.
End WrapProgram.

(** Entry [i] of the table is the minimum of the candidates of element [i],
    which use the entries after [i]. *)
Lemma wrap_table_entry (break_mult : Qc) (rest_of_line : option Solution)
    (options : Options) (sep : Solution) (prefix : option Solution)
    (items : list (bool * Solution)) (i : nat) (b : bool) (s : Solution) :
  items !! i = Some (b, s) →
  MinSolution
    (candidates break_mult rest_of_line options sep (line_start prefix s) b
       (drop (S i) items)
       (drop (S i)
             (wrap_table break_mult rest_of_line options sep prefix items)))
  = wrap_table break_mult rest_of_line options sep prefix items !! i.
Proof.
  revert i. induction items as [| [b0 s0] items IH]; intros i Hi; [done |].
  destruct i as [| i].
  - inversion Hi; subst. cbn [wrap_table drop lookup list_lookup].
    pose proof (candidates_nonempty break_mult rest_of_line options sep
                  (line_start prefix s) b items
                  (wrap_table break_mult rest_of_line options sep prefix items))
      as Hne.
    unfold MinSolution.
    destruct (candidates _ _ _ _ _ _ _ _); [done | reflexivity].
  - cbn [wrap_table]. rewrite !skipn_cons. apply IH. exact Hi.
Qed.

(** C3.  For every [WrapBlock] with [n >= 1] elements whose separator and
    elements have solutions, [DoOptLayout] returns [wrap[0]], where [wrap[i]],
    the solution for the elements [i..n-1], is the minimum of these
    candidates: for each [j] from [i] upward, as long as no element already
    on the line mandates a break and an element follows [j], the vertical sum
    of the line holding the elements [i..j] (after the prefix when one is
    set, the elements separated by [sep]) with [wrap[j+1]], plus
    [break_cost * break_mult + late_pack_cost * (n - j)]; and, when the loop
    over [j] was exhausted without an early stop, the line with all the
    elements from [i] on composed with [rest_of_line]. *)
Theorem C3_wrap_layout
    (rec : LayoutBlock → option Solution → Options → M (option Solution))
    (elements : list LayoutBlock) (sep_text : string) (break_mult : Qc)
    (prefix : option string) (rest_of_line : option Solution)
    (options : Options) (sep : Solution) (sols : list Solution)
    (h h1 h2 : heap) :
  elements ≠ [] →
  rec (TextBlock (next_oid h) false sep_text) None options (allocated h)
  = (Ok (Some sep), h1) →
  mapM (λ e, rec e None options) elements (after_prefix prefix h1)
  = (Ok (Some <$> sols), h2) →
  let items := paired elements sols in
  let wrap := wrap_table break_mult rest_of_line options sep
                         (wrap_prefix prefix options) items in
  WrapBlock_DoOptLayout rec elements sep_text break_mult prefix rest_of_line
                        options h
  = (Ok (wrap !! 0%nat), h2)
  ∧ length wrap = length elements
  ∧ ∀ i e s, elements !! i = Some e → sols !! i = Some s →
      wrap !! i
      = MinSolution
          (candidates break_mult rest_of_line options sep
                      (line_start (wrap_prefix prefix options) s)
                      (is_breaking e)
                      (drop (S i) items) (drop (S i) wrap)).
Proof.
  intros Hne Hsep Helts items wrap.
  assert (Hlen : length sols = length elements).
  { apply mapM_ok_length in Helts. by rewrite length_fmap in Helts. }
  split; [| split].
  - unfold WrapBlock_DoOptLayout.
    rewrite run_bind.
    change (TextBlock_new sep_text false h)
      with (Ok (TextBlock (next_oid h) false sep_text), allocated h).
    cbn beta iota. rewrite run_bind, Hsep.
    rewrite bool_decide_eq_true_2 by eauto.
    rewrite run_bind, assert_true, run_bind.
    assert (Hprefix :
      match prefix with
      | Some (String a p) =>
          _ ← TextBlock_new (String a p) false;
          mret (Some (TextBlock_DoOptLayout (String a p) None options))
      | _ => mret None
      end h1 = (Ok (wrap_prefix prefix options), after_prefix prefix h1)).
    { destruct prefix as [[| a p] |]; reflexivity. }
    rewrite Hprefix, run_bind, Helts.
    rewrite (wrap_program_spec elements sols break_mult rest_of_line options
               sep (wrap_prefix prefix options) Hlen h2 Hne).
    by rewrite head_lookup.
  - unfold wrap, items, paired.
    rewrite wrap_table_length, length_zip_with, length_fmap.
    lia.
  - intros i e s He Hs. unfold wrap. symmetry. apply wrap_table_entry.
    unfold items, paired. apply lookup_zip_with_Some.
    exists (is_breaking e), s. split; [reflexivity |]. split; [| exact Hs].
    by rewrite list_lookup_fmap, He.
Qed.

(** ** Well-formed solutions *)

Lemma of_pieces_ok (ps : list piece) : pieces_ok ps → sol_ok (of_pieces ps).
Proof.
  intros (p & ps' & -> & Hp & Hps). unfold sol_ok, of_pieces. cbn [knots spans
    intercepts gradients layouts]. rewrite !length_fmap.
  split; [| done].
  exists (p_knot <$> ps'). rewrite fmap_cons, Hp. split; [reflexivity |].
  by apply Forall_fmap.
Qed.

Lemma pieces_of_knots (ks sps : list Z) (cs gs : list Qc) (ls : list Layout) :
  length sps = length ks → length cs = length ks → length gs = length ks →
  length ls = length ks →
  p_knot <$> pieces_of ks sps cs gs ls = ks.
Proof.
  revert sps cs gs ls.
  induction ks as [| k ks IH]; intros sps cs gs ls H1 H2 H3 H4.
  - by destruct sps.
  - destruct sps as [| sp sps], cs as [| c cs], gs as [| g gs],
      ls as [| l ls]; try discriminate.
    cbn [pieces_of]. rewrite fmap_cons. cbn [p_knot]. f_equal.
    apply IH; simpl in *; lia.
Qed.

Lemma pieces_of_sol_ok (s : Solution) : sol_ok s → pieces_ok (pieces s).
Proof.
  intros ((ks & Hk & Hpos) & H1 & H2 & H3 & H4).
  pose proof (pieces_of_knots _ _ _ _ _ H1 H2 H3 H4) as Hp.
  fold (pieces s) in Hp. rewrite Hk in Hp.
  destruct (pieces s) as [| p ps]; [discriminate |].
  rewrite fmap_cons in Hp. inversion Hp as [[Hp0 Hps]].
  exists p, ps. split; [reflexivity |]. split; [exact Hp0 |].
  rewrite <- Hps in Hpos.
  exact (proj1 (Forall_fmap p_knot (λ k, 0 < k) ps) Hpos).
Qed.

Lemma segment_columns_tail (lo : Z) (hi : option Z) (sp : Z) (rest : Solution) :
  ∃ cols, segment_columns lo hi sp rest = lo :: cols
          ∧ Forall (λ k, lo < k) cols.
Proof.
  unfold segment_columns. eexists. split; [reflexivity |].
  apply Forall_forall. intros k Hk. apply list_elem_of_In in Hk.
  apply filter_In in Hk as [_ Hk]. apply andb_true_iff in Hk as [Hk _].
  by apply Z.ltb_lt.
Qed.

Lemma compose_pieces_positive (ps : list piece) (rest : Solution) :
  Forall (λ q, 0 < p_knot q) ps →
  Forall (λ q, 0 < p_knot q) (compose_pieces ps rest).
Proof.
  induction 1 as [| p ps Hp _ IH]; [constructor |].
  cbn [compose_pieces]. apply Forall_app. split; [| exact IH].
  destruct (segment_columns_tail (p_knot p) (p_knot <$> head ps) (p_span p)
                                 rest) as (cols & -> & Hcols).
  rewrite fmap_cons. constructor; [exact Hp |].
  apply Forall_fmap. eapply Forall_impl; [exact Hcols |].
  intros k Hk. cbn in *. lia.
Qed.

Lemma compose_pieces_ok (ps : list piece) (rest : Solution) :
  pieces_ok ps → pieces_ok (compose_pieces ps rest).
Proof.
  intros (p & ps' & -> & Hp & Hps). cbn [compose_pieces].
  destruct (segment_columns_tail (p_knot p) (p_knot <$> head ps') (p_span p)
                                 rest) as (cols & -> & Hcols).
  rewrite fmap_cons. cbn [app].
  eexists _, _. split; [reflexivity |]. split; [exact Hp |].
  apply Forall_app. split.
  - apply Forall_fmap. eapply Forall_impl; [exact Hcols |].
    intros k Hk. cbn in *. lia.
  - by apply compose_pieces_positive.
Qed.

Lemma WithRestOfLine_ok (s : Solution) (rest_of_line : option Solution) :
  sol_ok s → sol_ok (WithRestOfLine s rest_of_line).
Proof.
  intros Hs. destruct rest_of_line as [r |]; [| exact Hs].
  apply of_pieces_ok, compose_pieces_ok, pieces_of_sol_ok, Hs.
Qed.

Lemma PlusConst_ok (s : Solution) (c : Qc) : sol_ok s → sol_ok (PlusConst s c).
Proof.
  intros (Hk & H1 & H2 & H3 & H4). unfold sol_ok, PlusConst.
  cbn [knots spans intercepts gradients layouts]. rewrite length_fmap. done.
Qed.

Lemma vsum_ok (s0 : Solution) (later : list Solution) :
  sol_ok s0 → sol_ok (vsum s0 later).
Proof.
  intros (Hk & H1 & H2 & H3 & H4). unfold sol_ok, vsum.
  cbn [knots spans intercepts gradients layouts]. rewrite !length_fmap. done.
Qed.

Lemma TextBlock_ok (text : string) (rest_of_line : option Solution)
    (options : Options) :
  sol_ok (TextBlock_DoOptLayout text rest_of_line options).
Proof.
  unfold TextBlock_DoOptLayout. apply WithRestOfLine_ok.
  set (span := Z.of_nat (String.length text)).
  destruct (margin_1 options <=? span) eqn:E1.
  { split; [| done]. exists []. split; [reflexivity | constructor]. }
  apply Z.leb_gt in E1.
  destruct (margin_0 options <=? span) eqn:E0.
  { split; [| done]. eexists. split; [reflexivity |].
    repeat constructor. lia. }
  apply Z.leb_gt in E0.
  split; [| done]. eexists. split; [reflexivity |].
  repeat constructor; lia.
Qed.

Lemma foldr_min_lower (lo k : Z) (ks : list Z) :
  lo < k → Forall (λ x, lo < x) ks → lo < foldr Z.min k ks.
Proof.
  intros Hk. induction 1 as [| x ks Hx _ IH]; simpl; [exact Hk | lia].
Qed.

Lemma next_crossing_later (k_l : Z) (hi : option Z) (b : cand)
    (cs : list cand) (k' : Z) :
  next_crossing k_l hi b cs = Some k' → k_l < k'.
Proof.
  unfold next_crossing.
  destruct (List.filter _ _) as [| k ks] eqn:Ef; [discriminate |].
  intros E. inversion E; subst.
  assert (Hall : Forall (λ x, k_l < x) (k :: ks)).
  { rewrite <- Ef. apply Forall_forall. intros x Hx.
    apply list_elem_of_In in Hx. apply filter_In in Hx as [_ Hx].
    apply andb_true_iff in Hx as [Hx _]. by apply Z.ltb_lt. }
  inversion Hall; subst. by apply foldr_min_lower.
Qed.

Lemma sweep_knots (solutions : list Solution) (hi : option Z) (fuel : nat) :
  ∀ (k_l : Z) (last : option (nat * nat)),
    Forall (λ p, k_l ≤ p_knot p) (sweep fuel solutions k_l hi last).1.
Proof.
  induction fuel as [| fuel IH]; intros k_l last.
  - cbn [sweep]. destruct (cands_at solutions k_l) as [| c0 cs]; [constructor |].
    cbn zeta. destruct (decide _); cbn [fst]; repeat constructor. simpl. lia.
  - cbn [sweep]. destruct (cands_at solutions k_l) as [| c0 cs]; [constructor |].
    cbn zeta.
    assert (Hem : ∀ l, l = (if decide (last = Some (c_idx (argmin c0 cs),
                                                   c_seg (argmin c0 cs)))
                        then []
                        else [Piece k_l (c_span (argmin c0 cs))
                                    (c_value (argmin c0 cs))
                                    (c_gradient (argmin c0 cs))
                                    (c_layout (argmin c0 cs))]) →
                  Forall (λ p, k_l ≤ p_knot p) l).
    { intros l ->. destruct (decide _); repeat constructor. simpl. lia. }
    destruct (next_crossing k_l hi (argmin c0 cs) (c0 :: cs)) as [k' |] eqn:En.
    + apply next_crossing_later in En.
      specialize (IH k' (Some (c_idx (argmin c0 cs), c_seg (argmin c0 cs)))).
      destruct (sweep fuel solutions k' hi _) as [ps last'].
      cbn [fst] in *. apply Forall_app. split; [by apply Hem |].
      eapply Forall_impl; [exact IH |]. intros p Hp. simpl in Hp. lia.
    + cbn [fst]. by apply Hem.
Qed.

(** The first sweep starts a new solution: its first piece is at the column
    where it starts and every other piece lies after it. *)
Lemma sweep_first (solutions : list Solution) (hi : option Z) (fuel : nat)
    (k_l : Z) :
  solutions ≠ [] →
  ∃ p ps, (sweep fuel solutions k_l hi None).1 = p :: ps
          ∧ p_knot p = k_l ∧ Forall (λ q, k_l < p_knot q) ps.
Proof.
  intros Hne.
  assert (Hc : cands_at solutions k_l ≠ []).
  { unfold cands_at. destruct solutions; [done | discriminate]. }
  destruct fuel as [| fuel]; cbn [sweep];
    destruct (cands_at solutions k_l) as [| c0 cs]; try done; cbn zeta.
  - destruct (decide (None = Some _)); [discriminate |]. cbn [fst].
    eexists _, _. split; [reflexivity |]. split; [reflexivity | constructor].
  - destruct (decide (None = Some _)); [discriminate |].
    destruct (next_crossing k_l hi (argmin c0 cs) (c0 :: cs)) as [k' |] eqn:En.
    + apply next_crossing_later in En.
      pose proof (sweep_knots solutions hi fuel k'
                    (Some (c_idx (argmin c0 cs), c_seg (argmin c0 cs)))) as Hk.
      destruct (sweep fuel solutions k' hi _) as [ps last'].
      cbn [fst app] in *.
      eexists _, _. split; [reflexivity |]. split; [reflexivity |].
      eapply Forall_impl; [exact Hk |]. intros p Hp. simpl in Hp. lia.
    + cbn [fst]. eexists _, _. split; [reflexivity |].
      split; [reflexivity | constructor].
Qed.

Lemma envelope_knots (solutions : list Solution) (m : Z) (later : list Z) :
  ∀ (lo : Z) (last : option (nat * nat)),
    m ≤ lo → Forall (λ k, m ≤ k) later →
    Forall (λ p, m ≤ p_knot p) (envelope solutions lo later last).
Proof.
  induction later as [| k later IH]; intros lo last Hlo Hlater.
  - cbn [envelope].
    eapply Forall_impl; [apply sweep_knots |]. intros p Hp. simpl in Hp. lia.
  - cbn [envelope].
    pose proof (sweep_knots solutions (Some k) (length solutions) lo last) as Hs.
    destruct (sweep (length solutions) solutions lo (Some k) last)
      as [ps last'].
    cbn [fst] in Hs. inversion Hlater; subst.
    apply Forall_app. split.
    + eapply Forall_impl; [exact Hs |]. intros p Hp. simpl in Hp. lia.
    + by apply IH.
Qed.

Lemma insert_knot_positive (k : Z) (ks : list Z) :
  0 < k → Forall (λ x, 0 < x) ks → Forall (λ x, 0 < x) (insert_knot k ks).
Proof.
  intros Hk. induction 1 as [| x ks Hx Hks IH]; cbn [insert_knot].
  - by repeat constructor.
  - destruct (k <? x); [by repeat constructor |].
    destruct (k =? x); by constructor.
Qed.

Lemma merged_knots_positive (solutions : list Solution) :
  Forall (λ x, 0 < x) (merged_knots solutions).
Proof.
  unfold merged_knots.
  assert (H : Forall (λ x, 0 < x)
                (List.filter (λ k, 0 <? k) (concat (knots <$> solutions)))).
  { apply Forall_forall. intros x Hx. apply list_elem_of_In in Hx.
    apply filter_In in Hx as [_ Hx]. by apply Z.ltb_lt. }
  induction H as [| x l Hx _ IH]; [constructor |].
  cbn [foldr]. by apply insert_knot_positive.
Qed.

Lemma lower_envelope_ok (solutions : list Solution) :
  solutions ≠ [] → sol_ok (lower_envelope solutions).
Proof.
  intros Hne. apply of_pieces_ok.
  pose proof (merged_knots_positive solutions) as Hpos.
  destruct (merged_knots solutions) as [| k later]; cbn [envelope].
  - destruct (sweep_first solutions None (length solutions) 0 Hne)
      as (p & ps & -> & Hp & Hps).
    by exists p, ps.
  - destruct (sweep_first solutions (Some k) (length solutions) 0 Hne)
      as (p & ps & Hs & Hp & Hps).
    destruct (sweep (length solutions) solutions 0 (Some k) None)
      as [ps0 last'].
    cbn [fst] in Hs. subst ps0. cbn [app].
    exists p, (ps ++ envelope solutions k later last').
    split; [reflexivity |]. split; [exact Hp |].
    apply Forall_app. split; [exact Hps |].
    inversion Hpos; subst.
    eapply Forall_impl.
    + apply (envelope_knots solutions 1 later k last'); [lia |].
      eapply Forall_impl; [eassumption |]. intros x Hx. simpl in Hx. lia.
    + intros q Hq. simpl in Hq. lia.
Qed.

Lemma MinSolution_ok (solutions : list Solution) (s : Solution) :
  MinSolution solutions = Some s → sol_ok s.
Proof.
  destruct solutions as [| x l]; [discriminate |].
  intros E. inversion E. by apply lower_envelope_ok.
Qed.

(** ** The invariant of the optimiser *)

Lemma ok_value_rest (v : option Solution) : ok_value v → ok_rest v.
Proof. intros (s & -> & Hs) s' E. by inversion E; subst. Qed.

Lemma ok_rest_None : ok_rest None.
Proof. intros s E. discriminate. Qed.

Lemma safe_ret {A} (a : A) (Q : A → Prop) : Q a → safe (mret a) Q.
Proof. intros HQ h a' h' Hh E. inversion E; subst. done. Qed.

Lemma safe_raise {A} (e : exn) (Q : A → Prop) : safe (raise e) Q.
Proof. intros h a h' _ E. discriminate. Qed.

Lemma safe_out_of_fuel {A} (Q : A → Prop) : safe out_of_fuel Q.
Proof. intros h a h' _ E. discriminate. Qed.

Lemma safe_bind {A B} (m : M A) (f : A → M B) (Q1 : A → Prop)
    (Q2 : B → Prop) :
  safe m Q1 → (∀ a, Q1 a → safe (f a) Q2) → safe (m ≫= f) Q2.
Proof.
  intros Hm Hf h b h2 Hh E.
  apply bind_ok_inv in E as (a & h1 & Em & Ef).
  destruct (Hm h a h1 Hh Em) as [Ha Hh1].
  exact (Hf a Ha h1 b h2 Hh1 Ef).
Qed.

Lemma safe_weaken {A} (m : M A) (Q Q' : A → Prop) :
  safe m Q → (∀ a, Q a → Q' a) → safe m Q'.
Proof.
  intros Hm HQ h a h' Hh E. destruct (Hm h a h' Hh E). split; auto.
Qed.

Lemma safe_assert (c : bool) : safe (assert c) (λ _, c = true).
Proof. destruct c; [by apply safe_ret | apply safe_raise]. Qed.

Lemma safe_deref {A} (o : option A) : safe (deref o) (λ a, o = Some a).
Proof. destruct o; [by apply safe_ret | apply safe_raise]. Qed.

Lemma safe_getitem {A} (l : list A) (i : nat) :
  safe (getitem l i) (λ a, l !! i = Some a).
Proof.
  unfold getitem. destruct (l !! i); [by apply safe_ret | apply safe_raise].
Qed.

Lemma safe_getitem_last {A} (l : list A) :
  safe (getitem_last l) (λ a, last l = Some a).
Proof.
  unfold getitem_last. destruct (last l); [by apply safe_ret | apply safe_raise].
Qed.

Lemma safe_getkey (d : cache) (key : option Solution) :
  safe (getkey d key) (λ a, d !! key = Some a).
Proof.
  unfold getkey. destruct (d !! key); [by apply safe_ret | apply safe_raise].
Qed.

Lemma safe_new_object : safe new_object (λ _, True).
Proof.
  intros h a h' Hh E. inversion E; subst. split; [done |].
  intros o c key v Hc Hv. cbn [caches] in Hc.
  destruct (decide (o = next_oid h)) as [-> | Hne].
  - rewrite lookup_insert_eq in Hc. inversion Hc; subst. done.
  - rewrite lookup_insert_ne in Hc by done. by eapply Hh.
Qed.

Lemma safe_cache_of (o : oid) :
  safe (cache_of o) (λ c, ∀ key v, c !! key = Some v → ok_value v).
Proof.
  intros h a h' Hh E. inversion E; subst. split; [| done].
  intros key v Hv. destruct (caches h' !! o) as [c |] eqn:Ec.
  - by eapply Hh.
  - done.
Qed.

Lemma safe_cache_store (o : oid) (key v : option Solution) :
  ok_value v → safe (cache_store o key v) (λ _, True).
Proof.
  intros Hv h a h' Hh E. inversion E; subst. split; [done |].
  intros o' c key' v' Hc Hv'. cbn [caches] in Hc.
  destruct (decide (o' = o)) as [-> | Hne].
  - rewrite lookup_insert_eq in Hc. inversion Hc; subst.
    destruct (decide (key' = key)) as [-> | Hk].
    + rewrite lookup_insert_eq in Hv'. by inversion Hv'; subst.
    + rewrite lookup_insert_ne in Hv' by done.
      destruct (caches h !! o) as [c |] eqn:Ec; [by eapply Hh | done].
  - rewrite lookup_insert_ne in Hc by done. by eapply Hh.
Qed.

Lemma safe_mapM {A B} (f : A → M B) (l : list A) (Q : B → Prop) :
  (∀ x, x ∈ l → safe (f x) Q) → safe (mapM f l) (Forall Q).
Proof.
  induction l as [| x l IH]; intros Hf.
  - by apply safe_ret.
  - rewrite mapM_cons. eapply safe_bind; [apply Hf; by left |].
    intros y Hy. eapply safe_bind.
    + apply IH. intros z Hz. apply Hf. by right.
    + intros k Hk. apply safe_ret. by constructor.
Qed.

Lemma safe_for {A S} (xs : list A) (body : A → S → M S) (I : S → Prop)
    (s : S) :
  (∀ x s, x ∈ xs → I s → safe (body x s) I) → I s → safe (for_ xs body s) I.
Proof.
  revert s. induction xs as [| x xs IH]; intros s Hb Hs.
  - by apply safe_ret.
  - cbn [for_]. eapply safe_bind; [apply Hb; [by left | exact Hs] |].
    intros s' Hs'. apply IH; [| exact Hs'].
    intros y t Hy. apply Hb. by right.
Qed.

Lemma safe_for_else {A S} (xs : list A) (body : A → S → M (S * bool))
    (I : S → Prop) (s : S) :
  (∀ x s, x ∈ xs → I s → safe (body x s) (λ r, I r.1)) → I s →
  safe (for_else xs body s) (λ r, I r.1).
Proof.
  revert s. induction xs as [| x xs IH]; intros s Hb Hs.
  - by apply safe_ret.
  - cbn [for_else]. eapply safe_bind; [apply Hb; [by left | exact Hs] |].
    intros [s' broke] Hs'. cbn [fst] in Hs'. destruct broke.
    + by apply safe_ret.
    + apply IH; [| exact Hs']. intros y t Hy. apply Hb. by right.
Qed.

Lemma Append_inv (sf sf' : SolutionFactory) (knot span : Z)
    (intercept gradient : Qc) (layout : Layout) (h h' : heap) :
  Append sf knot span intercept gradient layout h = (Ok sf', h') →
  h' = h ∧ sf' = sf ++ [Piece knot span intercept gradient layout]
  ∧ (∀ q, last sf = Some q → p_knot q < knot).
Proof.
  unfold Append. destruct (last sf) as [q |] eqn:El.
  - destruct (p_knot q <? knot) eqn:Ek; cbn [andb]; [| discriminate].
    destruct (bool_decide _); [| discriminate].
    intros E. inversion E; subst. split; [done |]. split; [done |].
    intros q' Hq. inversion Hq; subst. by apply Z.ltb_lt.
  - intros E. inversion E; subst. apply last_None in El. subst sf.
    split; [done |]. split; [done |]. intros q Hq. discriminate.
Qed.

Lemma VerbBlock_safe (lines : list string) (first_nl : bool)
    (rest_of_line : option Solution) (options : Options) :
  0 ≤ margin_0 options →
  safe (VerbBlock_DoOptLayout lines first_nl rest_of_line options) sol_ok.
Proof.
  intros Hm0 h s h' Hh E. unfold VerbBlock_DoOptLayout in E.
  apply bind_ok_inv in E as (sf1 & h1 & E1 & E).
  apply bind_ok_inv in E as (sf2 & h2 & E2 & E).
  apply bind_ok_inv in E as (sf3 & h3 & E3 & E).
  inversion E; subst. clear E.
  apply Append_inv in E3 as (-> & -> & H3).
  apply Append_inv in E2 as (-> & -> & H2).
  destruct (0 <? margin_0 options) eqn:E0.
  - apply Append_inv in E1 as (-> & -> & _). split; [| exact Hh].
    specialize (H2 _ eq_refl). specialize (H3 _ eq_refl).
    cbn [p_knot] in H2, H3.
    apply of_pieces_ok. eexists _, _. split; [reflexivity |].
    split; [reflexivity |]. repeat constructor; cbn [p_knot]; lia.
  - inversion E1; subst. split; [| exact Hh].
    specialize (H3 _ eq_refl). cbn [p_knot] in H3.
    apply Z.ltb_ge in E0.
    apply of_pieces_ok. eexists _, _. split; [reflexivity |].
    split; [cbn [p_knot]; lia |]. repeat constructor; cbn [p_knot]; lia.
Qed.

(** *** Well-formed block trees *)

Lemma element_lines_of_wf (elements : list LayoutBlock) :
  Forall wf_block elements →
  Forall (Forall wf_block) (element_lines_of elements).
Proof.
  induction 1 as [| e es He Hes IH]; [by repeat constructor |].
  destruct es as [| e' es']; [by repeat constructor |].
  rewrite element_lines_of_cons.
  destruct (is_breaking e).
  - constructor; [by repeat constructor | exact IH].
  - destruct (element_lines_of (e' :: es')) as [| ln lns];
      [by repeat constructor |].
    inversion IH; subst. constructor; [by constructor | done].
Qed.

Lemma rearranged_wf (options : Options) (lines : list (list LayoutBlock)) :
  hook_ok options → Forall (Forall wf_block) lines →
  Forall (Forall wf_block) (rearranged options lines).
Proof.
  intros Hhook Hl. unfold rearranged.
  destruct (break_element_lines options) as [hook |] eqn:Eh; [| exact Hl].
  destruct (1 <? length lines)%nat; [| exact Hl].
  by eapply Hhook.
Qed.

(** *** Every block keeps the invariant *)

Lemma omap_id_ok (l : list (option Solution)) :
  Forall ok_rest l → Forall sol_ok (omap id l).
Proof.
  induction 1 as [| v l Hv _ IH]; [constructor |].
  cbn [omap]. destruct v as [s |]; cbn [id]; [| exact IH].
  constructor; [by apply Hv | exact IH].
Qed.

Lemma VSumSolution_ok (l : list Solution) (s : Solution) :
  Forall sol_ok l → VSumSolution l = Some s → sol_ok s.
Proof.
  intros Hl E. destruct l as [| s0 later]; [discriminate |].
  inversion E; subst. inversion Hl; subst. by apply vsum_ok.
Qed.

Lemma mapM_deref_inv {A} (l : list (option A)) (l' : list A) (h h' : heap) :
  mapM deref l h = (Ok l', h') → l = Some <$> l' ∧ h' = h.
Proof.
  revert l' h. induction l as [| o l IH]; intros l' h E.
  - inversion E; subst. done.
  - rewrite mapM_cons in E.
    apply bind_ok_inv in E as (a & h1 & Ea & E).
    apply bind_ok_inv in E as (k & h2 & Ek & E).
    inversion E; subst. destruct o as [a' |]; [| discriminate].
    inversion Ea; subst. apply IH in Ek as [-> ->]. done.
Qed.

Lemma ok_values_some (l : list Solution) :
  Forall ok_value (Some <$> l) → Forall sol_ok l.
Proof.
  induction l as [| s l IH]; [constructor |].
  rewrite fmap_cons. intros H. inversion H as [| ? ? (s' & Es & Hs) Hl]; subst.
  inversion Es; subst. constructor; [exact Hs | by apply IH].
Qed.

Lemma enumerate_elem_of {A} (l : list A) (i : nat) (x : A) :
  (i, x) ∈ enumerate l → x ∈ l.
Proof.
  intros H. apply enumerate_lookup in H. by eapply list_elem_of_lookup_2.
Qed.

Section Safety.
Variable rec : LayoutBlock → option Solution → Options → M (option Solution).
Variable options : Options.
Hypothesis Hvalid : valid_options options.
Hypothesis Hhook : hook_ok options.
Hypothesis Hrec : ∀ b rest, wf_block b → ok_rest rest →
                           safe (rec b rest options) ok_value.

Lemma LineBlock_safe (elements : list LayoutBlock)
    (rest_of_line : option Solution) :
  elements ≠ [] → Forall wf_block elements → ok_rest rest_of_line →
  safe (LineBlock_DoOptLayout rec elements rest_of_line options) ok_value.
Proof.
  intros Hne Hwf Hrest. unfold LineBlock_DoOptLayout.
  destruct elements as [| e0 es]; [done |].
  rewrite split_element_lines_spec.
  fold (rearranged options (element_lines_of (e0 :: es))).
  pose proof (rearranged_wf options _ Hhook (element_lines_of_wf _ Hwf))
    as Hlines.
  set (lines := rearranged options (element_lines_of (e0 :: es))) in *.
  cbv zeta. eapply safe_bind.
  - apply (safe_for _ _ (Forall ok_rest)); [| constructor].
    intros [i ln] line_solns Hin HI. eapply safe_bind.
    + apply (safe_for _ _ ok_rest).
      * intros elt acc Helt Hacc. eapply safe_weaken; [| apply ok_value_rest].
        apply Hrec; [| exact Hacc].
        apply enumerate_elem_of in Hin.
        rewrite Forall_forall in Hlines. specialize (Hlines _ Hin).
        rewrite Forall_forall in Hlines. apply Hlines.
        by apply elem_of_reverse.
      * destruct (Z.of_nat i <? _); [apply ok_rest_None | exact Hrest].
    + intros v Hv. apply safe_ret. apply Forall_app.
      split; [exact HI | by constructor].
  - intros line_solns Hls. eapply safe_bind; [apply safe_deref |].
    intros soln Hsoln. apply safe_ret. eexists.
    split; [reflexivity |]. apply PlusConst_ok.
    eapply VSumSolution_ok; [| exact Hsoln]. by apply omap_id_ok.
Qed.

Lemma ChoiceBlock_safe (elements : list LayoutBlock)
    (rest_of_line : option Solution) :
  elements ≠ [] → Forall wf_block elements → ok_rest rest_of_line →
  safe (ChoiceBlock_DoOptLayout rec elements rest_of_line options) ok_value.
Proof.
  intros Hne Hwf Hrest h v h' Hh E. unfold ChoiceBlock_DoOptLayout in E.
  apply bind_ok_inv in E as (solns & h1 & E1 & E).
  apply bind_ok_inv in E as (solns' & h2 & E2 & E).
  inversion E; subst. clear E.
  assert (Hsafe : safe (mapM (λ e, rec e rest_of_line options) elements)
                       (Forall ok_value)).
  { apply safe_mapM. intros x Hx. apply Hrec; [| exact Hrest].
    rewrite Forall_forall in Hwf. by apply Hwf. }
  destruct (Hsafe h solns h1 Hh E1) as [_ Hh1].
  apply mapM_ok_length in E1.
  apply mapM_deref_inv in E2 as [-> ->].
  rewrite length_fmap in E1. split; [| exact Hh1].
  destruct solns' as [| s l].
  { destruct elements; [done | discriminate]. }
  eexists. split; [reflexivity |]. by apply lower_envelope_ok.
Qed.

Lemma StackBlock_safe (elements : list LayoutBlock) (break_mult : Qc)
    (rest_of_line : option Solution) :
  elements ≠ [] → Forall wf_block elements → ok_rest rest_of_line →
  safe (StackBlock_DoOptLayout rec elements break_mult rest_of_line options)
       ok_value.
Proof.
  intros Hne Hwf Hrest. unfold StackBlock_DoOptLayout.
  destruct elements as [| e0 es] eqn:Ee; [done |]. rewrite <- Ee in *.
  eapply safe_bind.
  { apply (safe_mapM _ _ ok_value). intros x Hx. apply Hrec; [| apply ok_rest_None].
    rewrite Forall_forall in Hwf. apply Hwf.
    unfold but_last in Hx. by eapply subseteq_take. }
  intros firsts Hfirsts. eapply safe_bind.
  { eapply safe_bind; [apply safe_getitem_last |].
    intros e He. apply Hrec; [| exact Hrest].
    rewrite Forall_forall in Hwf. apply Hwf.
    rewrite last_lookup in He. by eapply list_elem_of_lookup_2. }
  intros final Hfinal h v h' Hh E.
  apply bind_ok_inv in E as (solns & h1 & E1 & E).
  apply mapM_deref_inv in E1 as [E1 ->].
  assert (Hall : Forall sol_ok solns).
  { apply ok_values_some. rewrite <- E1. apply Forall_app.
    split; [exact Hfirsts | by constructor]. }
  destruct solns as [| s0 later].
  { destruct firsts; discriminate. }
  cbn [VSumSolution] in E. inversion E; subst. split; [| exact Hh].
  eexists. split; [reflexivity |]. apply PlusConst_ok.
  inversion Hall; subst. by apply vsum_ok.
Qed.
(** Steps that cannot break the invariant, whatever they return. *)
Ltac safe_true :=
  repeat match goal with
  | |- safe (mret _) _ => apply safe_ret; try exact I
  | |- safe (raise _) _ => apply safe_raise
  | |- safe (getitem _ _) _ => eapply safe_weaken; [apply safe_getitem | done]
  | |- safe (assert _) _ => eapply safe_weaken; [apply safe_assert | done]
  | |- safe (deref _) _ => eapply safe_weaken; [apply safe_deref | done]
  | |- safe (mapM deref _) _ =>
      eapply safe_weaken;
      [ apply (safe_mapM _ _ (λ _, True)); intros;
        eapply safe_weaken; [apply safe_deref | done]
      | done ]
  | |- safe (_ ≫= _) _ => eapply (safe_bind _ _ (λ _, True)); [| intros ? _]
  | |- safe (if ?c then _ else _) _ => destruct c
  | |- safe (match ?x with _ => _ end) _ => destruct x
  end.

Lemma wrap_inner_safe (elements : list LayoutBlock) (break_mult : Qc)
    (sep_layout : option Solution) (elt_layouts ws : list (option Solution))
    (j : nat) (st : inner_state) :
  safe (wrap_inner elements break_mult options sep_layout elt_layouts ws j st)
       (λ _, True).
Proof. unfold wrap_inner. safe_true. Qed.

Lemma wrap_outer_safe (elements : list LayoutBlock) (break_mult : Qc)
    (rest_of_line sep_layout prefix_layout : option Solution)
    (elt_layouts ws : list (option Solution)) (i : nat) :
  Forall ok_rest ws →
  safe (wrap_outer elements break_mult rest_of_line options sep_layout
                   prefix_layout elt_layouts i ws)
       (Forall ok_rest).
Proof.
  intros Hws. unfold wrap_outer.
  eapply (safe_bind _ _ (λ _, True)); [safe_true |]. intros elt _.
  eapply (safe_bind _ _ (λ _, True)); [safe_true |]. intros first _.
  eapply (safe_bind _ _ (λ _, True)).
  { eapply safe_weaken; [| done].
    apply (safe_for_else _ _ (λ _, True)); [| done].
    intros x st _ _. eapply safe_weaken; [apply wrap_inner_safe | done]. }
  intros [[[solutions_i line_layout] lb] broke] _.
  eapply (safe_bind _ _ (λ _, True)); [safe_true |]. intros solutions_i' _.
  apply safe_ret. apply Forall_insert; [exact Hws |].
  intros s Es. by eapply MinSolution_ok.
Qed.

Lemma wrap_program_safe (elements : list LayoutBlock) (break_mult : Qc)
    (rest_of_line sep_layout prefix_layout : option Solution)
    (elt_layouts : list (option Solution)) :
  safe (wrap_program elements break_mult rest_of_line options sep_layout
                     prefix_layout elt_layouts)
       ok_value.
Proof.
  unfold wrap_program. eapply safe_bind.
  { apply (safe_for _ _ (Forall ok_rest)).
    - intros i ws _ Hws. by apply wrap_outer_safe.
    - apply Forall_replicate, ok_rest_None. }
  intros ws Hws. eapply safe_bind; [apply safe_getitem |].
  intros result Hres. eapply safe_bind; [apply safe_assert |].
  intros u Ha. apply safe_ret.
  apply bool_decide_eq_true in Ha as [s ->].
  exists s. split; [reflexivity |].
  rewrite Forall_forall in Hws. apply (Hws (Some s)); [| reflexivity].
  by eapply list_elem_of_lookup_2.
Qed.

Lemma TextBlock_new_safe (text : string) (br : bool) :
  safe (TextBlock_new text br) wf_block.
Proof.
  unfold TextBlock_new. eapply safe_bind; [apply safe_new_object |].
  intros self _. apply safe_ret. constructor.
Qed.

Lemma WrapBlock_safe (elements : list LayoutBlock) (sep : string)
    (break_mult : Qc) (prefix : option string)
    (rest_of_line : option Solution) :
  Forall wf_block elements →
  safe (WrapBlock_DoOptLayout rec elements sep break_mult prefix rest_of_line
                              options)
       ok_value.
Proof.
  intros Hwf. unfold WrapBlock_DoOptLayout.
  eapply safe_bind; [apply TextBlock_new_safe |]. intros sep_block Hsep.
  eapply safe_bind; [apply Hrec; [exact Hsep | apply ok_rest_None] |].
  intros sep_layout _.
  eapply (safe_bind _ _ (λ _, True)); [safe_true |]. intros _ _.
  eapply (safe_bind _ _ (λ _, True)).
  { destruct prefix as [[| a p] |]; [safe_true | | safe_true].
    eapply safe_bind; [apply TextBlock_new_safe |]. intros; safe_true. }
  intros prefix_layout _.
  eapply (safe_bind _ _ (λ _, True)).
  { eapply safe_weaken; [| done].
    apply (safe_mapM _ _ ok_value). intros x Hx.
    apply Hrec; [| apply ok_rest_None].
    rewrite Forall_forall in Hwf. by apply Hwf. }
  intros elt_layouts _. apply wrap_program_safe.
Qed.

Lemma interleave_wf (elements : list LayoutBlock) (joiner : LayoutBlock)
    (join_breaking : bool) :
  Forall wf_block elements → wf_block joiner →
  Forall wf_block (interleave elements joiner join_breaking).
Proof.
  intros Hwf Hj. induction Hwf as [| e es He _ IH]; [constructor |].
  cbn [interleave]. destruct es as [| e' es']; [by repeat constructor |].
  constructor; [exact He |]. apply Forall_app. split; [| exact IH].
  destruct (negb (is_breaking e) || join_breaking); by repeat constructor.
Qed.

Lemma interleave_nonempty (elements : list LayoutBlock) (joiner : LayoutBlock)
    (join_breaking : bool) :
  elements ≠ [] → interleave elements joiner join_breaking ≠ [].
Proof. destruct elements as [| e [| e' es]]; done. Qed.

Lemma LineBlock_new_safe (joined : list LayoutBlock) :
  joined ≠ [] → Forall wf_block joined →
  safe (LineBlock_new (PyBlock <$> joined)) wf_block.
Proof.
  intros Hne Hwf h b h' Hh E. unfold LineBlock_new in E.
  apply bind_ok_inv in E as ([[self br] es] & h1 & E1 & E).
  inversion E; subst. clear E.
  unfold CompositeLayoutBlock_init in E1.
  apply bind_ok_inv in E1 as (o & h0 & Eo & E1).
  destruct (safe_new_object h o h0 Hh Eo) as [_ Hh0].
  destruct (PyBlock <$> joined) as [| x xs] eqn:Ej.
  { destruct joined; [done | discriminate]. }
  rewrite <- Ej in E1. apply bind_ok_inv in E1 as (es' & h2 & E2 & E1).
  rewrite check_elements_blocks in E2. inversion E2; subst.
  inversion E1; subst. split; [| exact Hh0]. by constructor.
Qed.

Lemma JoinedLineBlock_safe (elements : list LayoutBlock)
    (joiner : string + LayoutBlock) (join_breaking : bool)
    (rest_of_line : option Solution) :
  elements ≠ [] → Forall wf_block elements →
  (∀ b, joiner = inr b → wf_block b) → ok_rest rest_of_line →
  safe (JoinedLineBlock_DoOptLayout rec elements joiner join_breaking
                                    rest_of_line options)
       ok_value.
Proof.
  intros Hne Hwf Hj Hrest. unfold JoinedLineBlock_DoOptLayout.
  destruct elements as [| e1 [| e2 es]]; [done | |].
  { apply Hrec; [| exact Hrest]. by inversion Hwf. }
  unfold JoinedLineBlock_CompositeOptLayout.
  eapply (safe_bind _ _ wf_block).
  { destruct joiner as [s | b]; [apply TextBlock_new_safe |].
    apply safe_ret. by apply Hj. }
  intros j Hjwf. cbv zeta.
  eapply (safe_bind _ _ (λ l, l = interleave (e1 :: e2 :: es) j join_breaking)).
  { intros h l h' Hh E. rewrite joined_elements_spec in E by done.
    inversion E; subst. done. }
  intros joined ->.
  eapply safe_bind.
  { apply LineBlock_new_safe.
    - by apply interleave_nonempty.
    - by apply interleave_wf. }
  intros block Hblock. by apply Hrec.
Qed.

Lemma DoOptLayout_safe (self : LayoutBlock) (rest_of_line : option Solution) :
  wf_block self → ok_rest rest_of_line →
  safe (DoOptLayout rec self rest_of_line options) ok_value.
Proof.
  intros Hwf Hrest. destruct Hwf; cbn [DoOptLayout].
  - apply safe_ret. eexists. split; [reflexivity |]. apply TextBlock_ok.
  - eapply safe_bind; [apply VerbBlock_safe, Hvalid |].
    intros s Hs. apply safe_ret. by exists s.
  - by apply LineBlock_safe.
  - by apply ChoiceBlock_safe.
  - by apply StackBlock_safe.
  - by apply WrapBlock_safe.
  - by apply JoinedLineBlock_safe.
Qed.
End Safety.

Lemma memoised_safe (self : oid) (m : M (option Solution))
    (rest_of_line : option Solution) :
  safe m ok_value → safe (memoised self m rest_of_line) ok_value.
Proof.
  intros Hm. unfold memoised.
  eapply safe_bind; [apply safe_cache_of |]. intros c Hc.
  eapply (safe_bind _ _ (λ _, True)).
  { destruct (bool_decide _); [by apply safe_ret |].
    eapply safe_bind; [exact Hm |]. intros soln Hsoln.
    by apply safe_cache_store. }
  intros _ _. eapply safe_bind; [apply safe_cache_of |]. intros c' Hc'.
  eapply safe_weaken; [apply safe_getkey |]. intros v Hv.
  cbn beta in Hc', Hv. exact (Hc' _ _ Hv).
Qed.

(** From a heap whose memoised values are well-formed solutions, a
    well-formed block under valid options returns a well-formed solution
    and leaves such a heap. *)
Lemma OptLayout_safe (options : Options) (fuel : nat) :
  valid_options options → hook_ok options →
  ∀ (self : LayoutBlock) (rest_of_line : option Solution),
    wf_block self → ok_rest rest_of_line →
    safe (OptLayout fuel self rest_of_line options) ok_value.
Proof.
  intros Hvalid Hhook. induction fuel as [| fuel IH]; intros self rest Hwf Hrest.
  - apply safe_out_of_fuel.
  - cbn [OptLayout]. apply memoised_safe.
    by apply DoOptLayout_safe.
Qed.

(** ** Enough fuel *)

Lemma returns_ret {A} (a : A) : returns (mret a : M A).
Proof. intros h. discriminate. Qed.

Lemma returns_raise {A} (e : exn) : returns (raise e : M A).
Proof. intros h. discriminate. Qed.

Lemma returns_bind {A B} (m : M A) (f : A → M B) :
  returns m → (∀ a h h', m h = (Ok a, h') → returns (f a)) →
  returns (m ≫= f).
Proof.
  intros Hm Hf h. rewrite run_bind. specialize (Hm h).
  destruct (m h) as [[a | e |] h1] eqn:E; cbn [fst] in *.
  - by eapply Hf.
  - discriminate.
  - done.
Qed.

Lemma returns_mapM {A B} (f : A → M B) (l : list A) :
  (∀ x, x ∈ l → returns (f x)) → returns (mapM f l).
Proof.
  induction l as [| x l IH]; intros Hf; [apply returns_ret |].
  rewrite mapM_cons. apply returns_bind; [apply Hf; by left |].
  intros y _ _ _. apply returns_bind.
  - apply IH. intros z Hz. apply Hf. by right.
  - intros k _ _ _. apply returns_ret.
Qed.

Lemma returns_for {A S} (xs : list A) (body : A → S → M S) (s : S) :
  (∀ x s, x ∈ xs → returns (body x s)) → returns (for_ xs body s).
Proof.
  revert s. induction xs as [| x xs IH]; intros s Hb; [apply returns_ret |].
  cbn [for_]. apply returns_bind; [apply Hb; by left |].
  intros s' _ _ _. apply IH. intros y t Hy. apply Hb. by right.
Qed.

Lemma returns_for_else {A S} (xs : list A) (body : A → S → M (S * bool))
    (s : S) :
  (∀ x s, x ∈ xs → returns (body x s)) → returns (for_else xs body s).
Proof.
  revert s. induction xs as [| x xs IH]; intros s Hb; [apply returns_ret |].
  cbn [for_else]. apply returns_bind; [apply Hb; by left |].
  intros [s' broke] _ _ _. destruct broke; [apply returns_ret |].
  apply IH. intros y t Hy. apply Hb. by right.
Qed.

Lemma returns_new_object : returns new_object.
Proof. intros h. discriminate. Qed.

Lemma returns_cache_of (o : oid) : returns (cache_of o).
Proof. intros h. discriminate. Qed.

Lemma returns_cache_store (o : oid) (key v : option Solution) :
  returns (cache_store o key v).
Proof. intros h. discriminate. Qed.

(** Code without recursive calls. *)
Ltac returns_auto :=
  repeat match goal with
  | |- returns (mret _) => apply returns_ret
  | |- returns (raise _) => apply returns_raise
  | |- returns new_object => apply returns_new_object
  | |- returns (cache_of _) => apply returns_cache_of
  | |- returns (cache_store _ _ _) => apply returns_cache_store
  | |- returns (getitem _ _) => unfold getitem
  | |- returns (getitem_last _) => unfold getitem_last
  | |- returns (getkey _ _) => unfold getkey
  | |- returns (assert _) => unfold assert
  | |- returns (deref _) => unfold deref
  | |- returns (TextBlock_new _ _) => unfold TextBlock_new
  | |- returns (Append _ _ _ _ _ _) => unfold Append
  | |- returns (mapM deref _) => apply returns_mapM; intros ? _
  | |- returns (_ ≫= _) => apply returns_bind; [| intros ? _ _ _]
  | |- returns (if ?c then _ else _) => destruct c
  | |- returns (match ?x with _ => _ end) => destruct x
  end.

Lemma memoised_returns (self : oid) (m : M (option Solution))
    (rest_of_line : option Solution) :
  returns m → returns (memoised self m rest_of_line).
Proof.
  intros Hm. unfold memoised.
  apply returns_bind; [apply returns_cache_of |]. intros c _ _ _.
  apply returns_bind.
  { destruct (bool_decide _); [apply returns_ret |].
    apply returns_bind; [exact Hm |]. intros; apply returns_cache_store. }
  intros; returns_auto.
Qed.

Lemma VerbBlock_returns (lines : list string) (first_nl : bool)
    (rest_of_line : option Solution) (options : Options) :
  returns (VerbBlock_DoOptLayout lines first_nl rest_of_line options).
Proof. unfold VerbBlock_DoOptLayout. returns_auto. Qed.

Lemma wrap_program_returns (elements : list LayoutBlock) (break_mult : Qc)
    (rest_of_line : option Solution) (options : Options)
    (sep_layout prefix_layout : option Solution)
    (elt_layouts : list (option Solution)) :
  returns (wrap_program elements break_mult rest_of_line options sep_layout
                        prefix_layout elt_layouts).
Proof.
  unfold wrap_program. apply returns_bind; [| intros; returns_auto].
  apply returns_for. intros i ws _. unfold wrap_outer.
  apply returns_bind; [returns_auto |]. intros elt _ _ _.
  apply returns_bind; [returns_auto |]. intros first _ _ _.
  apply returns_bind.
  { apply returns_for_else. intros j st _. unfold wrap_inner. returns_auto. }
  intros [[[solutions_i line_layout] lb] broke] _ _ _. returns_auto.
Qed.

Lemma max_depth_elem (es : list LayoutBlock) (e : LayoutBlock) :
  e ∈ es → (depth e ≤ max_depth es)%nat.
Proof.
  induction 1 as [e es | e e' es _ IH]; cbn [max_depth foldr].
  - lia.
  - unfold max_depth in IH. lia.
Qed.

Lemma max_depth_bound (es : list LayoutBlock) (k : nat) :
  Forall (λ e, depth e ≤ k)%nat es → (max_depth es ≤ k)%nat.
Proof.
  induction 1 as [| e es He _ IH]; cbn [max_depth foldr]; [lia |].
  unfold max_depth in IH. lia.
Qed.

Lemma element_lines_of_elem (es : list LayoutBlock) :
  Forall (Forall (λ e, e ∈ es)) (element_lines_of es).
Proof.
  induction es as [| e es IH]; [by repeat constructor |].
  assert (IH' : Forall (Forall (λ x, x ∈ e :: es)) (element_lines_of es)).
  { eapply Forall_impl; [exact IH |]. intros ln Hln.
    eapply Forall_impl; [exact Hln |]. intros x Hx. by right. }
  destruct es as [| e' es'].
  { repeat constructor. }
  rewrite element_lines_of_cons. destruct (is_breaking e).
  - constructor; [| exact IH']. repeat constructor.
  - destruct (element_lines_of (e' :: es')) as [| ln lns].
    + repeat constructor.
    + inversion IH'; subst. constructor; [| done].
      constructor; [by left | done].
Qed.

Lemma interleave_elem (es : list LayoutBlock) (joiner : LayoutBlock)
    (join_breaking : bool) :
  Forall (λ e, e ∈ es ∨ e = joiner) (interleave es joiner join_breaking).
Proof.
  induction es as [| e es IH]; [constructor |].
  assert (IH' : Forall (λ x, x ∈ e :: es ∨ x = joiner)
                       (interleave es joiner join_breaking)).
  { eapply Forall_impl; [exact IH |]. intros x [Hx | Hx]; [left; by right | by right]. }
  cbn [interleave]. destruct es as [| e' es'].
  { constructor; [left; by left | constructor]. }
  constructor; [left; by left |]. apply Forall_app. split; [| exact IH'].
  destruct (negb (is_breaking e) || join_breaking);
    [constructor; [by right | constructor] | constructor].
Qed.

Lemma LineBlock_new_blocks (l : list LayoutBlock) (b : LayoutBlock)
    (h h' : heap) :
  LineBlock_new (PyBlock <$> l) h = (Ok b, h') →
  ∃ o br, b = LineBlock o br l.
Proof.
  unfold LineBlock_new. intros E.
  apply bind_ok_inv in E as ([[self br] es] & h1 & E1 & E).
  inversion E; subst. clear E.
  unfold CompositeLayoutBlock_init in E1.
  apply bind_ok_inv in E1 as (o & h0 & Eo & E1).
  destruct (PyBlock <$> l) as [| x xs] eqn:El; [discriminate |].
  rewrite <- El in E1. apply bind_ok_inv in E1 as (es' & h2 & E2 & E1).
  rewrite check_elements_blocks in E2. inversion E2; subst.
  inversion E1; subst. eauto.
Qed.

Section EnoughFuel.
Variable rec : LayoutBlock → option Solution → Options → M (option Solution).
Variable options : Options.
Variable n : nat.
Hypothesis Hhook : break_element_lines options = None.
Hypothesis Hrec : ∀ b rest, (depth b < n)%nat → returns (rec b rest options).

Lemma children_return (es : list LayoutBlock) (rest : option Solution)
    (e : LayoutBlock) :
  (S (max_depth es) ≤ n)%nat → e ∈ es → returns (rec e rest options).
Proof.
  intros Hd He. apply Hrec. apply max_depth_elem in He. lia.
Qed.

Lemma DoOptLayout_returns (self : LayoutBlock) (rest_of_line : option Solution) :
  (depth self ≤ n)%nat → returns (DoOptLayout rec self rest_of_line options).
Proof.
  destruct self as [o br text | o br lines first_nl | o br es | o br es
                    | o br es bm | o br es sep bm prefix | o br es joiner jb];
    cbn [depth DoOptLayout]; intros Hd; try fold (max_depth es) in Hd.
  - apply returns_ret.
  - apply returns_bind; [apply VerbBlock_returns |]. intros; apply returns_ret.
  - unfold LineBlock_DoOptLayout. destruct es as [| e0 es']; [returns_auto |].
    rewrite split_element_lines_spec, Hhook.
    pose proof (element_lines_of_elem (e0 :: es')) as Hlines.
    set (lines := element_lines_of (e0 :: es')) in *. cbv zeta.
    apply returns_bind; [| intros; returns_auto].
    apply returns_for. intros [i ln] line_solns Hin.
    apply returns_bind; [| intros; apply returns_ret].
    apply returns_for. intros elt acc Helt.
    apply (children_return (e0 :: es')); [exact Hd |].
    apply enumerate_elem_of in Hin.
    rewrite Forall_forall in Hlines. specialize (Hlines _ Hin).
    rewrite Forall_forall in Hlines. apply Hlines. by apply elem_of_reverse.
  - unfold ChoiceBlock_DoOptLayout.
    apply returns_bind; [| intros; returns_auto].
    apply returns_mapM. intros x Hx. by apply (children_return es).
  - unfold StackBlock_DoOptLayout. destruct es as [| e0 es'] eqn:Ee;
      [returns_auto |]. rewrite <- Ee in *.
    apply returns_bind.
    { apply returns_mapM. intros x Hx. apply (children_return es); [exact Hd |].
      unfold but_last in Hx. by eapply subseteq_take. }
    intros firsts _ _ _. apply returns_bind; [| intros; returns_auto].
    apply returns_bind; [returns_auto |].
    intros e h h' He. apply (children_return es); [exact Hd |].
    unfold getitem_last in He. destruct (last es) as [x |] eqn:El;
      [| discriminate].
    inversion He; subst. rewrite last_lookup in El.
    by eapply list_elem_of_lookup_2.
  - unfold WrapBlock_DoOptLayout.
    apply returns_bind; [returns_auto |].
    intros sep_block h h' Hs.
    assert (Hsep : depth sep_block = 0%nat).
    { unfold TextBlock_new in Hs.
      apply bind_ok_inv in Hs as (o' & h1 & _ & Hs). by inversion Hs. }
    apply returns_bind; [apply Hrec; lia |]. intros sep_layout _ _ _.
    apply returns_bind; [returns_auto |]. intros _ _ _ _.
    apply returns_bind; [destruct prefix as [[| a p] |]; returns_auto |].
    intros prefix_layout _ _ _.
    apply returns_bind; [| intros; apply wrap_program_returns].
    apply returns_mapM. intros x Hx. by apply (children_return es).
  - unfold JoinedLineBlock_DoOptLayout.
    destruct es as [| e1 [| e2 es']].
    + apply returns_bind; [returns_auto |]. intros b h h' Hb.
      apply Hrec. unfold TextBlock_new in Hb.
      apply bind_ok_inv in Hb as (o' & h1 & _ & Hb). inversion Hb; subst.
      cbn [depth]. lia.
    + apply Hrec. cbn [max_depth foldr] in Hd. lia.
    + unfold JoinedLineBlock_CompositeOptLayout.
      apply returns_bind; [destruct joiner; returns_auto |].
      intros j h h' Hj. cbv zeta.
      assert (Hjd : (depth j ≤ match joiner with
                                | inr j' => depth j'
                                | inl _ => 0
                                end)%nat).
      { destruct joiner as [s | b].
        - unfold TextBlock_new in Hj.
          apply bind_ok_inv in Hj as (o' & h1 & _ & Hj). by inversion Hj.
        - by inversion Hj. }
      apply returns_bind.
      { unfold joined_elements. returns_auto. }
      intros joined h1 h1' Hjoined.
      rewrite joined_elements_spec in Hjoined by done.
      inversion Hjoined; subst. clear Hjoined.
      apply returns_bind.
      { unfold LineBlock_new, CompositeLayoutBlock_init. returns_auto.
        apply returns_mapM. intros x _. returns_auto. }
      intros block h2 h2' Hblock.
      apply LineBlock_new_blocks in Hblock as (o' & br' & ->).
      apply Hrec.
      change (S (max_depth (interleave (e1 :: e2 :: es') j jb)) < n)%nat.
      assert (Hm : (max_depth (interleave (e1 :: e2 :: es') j jb)
                    ≤ max_depth (e1 :: e2 :: es') `max` depth j)%nat).
      { apply max_depth_bound.
        eapply Forall_impl; [apply interleave_elem |].
        intros x [Hx | ->]; [apply max_depth_elem in Hx |]; lia. }
      lia.
Qed.
End EnoughFuel.

(** With no hook in the options, a budget above the depth of the tree is
    enough: the call returns a value or raises. *)
Lemma OptLayout_returns (options : Options) (fuel : nat) :
  break_element_lines options = None →
  ∀ (self : LayoutBlock) (rest_of_line : option Solution),
    (depth self < fuel)%nat →
    returns (OptLayout fuel self rest_of_line options).
Proof.
  intros Hhook. induction fuel as [| fuel IH]; intros self rest Hd; [lia |].
  cbn [OptLayout]. apply memoised_returns.
  apply (DoOptLayout_returns _ options fuel Hhook IH). lia.
Qed.

Lemma Render_returns (options : Options) (fuel : nat) (self : LayoutBlock) :
  break_element_lines options = None → (depth self < fuel)%nat →
  returns (Render fuel self options).
Proof.
  intros Hhook Hd. unfold Render, PrintOn.
  apply returns_bind; [by apply OptLayout_returns |].
  intros [soln |] _ _ _; returns_auto.
Qed.

(** ** A choice with one alternative *)

Lemma index_from_positive (ks : list Z) (i best : nat) :
  Forall (λ k, 0 < k) ks → index_from i best ks 0 = best.
Proof.
  intros H. revert i. induction H as [| k ks Hk _ IH]; intros i; [reflexivity |].
  cbn [index_from]. replace (k <=? 0) with false by (symmetry; apply Z.leb_gt; lia).
  apply IH.
Qed.

Lemma LayoutAt_0 (s : Solution) :
  sol_ok s → ∃ l, layouts s !! 0%nat = Some l ∧ LayoutAt s 0 = l.
Proof.
  intros ((ks & Hk & Hpos) & _ & _ & _ & Hl).
  unfold LayoutAt, index_at. rewrite Hk in *. cbn [index_from].
  rewrite index_from_positive by exact Hpos. cbn [Z.leb Z.compare].
  destruct (layouts s) as [| l ls]; [discriminate |].
  exists l. done.
Qed.

Lemma sweep_single_head (s : Solution) (fuel : nat) (k_l : Z) (hi : option Z) :
  ∃ ps, (sweep fuel [s] k_l hi None).1
        = Piece k_l (SpanAt s k_l) (ValueAt s k_l) (GradientAt s k_l)
                (LayoutAt s k_l) :: ps.
Proof.
  destruct fuel as [| fuel]; cbn [sweep cands_at imap argmin]; cbn zeta;
    (destruct (decide (None = Some _)); [discriminate |]).
  - eexists. reflexivity.
  - destruct (next_crossing _ _ _ _).
    + destruct (sweep fuel [s] _ hi _) as [ps last']. eexists. reflexivity.
    + eexists. reflexivity.
Qed.

Lemma lower_envelope_single_layout (s : Solution) :
  layouts (lower_envelope [s]) !! 0%nat = Some (LayoutAt s 0).
Proof.
  unfold lower_envelope.
  destruct (merged_knots [s]) as [| k later]; cbn [envelope].
  - destruct (sweep_single_head s (length [s]) 0 None) as [ps ->].
    reflexivity.
  - destruct (sweep_single_head s (length [s]) 0 (Some k)) as [ps Hs].
    destruct (sweep (length [s]) [s] 0 (Some k) None) as [ps0 last'].
    cbn [fst] in Hs. subst ps0. reflexivity.
Qed.

Lemma memoised_miss (self : oid) (m : M (option Solution))
    (rest_of_line : option Solution) (h : heap) :
  default ∅ (caches h !! self) !! rest_of_line = None →
  (memoised self m rest_of_line h).1 = (m h).1.
Proof.
  intros Hmiss. unfold memoised. rewrite run_bind. unfold cache_of at 1.
  cbn beta iota. rewrite Hmiss.
  rewrite bool_decide_eq_false_2 by (intros [? ?]; discriminate).
  rewrite !run_bind.
  destruct (m h) as [[v | e |] h1]; try reflexivity.
  unfold cache_store, cache_of, getkey. cbn beta iota.
  rewrite run_bind. cbn beta iota. cbn [caches].
  rewrite lookup_insert_eq. cbn [default from_option]. unfold id.
  rewrite lookup_insert_eq. reflexivity.
Qed.

Lemma PrintOn_printed (fuel : nat) (self : LayoutBlock) (options : Options)
    (outp : string) (h : heap) :
  (PrintOn fuel self options outp h).1
  = printed outp (OptLayout fuel self None options h).1.
Proof.
  unfold PrintOn. rewrite run_bind.
  destruct (OptLayout fuel self None options h) as [[[soln |] | e |] h1];
    try reflexivity.
  cbn [fst printed]. rewrite run_bind. unfold getitem.
  destruct (layouts soln !! 0%nat); reflexivity.
Qed.

(** C8.  For every block tree [t] built by the constructors, every valid
    options value and every newly built [ChoiceBlock([t])] (its memo has no
    entry for [None]), [Render] of the choice gives the same outcome as
    [Render] of [t]: the same output, character for character, when [t]
    renders, and the same exception when it raises.  The heap is one whose
    memoised values are well-formed solutions, as every heap produced by the
    optimiser is, and a hook in the options hands back blocks built by the
    constructors.  Without a hook, a recursion budget above the depth of [t]
    is enough for [Render] to answer. *)
Theorem C8_choice_of_one (fuel : nat) (t : LayoutBlock) (options : Options)
    (self : oid) (br : bool) (h : heap) :
  valid_options options → hook_ok options → wf_block t → heap_ok h →
  default ∅ (caches h !! self) !! None = None →
  (Render (S fuel) (ChoiceBlock self br [t]) options h).1
  = (Render fuel t options h).1
  ∧ (break_element_lines options = None → (depth t < fuel)%nat →
     (Render fuel t options h).1 ≠ OutOfFuel).
Proof.
  intros Hvalid Hhook Hwf Hh Hmiss.
  split; [| intros Hnone Hd; by apply Render_returns].
  unfold Render.
  rewrite !PrintOn_printed. cbn [OptLayout oid_of].
  rewrite memoised_miss by exact Hmiss.
  cbn [DoOptLayout]. unfold ChoiceBlock_DoOptLayout.
  rewrite run_bind, mapM_cons, run_bind.
  pose proof (OptLayout_safe options fuel Hvalid Hhook t None Hwf ok_rest_None h)
    as Hsafe.
  destruct (OptLayout fuel t None options h) as [[v | e |] h1];
    try reflexivity.
  destruct (Hsafe v h1 Hh eq_refl) as [(s & -> & Hs) _].
  cbn [mapM]. rewrite run_bind, run_ret, run_ret. cbn beta iota.
  rewrite run_bind.
  change (mapM deref [Some s] h1) with (Ok [s], h1). cbn beta iota.
  rewrite run_ret. cbn [fst printed MinSolution].
  rewrite lower_envelope_single_layout.
  destruct (LayoutAt_0 s Hs) as (l & -> & ->). reflexivity.
Qed.

(** ** Instances *)

Lemma C2_construction_errors_witness :
  construct (KStack 1%Qc) [PyBlock text_a; PyOther "1"] fresh_heap
  = (Raise TypeError, allocated fresh_heap).
Proof.
  apply (proj1 (proj2 (C2_construction_errors (KStack 1%Qc) fresh_heap))).
  right. left. reflexivity.
Defined.

Lemma C4_line_layout_witness :
  LineBlock_DoOptLayout (OptLayout 1) [text_b; text_a] None default_options
                        fresh_heap
  = lines_layout (OptLayout 1) [[text_b]; [text_a]] None default_options
                 fresh_heap.
Proof.
  apply (C4_line_layout (OptLayout 1) [text_b; text_a] None default_options
                        fresh_heap).
  discriminate.
Defined.

Lemma C5_stack_layout_witness :
  StackBlock_DoOptLayout (OptLayout 1) [text_a; text_b] 1%Qc None
                         default_options fresh_heap
  = stack_layout (OptLayout 1) [text_a; text_b] 1%Qc None default_options
                 fresh_heap.
Proof.
  apply (C5_stack_layout (OptLayout 1) [text_a; text_b] 1%Qc None
                         default_options fresh_heap).
  simpl. lia.
Defined.

Lemma C6_memoised_second_call_witness :
  ∃ v h1,
    OptLayout 1 text_a None default_options fresh_heap = (Ok v, h1)
    ∧ ∀ again : M (option Solution),
        memoised (oid_of text_a) again None h1 = (Ok v, h1).
Proof.
  destruct (OptLayout 1 text_a None default_options fresh_heap)
    as [[v | e |] h1] eqn:E; [| vm_compute in E; discriminate E ..].
  exists v, h1. split; [reflexivity |].
  exact (proj1 (proj2 (C6_memoised_second_call 1 text_a None default_options
                                               v fresh_heap h1 E))).
Defined.

Lemma C10_joiner_placement_witness :
  JoinedLineBlock_DoOptLayout (OptLayout 2) [text_a; text_empty; text_b]
                              (inl " ") false None default_options fresh_heap
  = (j ← joiner_block (inl " ");
     self ← new_object;
     OptLayout 2 (LineBlock self true
                            (interleave [text_a; text_empty; text_b] j false))
               None default_options) fresh_heap.
Proof.
  apply (C10_joiner_placement (OptLayout 2) [text_a; text_empty; text_b]
                              (inl " ") false None default_options
                              fresh_heap).
  simpl. lia.
Defined.

Lemma default_options_valid : valid_options default_options.
Proof. repeat split; try done; by vm_compute. Qed.

Lemma no_hook_ok (options : Options) :
  break_element_lines options = None → hook_ok options.
Proof. intros E hook lines Eh. rewrite E in Eh. discriminate. Qed.

Lemma fresh_heap_ok : heap_ok fresh_heap.
Proof. intros o c key v Hc. done. Qed.

Lemma C9_verb_ignores_continuation_witness :
  DoOptLayout (OptLayout 0) (VerbBlock 1%positive true ["a"; "b"] false)
              (Some (TextBlock_DoOptLayout "x" None default_options))
              default_options fresh_heap
  = (Ok (Some (verb_solution default_options
                             (verb_layout ["a"; "b"] false))), fresh_heap).
Proof.
  apply (proj2 (C9_verb_ignores_continuation (OptLayout 0) 1%positive true
                  ["a"; "b"] false
                  (Some (TextBlock_DoOptLayout "x" None default_options))
                  default_options fresh_heap)).
  - exact default_options_valid.
  - reflexivity.
Defined.

Lemma C3_wrap_layout_witness :
  let sep := TextBlock_DoOptLayout " " None default_options in
  let sols := [TextBlock_DoOptLayout "a" None default_options;
               TextBlock_DoOptLayout "b" None default_options] in
  let h1 := (OptLayout 1 (TextBlock 4%positive false " ") None default_options
                       (allocated fresh_heap)).2 in
  let h2 := (mapM (λ e, OptLayout 1 e None default_options) [text_a; text_b]
                  h1).2 in
  WrapBlock_DoOptLayout (OptLayout 1) [text_a; text_b] " " 1%Qc None None
                        default_options fresh_heap
  = (Ok (wrap_table 1%Qc None default_options sep None
                    [(false, TextBlock_DoOptLayout "a" None default_options);
                     (true, TextBlock_DoOptLayout "b" None default_options)]
         !! 0%nat), h2).
Proof.
  intros sep sols h1 h2.
  apply (C3_wrap_layout (OptLayout 1) [text_a; text_b] " " 1%Qc None None
                        default_options sep sols fresh_heap h1 h2).
  - discriminate.
  - vm_compute. reflexivity.
  - vm_compute. reflexivity.
Defined.

Lemma C8_choice_of_one_witness :
  (Render 2 (ChoiceBlock 5%positive false [text_a]) default_options
          fresh_heap).1
  = (Render 1 text_a default_options fresh_heap).1
  ∧ (break_element_lines default_options = None → (depth text_a < 1)%nat →
     (Render 1 text_a default_options fresh_heap).1 ≠ OutOfFuel).
Proof.
  apply (C8_choice_of_one 1 text_a default_options 5%positive false fresh_heap).
  - exact default_options_valid.
  - apply no_hook_ok. reflexivity.
  - constructor.
  - exact fresh_heap_ok.
  - reflexivity.
Defined.

(** ** The scenarios of [tests/test_blocks.py] *)

Example text_block_basic :
  (test_text_block_basic "" true empty_heap).1 = Ok ""
  ∧ (test_text_block_basic "foobar" false empty_heap).1 = Ok "foobar"
  ∧ (test_text_block_basic "        " true empty_heap).1 = Ok "        ".
Proof. repeat split; vm_compute; reflexivity. Qed.

Example joined_line_block :
  (test_joined_line_block empty_heap).1 = Ok ("hello" +:+ nl +:+ "world !").
Proof. vm_compute. reflexivity. Qed.

(** The empty text keeps its place: a joiner on each side of it. *)
Example joined_line_keeps_empty_text :
  (joined_around_empty_text empty_heap).1 = Ok "a  b".
Proof. vm_compute. reflexivity. Qed.

Example stack_block_basic :
  (test_stack_block_basic empty_heap).1
  = Ok ("hello" +:+ nl +:+ "world" +:+ nl +:+ "!").
Proof. vm_compute. reflexivity. Qed.

Example choice_block :
  (test_choice_block options_105_125 empty_heap).1
  = Ok "hello beautiful world !"
  ∧ (test_choice_block options_margin_1_10 empty_heap).1
    = Ok ("hello" +:+ nl +:+ "beautiful" +:+ nl +:+ "world" +:+ nl +:+ "!").
Proof. split; vm_compute; reflexivity. Qed.

Example composite_block_asserts_elements :
  (LineBlock_new [] empty_heap).1 = Raise BlockUsageError.
Proof. reflexivity. Qed.

(** * Further properties *)

(** ** Construction *)

Lemma init_blocks (elements : list LayoutBlock) (h : heap) :
  elements ≠ [] →
  CompositeLayoutBlock_init (PyBlock <$> elements) h
  = (Ok (next_oid h,
         match last elements with Some e => is_breaking e | None => false end,
         elements), allocated h).
Proof.
  intros Hne. unfold CompositeLayoutBlock_init.
  rewrite run_bind. change (new_object h) with (Ok (next_oid h), allocated h).
  cbn beta iota.
  destruct elements as [|e es]; [done|].
  change (PyBlock <$> e :: es) with (PyBlock e :: (PyBlock <$> es)).
  cbn beta iota.
  change (PyBlock e :: (PyBlock <$> es)) with (PyBlock <$> e :: es).
  rewrite run_bind, check_elements_blocks. reflexivity.
Qed.

Lemma construct_built (k : composite_kind) (elements : list LayoutBlock)
    (h : heap) :
  elements ≠ [] →
  construct k (PyBlock <$> elements) h
  = (Ok (built k (next_oid h) elements), allocated h).
Proof.
  intros Hne.
  destruct k; unfold construct, built, LineBlock_new, ChoiceBlock_new,
    StackBlock_new, WrapBlock_new, JoinedLineBlock_new;
    rewrite run_bind, init_blocks by exact Hne; reflexivity.
Qed.

(** X1.  A constructor of a composite class that is given a non-empty list
    of blocks succeeds: the new block has a fresh identity and an empty
    memo, holds the given blocks in their order, and is breaking exactly
    when its last element is; the memo of no other object changes. *)
Theorem composite_construction (k : composite_kind)
    (elements : list LayoutBlock) (h : heap) :
  elements ≠ [] →
  ∃ b, construct k (PyBlock <$> elements) h = (Ok b, allocated h)
       ∧ b = built k (next_oid h) elements
       ∧ composite_elements b = Some elements
       ∧ (∀ e, last elements = Some e → is_breaking b = is_breaking e)
       ∧ caches (allocated h) !! oid_of b = Some ∅
       ∧ (∀ o, o ≠ oid_of b → caches (allocated h) !! o = caches h !! o).
Proof.
  intros Hne. exists (built k (next_oid h) elements).
  split; [apply construct_built, Hne|]. split; [reflexivity|].
  assert (Hoid : oid_of (built k (next_oid h) elements) = next_oid h)
    by (destruct k; reflexivity).
  split; [destruct k; reflexivity|].
  split; [intros e He; destruct k; cbn; rewrite He; reflexivity|].
  rewrite Hoid. split.
  - unfold allocated, new_object. cbn. apply lookup_insert_eq.
  - intros o Ho. apply allocated_caches, Ho.
Qed.

Lemma composite_construction_witness :
  ∃ b, construct KChoice (PyBlock <$> [text_a; text_b]) fresh_heap
       = (Ok b, allocated fresh_heap)
       ∧ b = ChoiceBlock 4%positive true [text_a; text_b].
Proof.
  destruct (composite_construction KChoice [text_a; text_b] fresh_heap)
    as (b & E & Hb & _); [discriminate|].
  exists b. split; [exact E | exact Hb].
Defined.

(** ** [extended] *)

(** X2.  [extended] builds a new block of the same class from the old
    elements followed by the new ones.  A [StackBlock] keeps its
    [break_mult]; a [WrapBlock] keeps [break_mult] and [prefix] and gets
    the separator [" "] whatever its own separator was; a
    [JoinedLineBlock] keeps its joiner and gets [join_breaking = False].
    A new element that is not a block is a [TypeError]; a [ChoiceBlock]
    has no such method. *)
Theorem extended_spec (self : LayoutBlock) (elements : list LayoutBlock)
    (new_elements : list LayoutBlock) (h : heap) :
  composite_elements self = Some elements → elements ≠ [] →
  let all := elements ++ new_elements in
  match self with
  | LineBlock _ _ _ =>
      extended self (PyBlock <$> new_elements) h
      = (Ok (built KLine (next_oid h) all), allocated h)
  | StackBlock _ _ _ break_mult =>
      extended self (PyBlock <$> new_elements) h
      = (Ok (built (KStack break_mult) (next_oid h) all), allocated h)
  | WrapBlock _ _ _ sep break_mult prefix =>
      extended self (PyBlock <$> new_elements) h
      = (Ok (built (KWrap " " break_mult prefix) (next_oid h) all),
         allocated h)
  | JoinedLineBlock _ _ _ joiner join_breaking =>
      extended self (PyBlock <$> new_elements) h
      = (Ok (built (KJoinedLine joiner false) (next_oid h) all), allocated h)
  | _ =>
      extended self (PyBlock <$> new_elements) h = (Raise AttributeError, h)
  end
  ∧ (∀ others, Exists (λ x, is_block x = false) others →
       match self with
       | ChoiceBlock _ _ _ =>
           extended self others h = (Raise AttributeError, h)
       | _ => extended self others h = (Raise TypeError, allocated h)
       end).
Proof.
  intros Hes Hne all.
  assert (Hall : all ≠ []).
  { unfold all. destruct elements; [done | discriminate]. }
  split.
  - destruct self as [| | | |? ? ? bm|? ? ? sp bm pf|? ? ? j jb];
      try discriminate Hes; cbn in Hes;
      injection Hes as ->; cbn [extended]; try reflexivity;
      rewrite <- fmap_app.
    + exact (construct_built KLine all h Hall).
    + exact (construct_built (KStack bm) all h Hall).
    + exact (construct_built (KWrap " " bm pf) all h Hall).
    + exact (construct_built (KJoinedLine j false) all h Hall).
  - intros others Hothers.
    assert (Hex : ∀ l : list PyObject,
              Exists (λ x, is_block x = false) (l ++ others))
      by (intros l; apply Exists_app; right; exact Hothers).
    destruct self; try discriminate Hes; cbn [extended]; try reflexivity;
      unfold LineBlock_new, StackBlock_new, WrapBlock_new,
        JoinedLineBlock_new;
      rewrite run_bind, init_other by apply Hex; reflexivity.
Qed.

Lemma extended_spec_witness :
  extended (WrapBlock 5%positive false [text_a] ", " 1%Qc (Some "# "))
           (PyBlock <$> [text_b]) fresh_heap
  = (Ok (WrapBlock 4%positive true [text_a; text_b] " " 1%Qc (Some "# ")),
     allocated fresh_heap).
Proof.
  exact (proj1 (extended_spec
                  (WrapBlock 5%positive false [text_a] ", " 1%Qc (Some "# "))
                  [text_a] [text_b] fresh_heap eq_refl
                  ltac:(discriminate))).
Defined.

(** ** [indented] and [optionally_indented] *)

Lemma TextBlock_new_run (text : string) (br : bool) (h : heap) :
  TextBlock_new text br h = (Ok (TextBlock (next_oid h) br text), allocated h).
Proof. reflexivity. Qed.

Lemma LineBlock_new_run (elements : list LayoutBlock) (h : heap) :
  elements ≠ [] →
  LineBlock_new (PyBlock <$> elements) h
  = (Ok (built KLine (next_oid h) elements), allocated h).
Proof. exact (construct_built KLine elements h). Qed.

Lemma indented_run (content : LayoutBlock) (indent : Z) (h : heap) :
  indented content indent h
  = (Ok (LineBlock (Pos.succ (next_oid h)) (is_breaking content)
                   [TextBlock (next_oid h) false (str_mul " " indent);
                    content]),
     allocated (allocated h)).
Proof.
  unfold indented. rewrite run_bind, TextBlock_new_run.
  exact (LineBlock_new_run
           [TextBlock (next_oid h) false (str_mul " " indent); content]
           (allocated h) ltac:(discriminate)).
Qed.

(** X3.  [optionally_indented] without a prefix, a content and a suffix
    raises [BlockUsageError]: its second alternative is a [LineBlock] of no
    element.  Otherwise it returns a [ChoiceBlock] of two alternatives: a
    [StackBlock] of the prefix, the content behind [indent] spaces and the
    suffix, and a [LineBlock] of the prefix, the content and the suffix,
    those that are given; a missing content is an empty [TextBlock] in the
    stack and is left out of the line. *)
Theorem optionally_indented_spec (prefix content suffix : option LayoutBlock)
    (indent : Z) (h : heap) :
  let given := omap id [prefix; content; suffix] in
  (given = [] →
   (optionally_indented prefix content suffix indent h).1
   = Raise BlockUsageError)
  ∧ (given ≠ [] →
     ∃ o o_stack o_line o_inner o_spaces o_empty br_stack br_line,
       let content_block := default (TextBlock o_empty false "") content in
       (optionally_indented prefix content suffix indent h).1
       = Ok (ChoiceBlock o br_line
               [StackBlock o_stack br_stack
                  (omap id
                     [prefix;
                      Some (LineBlock o_inner (is_breaking content_block)
                              [TextBlock o_spaces false (str_mul " " indent);
                               content_block]);
                      suffix])
                  1%Qc;
                LineBlock o_line br_line given])
       ∧ (∀ e, last given = Some e → br_line = is_breaking e)).
Proof.
  intros given. split.
  - intros Hg. destruct prefix, content, suffix; try discriminate Hg.
    reflexivity.
  - intros Hg. unfold optionally_indented.
    destruct content as [c|].
    + rewrite run_bind, run_ret. cbn beta iota.
      rewrite run_bind, indented_run. cbn beta iota.
      destruct prefix, suffix;
        eexists _, _, _, _, _, 1%positive, _, _;
        (split; [reflexivity|]);
        intros e He; injection He as <-; reflexivity.
    + rewrite run_bind, TextBlock_new_run. cbn beta iota.
      rewrite run_bind, indented_run. cbn beta iota.
      destruct prefix, suffix; try (exfalso; apply Hg; reflexivity);
        eexists _, _, _, _, _, (next_oid h), _, _;
        (split; [reflexivity|]);
        intros e He; injection He as <-; reflexivity.
Qed.

Lemma optionally_indented_spec_witness :
  ∃ o o_stack o_line o_inner o_spaces br_stack br_line,
    (optionally_indented (Some text_a) (Some text_b) None 2 fresh_heap).1
    = Ok (ChoiceBlock o br_line
            [StackBlock o_stack br_stack
               [text_a;
                LineBlock o_inner true [TextBlock o_spaces false "  "; text_b]]
               1%Qc;
             LineBlock o_line br_line [text_a; text_b]])
    ∧ br_line = true.
Proof.
  destruct (proj2 (optionally_indented_spec (Some text_a) (Some text_b) None
                     2 fresh_heap) ltac:(discriminate))
    as (o & o_stack & o_line & o_inner & o_spaces & o_empty & br_stack
        & br_line & E & Hbr).
  exists o, o_stack, o_line, o_inner, o_spaces, br_stack, br_line.
  split; [exact E | exact (Hbr text_b eq_refl)].
Defined.

(** ** Printed representations *)

Lemma string_app_length (s t : string) :
  String.length (s +:+ t) = (String.length s + String.length t)%nat.
Proof.
  induction s as [|c s IH]; [reflexivity|].
  change (S (String.length (s +:+ t))
          = S (String.length s + String.length t))%nat.
  rewrite IH. reflexivity.
Qed.

(** [s[:n]] is the beginning of [s], of length [n] when [s] is that long. *)
Lemma str_prefix_spec (n : nat) (s : string) :
  (∃ r, s = str_prefix n s +:+ r)
  ∧ String.length (str_prefix n s) = (n `min` String.length s)%nat.
Proof.
  unfold str_prefix. revert n.
  induction s as [|c s IH]; intros [|n]; cbn [substring String.length].
  - split; [exists ""; reflexivity | reflexivity].
  - split; [exists ""; reflexivity | reflexivity].
  - split; [exists (String c s); reflexivity | reflexivity].
  - destruct (IH n) as [[r Hr] Hlen]. split.
    + exists r. change (String c s = String c (substring 0 n s +:+ r)).
      f_equal. exact Hr.
    + rewrite Hlen. reflexivity.
Qed.

(** The part of [s] from position [k] on, when [m] characters reach its
    end. *)
Lemma substring_tail (s : string) :
  ∀ k m : nat,
    (k ≤ String.length s)%nat → (String.length s - k ≤ m)%nat →
    ∃ r, s = r +:+ substring k m s ∧ String.length r = k.
Proof.
  induction s as [|c s IH]; intros k m Hk Hm; cbn [String.length] in *.
  - exists "". destruct k; [|lia]. destruct m; split; reflexivity.
  - destruct k as [|k].
    + exists "". split; [|reflexivity].
      destruct m as [|m]; [lia|]. cbn [substring].
      destruct (IH 0%nat m ltac:(lia) ltac:(lia)) as (r & Hr & Hlen).
      destruct r; [|discriminate Hlen].
      change (String c s = String c (substring 0 m s)). f_equal. exact Hr.
    + destruct (IH k m ltac:(lia) ltac:(lia)) as (r & Hr & Hlen).
      exists (String c r). split; [|cbn; rewrite Hlen; reflexivity].
      cbn [substring]. change (String c s = String c (r +:+ substring k m s)).
      f_equal. exact Hr.
Qed.

(** [s[-n:]] is the end of [s], of length [n] when [s] is that long. *)
Lemma str_suffix_spec (n : nat) (s : string) :
  (∃ r, s = r +:+ str_suffix n s)
  ∧ String.length (str_suffix n s) = (n `min` String.length s)%nat.
Proof.
  unfold str_suffix.
  destruct (substring_tail s (String.length s - n) n ltac:(lia) ltac:(lia))
    as (r & Hr & Hlen).
  split; [exists r; exact Hr|].
  apply (f_equal String.length) in Hr.
  rewrite string_app_length, Hlen in Hr. lia.
Qed.

(** X4.  [repr] of a [VerbBlock] raises [IndexError] exactly when the block
    has no line.  Otherwise it is the beginning of the first line, three
    dots and the end of the last line, where the beginning and the end are
    three characters long, or the whole line when the line is shorter: nine
    characters at most, whatever the size of the block. *)
Theorem VerbBlock_repr_spec (lines : list string) (h : heap) :
  (lines = [] ↔ VerbBlock_repr lines h = (Raise IndexError, h))
  ∧ (∀ first final, head lines = Some first → last lines = Some final →
     ∃ p q,
       VerbBlock_repr lines h = (Ok (p +:+ "..." +:+ q), h)
       ∧ (∃ r, first = p +:+ r)
       ∧ String.length p = (3 `min` String.length first)%nat
       ∧ (∃ r, final = r +:+ q)
       ∧ String.length q = (3 `min` String.length final)%nat
       ∧ (3 ≤ String.length (p +:+ "..." +:+ q) ≤ 9)%nat).
Proof.
  assert (Hok : ∀ first final,
            head lines = Some first → last lines = Some final →
            VerbBlock_repr lines h
            = (Ok (str_prefix 3 first +:+ "..." +:+ str_suffix 3 final), h)).
  { intros first final Hf Hl. destruct lines as [|l ls]; [discriminate|].
    injection Hf as ->.
    unfold VerbBlock_repr, getitem, getitem_last. cbn [lookup list_lookup].
    rewrite run_bind, run_ret. cbn beta iota. rewrite Hl. reflexivity. }
  split.
  - split; [intros ->; reflexivity|].
    intros E. destruct lines as [|l ls]; [reflexivity|].
    destruct (last (l :: ls)) as [final|] eqn:El.
    + rewrite (Hok l final eq_refl eq_refl) in E. discriminate.
    + apply last_None in El. discriminate.
  - intros first final Hf Hl.
    destruct (str_prefix_spec 3 first) as [Hp Hplen].
    destruct (str_suffix_spec 3 final) as [Hq Hqlen].
    exists (str_prefix 3 first), (str_suffix 3 final).
    split; [exact (Hok first final Hf Hl)|].
    repeat (split; [assumption|]).
    rewrite !string_app_length, Hplen, Hqlen. cbn [String.length]. lia.
Qed.

Lemma VerbBlock_repr_spec_witness :
  ∃ p q,
    VerbBlock_repr ["first line"; "last line"] fresh_heap
    = (Ok (p +:+ "..." +:+ q), fresh_heap)
    ∧ (∃ r, "first line" = p +:+ r) ∧ String.length p = 3%nat
    ∧ (∃ r, "last line" = r +:+ q) ∧ String.length q = 3%nat.
Proof.
  destruct (proj2 (VerbBlock_repr_spec ["first line"; "last line"] fresh_heap)
                  "first line" "last line" eq_refl eq_refl)
    as (p & q & E & Hp & Hplen & Hq & Hqlen & _).
  exists p, q. repeat split; assumption.
Defined.

(** ** The first and the last leaf of a block tree *)

Lemma composite_depth (b e : LayoutBlock) (es : list LayoutBlock) :
  composite_elements b = Some es → e ∈ es → (depth e < depth b)%nat.
Proof.
  intros Hes He. pose proof (max_depth_elem es e He) as Hd.
  unfold max_depth in Hd.
  destruct b; try discriminate Hes; cbn in Hes; injection Hes as ->;
    cbn [depth]; lia.
Qed.

(** Induction on a block tree: a property that holds of a block whenever
    it holds of its elements holds of every block. *)
Lemma block_elements_ind (P : LayoutBlock → Prop) :
  (∀ b, (∀ es, composite_elements b = Some es → Forall P es) → P b) →
  ∀ b, P b.
Proof.
  intros Hstep.
  assert (H : ∀ n b, (depth b < n)%nat → P b).
  { induction n as [|n IH]; intros b Hb; [lia|].
    apply Hstep. intros es Hes. apply Forall_forall. intros e He.
    apply IH. pose proof (composite_depth b e es Hes He). lia. }
  intros b. apply (H (S (depth b))). lia.
Qed.

Lemma wf_composite (b : LayoutBlock) (es : list LayoutBlock) :
  wf_block b → composite_elements b = Some es →
  es ≠ [] ∧ Forall wf_block es.
Proof.
  intros Hwf Hes.
  inversion Hwf; subst; try discriminate Hes; cbn in Hes;
    injection Hes as <-; split; assumption.
Qed.

Lemma get_start_composite (b : LayoutBlock) (es : list LayoutBlock) :
  composite_elements b = Some es →
  get_start b = match es with
                | e :: _ => get_start e
                | [] => raise IndexError
                end.
Proof.
  intros Hes. destruct b; try discriminate Hes; cbn in Hes;
    injection Hes as ->; reflexivity.
Qed.

Lemma leaves_composite (b : LayoutBlock) (es : list LayoutBlock) :
  composite_elements b = Some es → leaves b = concat (leaves <$> es).
Proof.
  intros Hes. destruct b; try discriminate Hes; cbn in Hes;
    injection Hes as ->; reflexivity.
Qed.

Lemma leaves_leaf (b : LayoutBlock) :
  composite_elements b = None → leaves b = [b] ∧ get_start b = mret b.
Proof. intros Hes. destruct b; try discriminate Hes; split; reflexivity. Qed.

Lemma get_start_first_leaf (b : LayoutBlock) :
  wf_block b →
  ∀ h, ∃ l, get_start b h = (Ok l, h)
            ∧ head (leaves b) = Some l
            ∧ composite_elements l = None.
Proof.
  induction b as [b IH] using block_elements_ind. intros Hwf h.
  destruct (composite_elements b) as [es|] eqn:Hes.
  - destruct (wf_composite b es Hwf Hes) as [Hne Hall].
    rewrite (get_start_composite b es Hes), (leaves_composite b es Hes).
    destruct es as [|e es']; [done|].
    specialize (IH _ eq_refl).
    apply Forall_cons in IH as [IHe _]. apply Forall_cons in Hall as [Hwe _].
    destruct (IHe Hwe h) as (l & E & Hhead & Hleaf).
    exists l. split; [exact E|]. split; [|exact Hleaf].
    rewrite fmap_cons. cbn [concat].
    destruct (leaves e) as [|x xs]; [discriminate Hhead | exact Hhead].
  - destruct (leaves_leaf b Hes) as [-> ->].
    exists b. split; [reflexivity|]. split; [reflexivity | exact Hes].
Qed.

(** X5.  On a block tree built by the constructors, [get_start] returns
    the leftmost leaf of the tree, a [TextBlock] or a [VerbBlock], and
    [get_start_text] its text, the empty string for a [VerbBlock]; neither
    raises nor touches a memo. *)
Theorem get_start_leftmost (b : LayoutBlock) (h : heap) :
  wf_block b →
  ∃ l, get_start b h = (Ok l, h)
       ∧ head (leaves b) = Some l
       ∧ composite_elements l = None
       ∧ get_start_text b h = (Ok (text_or_empty l), h).
Proof.
  intros Hwf. destruct (get_start_first_leaf b Hwf h) as (l & E & Hl & Hc).
  exists l. repeat split; try assumption.
  unfold get_start_text. rewrite run_bind, E. reflexivity.
Qed.

Lemma get_start_leftmost_witness :
  ∃ l, get_start (LineBlock 5%positive true
                    [ChoiceBlock 4%positive false [text_a; text_empty];
                     text_b]) fresh_heap
       = (Ok l, fresh_heap)
       ∧ l = text_a.
Proof.
  destruct (get_start_leftmost
              (LineBlock 5%positive true
                 [ChoiceBlock 4%positive false [text_a; text_empty]; text_b])
              fresh_heap)
    as (l & E & Hl & _).
  { repeat first [ constructor | discriminate ]. }
  exists l. split; [exact E|]. injection Hl as <-. reflexivity.
Defined.

Lemma last_concat_snoc {A} (ls : list (list A)) (x : A) :
  last (concat (ls ++ [[x]])) = Some x.
Proof. rewrite concat_app. cbn. apply last_snoc. Qed.

(** X6.  On a composite block built by the constructors, [get_end] returns
    the first leaf of the last element: the leaves of the tree end with
    the leaves [l :: rest] of the last element, and [get_end] returns [l].
    So it returns the last leaf of the tree when [rest] is empty, as it is
    when the last element is itself a leaf, and otherwise a leaf that the
    leaves [rest] come after.  On a leaf it returns the leaf. *)
Theorem get_end_spec (b : LayoutBlock) (h : heap) :
  wf_block b →
  ∃ l, get_end b h = (Ok l, h)
       ∧ composite_elements l = None
       ∧ get_end_text b h = (Ok (text_or_empty l), h)
       ∧ match composite_elements b with
         | Some es =>
             ∃ e pre rest,
               last es = Some e
               ∧ leaves e = l :: rest
               ∧ leaves b = pre ++ l :: rest
               ∧ (rest = [] → last (leaves b) = Some l)
               ∧ (composite_elements e = None → l = e ∧ rest = [])
         | None => l = b
         end.
Proof.
  intros Hwf. unfold get_end_text, get_end.
  destruct (composite_elements b) as [es|] eqn:Hes.
  - destruct (wf_composite b es Hwf Hes) as [Hne Hall].
    destruct (exists_last Hne) as (es' & e & ->).
    assert (Hwe : wf_block e).
    { apply Forall_app in Hall as [_ Hall].
      apply Forall_cons in Hall as [Hwe _]. exact Hwe. }
    destruct (get_start_first_leaf e Hwe h) as (l & E & Hl & Hc).
    assert (Eend : (e0 ← getitem_last (es' ++ [e]); get_start e0) h
                   = (Ok l, h)).
    { rewrite run_bind. unfold getitem_last. rewrite last_snoc.
      rewrite run_ret. exact E. }
    exists l. split; [exact Eend|]. split; [exact Hc|].
    split; [rewrite run_bind, Eend; reflexivity|].
    destruct (leaves e) as [|x rest] eqn:Hlv; [discriminate Hl|].
    injection Hl as ->.
    assert (Hb : leaves b = concat (leaves <$> es') ++ l :: rest).
    { rewrite (leaves_composite b _ Hes), fmap_app, concat_app.
      cbn [fmap list_fmap concat]. rewrite Hlv, app_nil_r. reflexivity. }
    exists e, (concat (leaves <$> es')), rest.
    split; [apply last_snoc|]. split; [exact Hlv|]. split; [exact Hb|].
    split.
    + intros ->. rewrite Hb. apply last_snoc.
    + intros He. destruct (leaves_leaf e He) as [Hlv' _].
      rewrite Hlv' in Hlv. injection Hlv as <- <-. split; reflexivity.
  - exists b. split; [reflexivity|]. split; [exact Hes|].
    split; reflexivity.
Qed.

Lemma get_end_spec_witness :
  ∃ l, get_end (LineBlock 6%positive true
                  [text_empty; LineBlock 5%positive true [text_a; text_b]])
               fresh_heap
       = (Ok l, fresh_heap)
       ∧ l = text_a
       ∧ leaves (LineBlock 6%positive true
                   [text_empty; LineBlock 5%positive true [text_a; text_b]])
         = [text_empty] ++ l :: [text_b].
Proof.
  destruct (get_end_spec
              (LineBlock 6%positive true
                 [text_empty; LineBlock 5%positive true [text_a; text_b]])
              fresh_heap)
    as (l & E & _ & _ & e & pre & rest & He & Hl & _).
  { repeat first [ constructor | discriminate ]. }
  exists l. split; [exact E|].
  injection He as <-. injection Hl as <- <-. split; reflexivity.
Defined.

(** ** The element-lines of a [LineBlock] *)

Lemma element_lines_of_concat (es : list LayoutBlock) :
  concat (element_lines_of es) = es.
Proof.
  induction es as [|e [|e' es] IH]; [reflexivity | reflexivity |].
  rewrite element_lines_of_cons.
  destruct (is_breaking e).
  - cbn [concat]. rewrite IH. reflexivity.
  - destruct (element_lines_of (e' :: es)) as [|ln lns] eqn:E.
    + discriminate IH.
    + cbn [concat] in *. rewrite <- IH. reflexivity.
Qed.

Lemma element_lines_of_no_empty (es : list LayoutBlock) :
  es ≠ [] → Forall (λ ln, ln ≠ []) (element_lines_of es).
Proof.
  induction es as [|e [|e' es] IH]; intros Hne; [done | |].
  - repeat constructor. discriminate.
  - rewrite element_lines_of_cons.
    specialize (IH ltac:(discriminate)).
    destruct (is_breaking e).
    + constructor; [discriminate | exact IH].
    + destruct (element_lines_of (e' :: es)) as [|ln lns].
      * repeat constructor. discriminate.
      * apply Forall_cons in IH as [_ IH].
        constructor; [discriminate | exact IH].
Qed.

Lemma but_last_cons_ne {A} (x : A) (l : list A) :
  l ≠ [] → but_last (x :: l) = x :: but_last l.
Proof. destruct l; [done | intros _; apply but_last_cons]. Qed.

Lemma but_last_singleton {A} (x : A) : but_last [x] = [].
Proof. reflexivity. Qed.

Lemma element_lines_of_breaks (es : list LayoutBlock) :
  Forall (λ ln, ∃ e, last ln = Some e ∧ is_breaking e = true)
         (but_last (element_lines_of es))
  ∧ Forall (λ ln, Forall (λ e, is_breaking e = false) (but_last ln))
           (element_lines_of es).
Proof.
  induction es as [|e [|e' es] IH].
  - split; repeat constructor.
  - split; repeat constructor.
  - rewrite element_lines_of_cons.
    pose proof (element_lines_of_nonempty (e' :: es)) as Hne.
    pose proof (element_lines_of_no_empty (e' :: es) ltac:(discriminate))
      as Hfull.
    destruct IH as [IH1 IH2].
    destruct (is_breaking e) eqn:Hbr.
    + rewrite but_last_cons_ne by exact Hne. split.
      * constructor; [exists e; split; [reflexivity | exact Hbr] | exact IH1].
      * constructor; [constructor | exact IH2].
    + destruct (element_lines_of (e' :: es)) as [|ln lns]; [done|].
      apply Forall_cons in Hfull as [Hln _].
      apply Forall_cons in IH2 as [IH2 IH2'].
      split.
      * destruct lns as [|ln' lns]; [constructor|].
        rewrite but_last_cons in IH1 |- *.
        apply Forall_cons in IH1 as [(x & Hx & Hxb) IH1].
        constructor; [|exact IH1].
        exists x. split; [|exact Hxb].
        destruct ln; [done | exact Hx].
      * constructor; [|exact IH2'].
        rewrite but_last_cons_ne by exact Hln.
        constructor; [exact Hbr | exact IH2].
Qed.

(** X7.  The loop of [LineBlock.DoOptLayout] that splits the elements into
    element-lines loses no element and keeps their order; no element-line
    is empty; every element-line but the last ends with a breaking element;
    and an element that is not the last of its element-line is not
    breaking. *)
Theorem split_element_lines_partition (elements : list LayoutBlock) :
  elements ≠ [] →
  concat (split_element_lines elements) = elements
  ∧ Forall (λ ln, ln ≠ []) (split_element_lines elements)
  ∧ Forall (λ ln, ∃ e, last ln = Some e ∧ is_breaking e = true)
           (but_last (split_element_lines elements))
  ∧ Forall (λ ln, Forall (λ e, is_breaking e = false) (but_last ln))
           (split_element_lines elements).
Proof.
  intros Hne. rewrite split_element_lines_spec.
  split; [apply element_lines_of_concat|].
  split; [apply element_lines_of_no_empty, Hne|].
  apply element_lines_of_breaks.
Qed.

Lemma split_element_lines_partition_witness :
  concat (split_element_lines [text_b; text_a; text_b; text_empty])
  = [text_b; text_a; text_b; text_empty]
  ∧ split_element_lines [text_b; text_a; text_b; text_empty]
    = [[text_b]; [text_a; text_b]; [text_empty]].
Proof.
  split.
  - exact (proj1 (split_element_lines_partition
                    [text_b; text_a; text_b; text_empty]
                    ltac:(discriminate))).
  - reflexivity.
Defined.

(** ** What a [VerbBlock] prints *)

Lemma verb_loop (first_nl : bool) (l : list string) :
  ∀ (k : nat) (acc : Layout),
    (0 < k)%nat →
    foldl (λ l_elts '(i, ln),
             (if (0 <? i)%nat || first_nl
              then l_elts ++ [LayoutElement.NewLine 0] else l_elts)
             ++ [LayoutElement.String ln])
          acc (imap (λ i x, ((k + i)%nat, x)) l)
    = acc ++ (l ≫= λ ln, [LayoutElement.NewLine 0; LayoutElement.String ln]).
Proof.
  induction l as [|x l IH]; intros k acc Hk.
  - cbn. rewrite app_nil_r. reflexivity.
  - cbn [imap foldl]. rewrite Nat.add_0_r.
    assert (E : (0 <? k)%nat = true) by (apply Nat.ltb_lt; exact Hk).
    rewrite E. cbn [orb].
    rewrite (imap_ext _ (λ i y, ((S k + i)%nat, y)))
      by (intros; cbn; f_equal; lia).
    rewrite IH by lia. cbn [mbind list_bind]. rewrite <- !app_assoc.
    reflexivity.
Qed.

Lemma verb_layout_cons (x : string) (l : list string) (first_nl : bool) :
  verb_layout (x :: l) first_nl
  = (if first_nl then [LayoutElement.NewLine 0] else [])
    ++ LayoutElement.String x
       :: (l ≫= λ ln, [LayoutElement.NewLine 0; LayoutElement.String ln]).
Proof.
  unfold verb_layout, enumerate. cbn [imap foldl].
  rewrite (imap_ext _ (λ i y, ((1 + i)%nat, y))) by reflexivity.
  rewrite verb_loop by lia.
  destruct first_nl; reflexivity.
Qed.

Lemma PrintLayout_lines (l : list string) :
  PrintLayout (l ≫= λ ln, [LayoutElement.NewLine 0; LayoutElement.String ln])
  = foldr (λ ln out, nl +:+ ln +:+ out) "" l.
Proof.
  induction l as [|x l IH]; [reflexivity|].
  cbn [mbind list_bind foldr]. rewrite <- IH. reflexivity.
Qed.

Lemma str_join_cons (x : string) (l : list string) :
  str_join nl (x :: l) = x +:+ foldr (λ ln out, nl +:+ ln +:+ out) "" l.
Proof.
  revert x. induction l as [|y l IH]; intros x.
  - cbn. induction x as [|c x IHx]; [reflexivity|].
    change (String c x = String c (x +:+ "")). f_equal. exact IHx.
  - change (str_join nl (x :: y :: l)) with (x +:+ nl +:+ str_join nl (y :: l)).
    rewrite IH. reflexivity.
Qed.

Lemma verb_layout_printed (lines : list string) (first_nl : bool) :
  PrintLayout (verb_layout lines first_nl)
  = (if first_nl && bool_decide (lines ≠ []) then nl else "")
    +:+ str_join nl lines.
Proof.
  destruct lines as [|x l]; [destruct first_nl; reflexivity|].
  rewrite verb_layout_cons, str_join_cons.
  rewrite bool_decide_true by discriminate. rewrite andb_true_r.
  pose proof (PrintLayout_lines l) as E.
  destruct first_nl; cbn [app]; unfold PrintLayout in *; cbn [foldr];
    rewrite E; reflexivity.
Qed.

Lemma verb_solution_layout (options : Options) (layout : Layout) :
  layouts (verb_solution options layout) !! 0%nat = Some layout.
Proof. unfold verb_solution. destruct (0 <? margin_0 options); reflexivity. Qed.

(** X8.  Rendering a [VerbBlock] writes its lines joined by line feeds,
    after one more line feed when [first_nl] is set and there is a line;
    a block without lines writes nothing, [first_nl] or not.  The options
    are those that [Options.Check] accepts, with [margin_0 < margin_1]. *)
Theorem VerbBlock_render (fuel : nat) (self : oid) (br : bool)
    (lines : list string) (first_nl : bool) (options : Options) (h : heap) :
  valid_options options → margin_0 options < margin_1 options →
  default ∅ (caches h !! self) !! None = None →
  (Render (S fuel) (VerbBlock self br lines first_nl) options h).1
  = Ok ((if first_nl && bool_decide (lines ≠ []) then nl else "")
        +:+ str_join nl lines).
Proof.
  intros Hvalid Hm Hmiss. unfold Render. rewrite PrintOn_printed.
  cbn [OptLayout oid_of]. rewrite memoised_miss by exact Hmiss.
  cbn [DoOptLayout]. rewrite run_bind, VerbBlock_solution by assumption.
  rewrite run_ret. cbn [fst printed].
  rewrite verb_solution_layout, verb_layout_printed. reflexivity.
Qed.

Lemma VerbBlock_render_witness :
  (Render 1 (VerbBlock 1%positive true ["a"; "b"; "c"] true) default_options
          fresh_heap).1
  = Ok (nl +:+ "a" +:+ nl +:+ "b" +:+ nl +:+ "c").
Proof.
  apply (VerbBlock_render 0 1%positive true ["a"; "b"; "c"] true
                          default_options fresh_heap).
  - exact default_options_valid.
  - reflexivity.
  - reflexivity.
Defined.



(** ** The cost of a text *)

Lemma index_from_two (x k : Z) :
  index_from 0 0 [0; x] k = if x <=? k then 1%nat else 0%nat.
Proof. cbn. destruct (0 <=? k); reflexivity. Qed.

Lemma index_from_three (x y k : Z) :
  0 ≤ k →
  index_from 0 0 [0; x; y] k
  = if y <=? k then 2%nat else if x <=? k then 1%nat else 0%nat.
Proof.
  intros Hk. cbn. replace (0 <=? k) with true by (symmetry; apply Z.leb_le; lia).
  reflexivity.
Qed.

(** In exact arithmetic the solution of a text shorter than [margin_1]
    charges [margin_0_cost] for each character beyond [margin_0] and
    [margin_1_cost] for each character beyond [margin_1]. *)
Lemma TextBlock_value (text : string) (options : Options) (k : Z) :
  let span := Z.of_nat (String.length text) in
  margin_0 options ≤ margin_1 options → span < margin_1 options → 0 ≤ k →
  ValueAt (TextBlock_DoOptLayout text None options) k
  = (margin_0_cost options
     * Qc_of_Z (Z.max 0 (k + span - margin_0 options))
     + margin_1_cost options
       * Qc_of_Z (Z.max 0 (k + span - margin_1 options)))%Qc.
Proof.
  intros span Hm Hs Hk.
  unfold TextBlock_DoOptLayout, WithRestOfLine. fold span.
  replace (margin_1 options <=? span) with false
    by (symmetry; apply Z.leb_gt; lia).
  destruct (margin_0 options <=? span) eqn:E0.
  - apply Z.leb_le in E0. unfold ValueAt, index_at. cbn [knots].
    rewrite index_from_two.
    destruct (margin_1 options - span <=? k) eqn:E1.
    + apply Z.leb_le in E1. cbn.
      rewrite !Z.max_r by lia.
      rewrite !Z2Qc_inj_sub, !Z2Qc_inj_add. ring.
    + apply Z.leb_gt in E1. cbn.
      rewrite (Z.max_r 0 (k + span - margin_0 options)) by lia.
      rewrite (Z.max_l 0 (k + span - margin_1 options)) by lia.
      rewrite !Z2Qc_inj_sub, !Z2Qc_inj_add, ?Z2Qc_inj_0. ring.
  - apply Z.leb_gt in E0. unfold ValueAt, index_at. cbn [knots].
    rewrite index_from_three by exact Hk.
    destruct (margin_1 options - span <=? k) eqn:E1;
      [|destruct (margin_0 options - span <=? k) eqn:E2].
    + apply Z.leb_le in E1. cbn.
      rewrite !Z.max_r by lia.
      rewrite !Z2Qc_inj_sub, !Z2Qc_inj_add. ring.
    + apply Z.leb_gt in E1. apply Z.leb_le in E2. cbn.
      rewrite (Z.max_r 0 (k + span - margin_0 options)) by lia.
      rewrite (Z.max_l 0 (k + span - margin_1 options)) by lia.
      rewrite !Z2Qc_inj_sub, !Z2Qc_inj_add, ?Z2Qc_inj_0. ring.
    + apply Z.leb_gt in E1. apply Z.leb_gt in E2. cbn.
      rewrite !Z.max_l by lia.
      rewrite !Z2Qc_inj_sub, ?Z2Qc_inj_0. ring.
Qed.

(** X10.  For a text shorter than [margin_1], the solution of a
    [TextBlock] without continuation charges, at every column [k] from 0
    on, [margin_0_cost] for each character beyond [margin_0] and
    [margin_1_cost] for each character beyond [margin_1], the text being
    put at column [k].  The costs are whole numbers here and the costs,
    the margins and the column are at most [2^24]: every product and sum
    of lines 61-85 and of the value at [k] is then a whole number below
    [2^53], which the floats of Python hold without rounding. *)
Theorem TextBlock_cost (text : string) (options : Options) (k a b : Z) :
  let span := Z.of_nat (String.length text) in
  margin_0_cost options = Qc_of_Z a → margin_1_cost options = Qc_of_Z b →
  0 ≤ a ≤ 2 ^ 24 → 0 ≤ b ≤ 2 ^ 24 →
  0 ≤ margin_0 options → margin_0 options ≤ margin_1 options →
  margin_1 options ≤ 2 ^ 24 →
  span < margin_1 options → 0 ≤ k ≤ 2 ^ 24 →
  ValueAt (TextBlock_DoOptLayout text None options) k
  = Qc_of_Z (a * Z.max 0 (k + span - margin_0 options)
             + b * Z.max 0 (k + span - margin_1 options)).
Proof.
  intros span Ha Hb _ _ _ Hm _ Hs [Hk _].
  rewrite (TextBlock_value text options k Hm Hs Hk). fold span.
  rewrite Ha, Hb, Z2Qc_inj_add, !Z2Qc_inj_mul. reflexivity.
Qed.

Lemma TextBlock_cost_witness :
  ValueAt (TextBlock_DoOptLayout "hello" None
             (MkOptions 0 (Qc_of_Z 1) 80 (Qc_of_Z 100) (Qc_of_Z 2)
                        (Qc_of_Z 0) None)) 78
  = Qc_of_Z 383.
Proof.
  apply (TextBlock_cost "hello"
           (MkOptions 0 (Qc_of_Z 1) 80 (Qc_of_Z 100) (Qc_of_Z 2) (Qc_of_Z 0)
                      None)
           78 1 100); cbn; (reflexivity || lia).
Defined.

(** X11.  The solution that a [TextBlock] builds under options that
    [Options.Check] accepts starts with the knot 0, has as many spans,
    costs, slopes and layouts as knots, and its slopes never decrease.  Its
    knots increase strictly except in one case: a text shorter than
    [margin_0] when [margin_0 = margin_1], which [Options.Check] accepts;
    the knot at the margin is then built twice. *)
Theorem TextBlock_knots (text : string) (options : Options) :
  valid_options options →
  let span := Z.of_nat (String.length text) in
  let s := TextBlock_DoOptLayout text None options in
  (∃ ks, knots s = 0 :: ks)
  ∧ length (spans s) = length (knots s)
  ∧ length (intercepts s) = length (knots s)
  ∧ length (gradients s) = length (knots s)
  ∧ length (layouts s) = length (knots s)
  ∧ ascending Qcle (gradients s)
  ∧ (ascending Z.lt (knots s)
     ↔ ¬ (span < margin_0 options ∧ margin_0 options = margin_1 options)).
Proof.
  intros (H0 & H01 & Hc0 & Hc1 & _) span s. subst s.
  unfold TextBlock_DoOptLayout, WithRestOfLine. fold span.
  assert (Hle : ∀ x y : Qc, (0 ≤ y)%Qc → (x ≤ x + y)%Qc).
  { intros x y Hy. rewrite <- (Qcplus_0_r x) at 1.
    apply Qcplus_le_compat; [apply Qcle_refl | exact Hy]. }
  destruct (margin_1 options <=? span) eqn:E1;
    [|destruct (margin_0 options <=? span) eqn:E0].
  - apply Z.leb_le in E1. cbn. repeat split; eauto; lia.
  - apply Z.leb_gt in E1. apply Z.leb_le in E0. cbn.
    repeat split; eauto; lia.
  - apply Z.leb_gt in E1. apply Z.leb_gt in E0. cbn.
    repeat split; eauto; lia.
Qed.

Lemma TextBlock_knots_witness :
  knots (TextBlock_DoOptLayout "a" None
           (MkOptions 4 (Q2Qc (5 # 100)) 4 (Q2Qc 100) (Q2Qc 2)
                      (Q2Qc (1 # 1000)) None))
  = [0; 3; 3]
  ∧ ¬ ascending Z.lt
        (knots (TextBlock_DoOptLayout "a" None
                  (MkOptions 4 (Q2Qc (5 # 100)) 4 (Q2Qc 100) (Q2Qc 2)
                             (Q2Qc (1 # 1000)) None))).
Proof.
  split; [reflexivity|]. intros Hasc.
  apply (proj1 (proj2 (proj2 (proj2 (proj2 (proj2 (proj2
           (TextBlock_knots "a"
              (MkOptions 4 (Q2Qc (5 # 100)) 4 (Q2Qc 100) (Q2Qc 2)
                         (Q2Qc (1 # 1000)) None)
              ltac:(repeat split; (cbn; lia) || discriminate)))))))) Hasc).
  split; [cbn; lia | reflexivity].
Defined.

(** ** Rendering a text and a joined line of one element *)

Lemma string_app_empty_r (s : string) : s +:+ "" = s.
Proof.
  induction s as [|c s IH]; [reflexivity|].
  change (String c (s +:+ "") = String c s). rewrite IH. reflexivity.
Qed.

Lemma TextBlock_layout (text : string) (options : Options) :
  layouts (TextBlock_DoOptLayout text None options) !! 0%nat
  = Some [LayoutElement.String text].
Proof.
  unfold TextBlock_DoOptLayout, WithRestOfLine.
  destruct (margin_1 options <=? _); [reflexivity|].
  destruct (margin_0 options <=? _); reflexivity.
Qed.

(** X12.  Rendering a [TextBlock] that has no memoised layout yet writes
    its text and nothing else, whatever the text, the flag [is_breaking]
    and the options, even options that [Options.Check] refuses. *)
Theorem TextBlock_render (fuel : nat) (self : oid) (br : bool) (text : string)
    (options : Options) (h : heap) :
  default ∅ (caches h !! self) !! None = None →
  (Render (S fuel) (TextBlock self br text) options h).1 = Ok text.
Proof.
  intros Hmiss. unfold Render. rewrite PrintOn_printed.
  cbn [OptLayout oid_of]. rewrite memoised_miss by exact Hmiss.
  cbn [DoOptLayout]. rewrite run_ret. cbn [fst printed].
  rewrite TextBlock_layout. unfold PrintLayout. cbn [foldr].
  rewrite string_app_empty_r. reflexivity.
Qed.

Lemma TextBlock_render_witness :
  (Render 1 text_b options_margin_1_3 fresh_heap).1 = Ok "b".
Proof.
  exact (TextBlock_render 0 3%positive true "b" options_margin_1_3 fresh_heap
                          eq_refl).
Defined.

(** X13.  A [JoinedLineBlock] of one element is laid out as that element:
    no joiner is created and no [LineBlock] is built, and rendering the
    block, when it has no memoised layout yet, gives what rendering the
    element gives, exceptions included. *)
Theorem JoinedLineBlock_of_one (fuel : nat) (self : oid) (br : bool)
    (t : LayoutBlock) (joiner : string + LayoutBlock) (join_breaking : bool)
    (options : Options) (h : heap) :
  default ∅ (caches h !! self) !! None = None →
  (∀ rest_of_line,
     DoOptLayout (OptLayout fuel)
                 (JoinedLineBlock self br [t] joiner join_breaking)
                 rest_of_line options
     = OptLayout fuel t rest_of_line options)
  ∧ (Render (S fuel) (JoinedLineBlock self br [t] joiner join_breaking)
            options h).1
    = (Render fuel t options h).1.
Proof.
  intros Hmiss. split; [reflexivity|].
  unfold Render. rewrite !PrintOn_printed.
  cbn [OptLayout oid_of]. rewrite memoised_miss by exact Hmiss.
  reflexivity.
Qed.

Lemma JoinedLineBlock_of_one_witness :
  (Render 2 (JoinedLineBlock 5%positive false [text_a] (inl ", ") true)
          default_options fresh_heap).1
  = (Render 1 text_a default_options fresh_heap).1.
Proof.
  exact (proj2 (JoinedLineBlock_of_one 1 5%positive false text_a (inl ", ")
                  true default_options fresh_heap eq_refl)).
Defined.

(** ** The private blocks of [extras.py] *)

Lemma get_start_text_runs (e : LayoutBlock) (h : heap) :
  wf_block e → ∃ s, get_start_text e h = (Ok s, h).
Proof.
  intros Hwf. destruct (get_start_first_leaf e Hwf h) as (l & E & _).
  exists (text_or_empty l). unfold get_start_text.
  rewrite run_bind, E. reflexivity.
Qed.

Lemma get_end_text_runs (e : LayoutBlock) (h : heap) :
  wf_block e → ∃ s, get_end_text e h = (Ok s, h).
Proof.
  intros Hwf. unfold get_end_text, get_end.
  destruct (composite_elements e) as [es|] eqn:Hes.
  - destruct (wf_composite e es Hwf Hes) as [Hne Hall].
    destruct (exists_last Hne) as (es' & x & ->).
    apply Forall_app in Hall as [_ Hall].
    apply Forall_cons in Hall as [Hwx _].
    destruct (get_start_first_leaf x Hwx h) as (l & E & _).
    exists (text_or_empty l). rewrite !run_bind. unfold getitem_last.
    rewrite last_snoc, run_ret. cbn beta iota. rewrite E. reflexivity.
  - exists (text_or_empty e). reflexivity.
Qed.

Lemma conditional_loop (no_space_left no_space_right : string → bool)
    (es : list LayoutBlock) :
  Forall wf_block es →
  ∀ (end_ : string) (h : heap),
    ∃ joined later end',
      (∀ pre cur,
         for_ es
           (λ element '(result, end_),
              start ← get_start_text element;
              let result :=
                if no_space_left start || no_space_right end_
                then alter (λ g, g ++ [element]) (length result - 1)%nat result
                else result ++ [[element]] in
              end_ ← get_end_text element;
              mret (result, end_))
           (pre ++ [cur], end_) h
         = (Ok (pre ++ (cur ++ joined) :: later, end'), h))
      ∧ joined ++ concat later = es
      ∧ Forall (λ g, g ≠ []) later
      ∧ (∀ e es' s, es = e :: es' → get_start_text e h = (Ok s, h) →
           (joined = [] ↔ no_space_left s || no_space_right end_ = false)).
Proof.
  induction 1 as [|e es Hwe Hwes IH]; intros end_ h.
  - exists [], [], end_. split; [|split; [reflexivity|split; [constructor|]]].
    + intros pre cur. rewrite app_nil_r. reflexivity.
    + intros e es' s Hes. discriminate Hes.
  - destruct (get_start_text_runs e h Hwe) as (start & Es).
    destruct (get_end_text_runs e h Hwe) as (stop & Ee).
    destruct (IH stop h) as (joined & later & end' & Hrun & Hcat & Hne & _).
    destruct (no_space_left start || no_space_right end_) eqn:Ec.
    + exists (e :: joined), later, end'.
      split; [|split; [cbn; rewrite Hcat; reflexivity|split; [exact Hne|]]].
      * intros pre cur. cbn [for_]. rewrite run_bind.
        rewrite (run_bind (get_start_text e)), Es. cbn beta iota. rewrite Ec.
        rewrite run_bind, Ee, run_ret. cbn beta iota.
        rewrite length_app. cbn [length].
        replace (length pre + 1 - 1)%nat with (length pre + 0)%nat by lia.
        rewrite alter_app_r. cbn [alter list_alter].
        etransitivity; [apply (Hrun pre (cur ++ [e]))|].
        rewrite <- app_assoc. reflexivity.
      * intros e1 es' s Hes Hs. injection Hes as <- <-.
        rewrite Es in Hs. injection Hs as <-. rewrite Ec.
        split; discriminate.
    + exists [], ((e :: joined) :: later), end'.
      split; [|split; [cbn; rewrite Hcat; reflexivity|split]].
      * intros pre cur. cbn [for_]. rewrite run_bind.
        rewrite (run_bind (get_start_text e)), Es. cbn beta iota. rewrite Ec.
        rewrite run_bind, Ee, run_ret. cbn beta iota.
        etransitivity; [apply (Hrun (pre ++ [cur]) [e])|].
        rewrite <- app_assoc, app_nil_r. reflexivity.
      * constructor; [discriminate | exact Hne].
      * intros e1 es' s Hes Hs. injection Hes as <- <-.
        rewrite Es in Hs. injection Hs as <-. rewrite Ec.
        split; reflexivity.
Qed.

Lemma conditional_groups_partition_aux
    (no_space_left no_space_right : string → bool) (es : list LayoutBlock)
    (h : heap) :
  Forall wf_block es →
  ∃ joined later,
    (∀ first,
       conditional_groups no_space_left no_space_right (first :: es) h
       = (Ok ((first :: joined) :: later), h))
    ∧ concat (joined :: later) = es
    ∧ Forall (λ g, g ≠ []) later.
Proof.
  intros Hwf.
  destruct (conditional_loop no_space_left no_space_right es Hwf "" h)
    as (joined & later & end' & Hrun & Hcat & Hne & _).
  exists joined, later. split; [|split; [exact Hcat | exact Hne]].
  intros first. unfold conditional_groups.
  rewrite run_bind. change (getitem (first :: es) 0 h) with (Ok first, h).
  cbn beta iota. rewrite run_bind. cbn [drop].
  match goal with
  | |- match ?m with _ => _ end = _ =>
      replace m with (Ok ([] ++ ([first] ++ joined) :: later, end'), h)
        by (symmetry; apply (Hrun [] [first]))
  end.
  reflexivity.
Qed.

(** X14.  The groups that [_ConditionalJoinedLineBlock] makes of its
    elements lose no element and keep their order, and no group is empty.
    The first element opens the first group and nothing of it is looked at:
    the groups of the elements after it are the same whatever it is, and
    whether the second element joins it is decided with the empty string
    in the place of its last text. *)
Theorem conditional_groups_partition
    (no_space_left no_space_right : string → bool) (es : list LayoutBlock)
    (h : heap) :
  Forall wf_block es →
  ∃ joined later,
    (∀ first,
       conditional_groups no_space_left no_space_right (first :: es) h
       = (Ok ((first :: joined) :: later), h))
    ∧ concat (joined :: later) = es
    ∧ Forall (λ g, g ≠ []) later
    ∧ (∀ e es' s, es = e :: es' → get_start_text e h = (Ok s, h) →
         (joined = [] ↔ no_space_left s || no_space_right "" = false)).
Proof.
  intros Hwf.
  destruct (conditional_loop no_space_left no_space_right es Hwf "" h)
    as (joined & later & end' & Hrun & Hcat & Hne & Hfirst).
  exists joined, later. split; [|split; [exact Hcat|split; assumption]].
  intros first. unfold conditional_groups.
  rewrite run_bind. change (getitem (first :: es) 0 h) with (Ok first, h).
  cbn beta iota. rewrite run_bind. cbn [drop].
  match goal with
  | |- match ?m with _ => _ end = _ =>
      replace m with (Ok ([] ++ ([first] ++ joined) :: later, end'), h)
        by (symmetry; apply (Hrun [] [first]))
  end.
  reflexivity.
Qed.

Lemma conditional_groups_partition_witness :
  ∃ joined later,
    (∀ first,
       conditional_groups (λ s, bool_decide (s = ","))
                          (λ s, bool_decide (s = "("))
                          (first :: [text_a; text_b]) fresh_heap
       = (Ok ((first :: joined) :: later), fresh_heap))
    ∧ concat (joined :: later) = [text_a; text_b].
Proof.
  destruct (conditional_groups_partition (λ s, bool_decide (s = ","))
              (λ s, bool_decide (s = "(")) [text_a; text_b] fresh_heap)
    as (joined & later & Hrun & Hcat & _).
  { repeat constructor. }
  exists joined, later. split; [exact Hrun | exact Hcat].
Defined.

Lemma mapM_new_lines {A} (f : A → list LayoutBlock) (xs : list A) :
  Forall (λ x, f x ≠ []) xs →
  ∀ h, ∃ lines h',
    mapM (λ x, LineBlock_new (PyBlock <$> f x)) xs h = (Ok lines, h')
    ∧ Forall2 (λ x ln, ∃ o, ln = built KLine o (f x)) xs lines.
Proof.
  induction 1 as [|x xs Hx Hxs IH]; intros h.
  - exists [], h. split; [reflexivity | constructor].
  - destruct (IH (allocated h)) as (lines & h' & E & Hall).
    exists (built KLine (next_oid h) (f x) :: lines), h'. split.
    + rewrite mapM_cons, run_bind, (LineBlock_new_run (f x) h Hx).
      cbn beta iota. rewrite run_bind, E. reflexivity.
    + constructor; [exists (next_oid h); reflexivity | exact Hall].
Qed.

(** X15.  A [_ConditionalJoinedLineBlock] that has elements is laid out
    as a [JoinedLineBlock], with its joiner and [join_breaking] off,
    of one new [LineBlock] for each group of its elements; the groups,
    one after the other, hold the elements of the block in their order,
    so that no constructor raises. *)
Theorem ConditionalJoinedLineBlock_layout
    (elements : list LayoutBlock) (joiner : string)
    (no_space_left no_space_right : string → bool) (h : heap) :
  elements ≠ [] → Forall wf_block elements →
  ∃ groups lines h',
    concat groups = elements
    ∧ Forall2 (λ g ln, ∃ o, ln = built KLine o g) groups lines
    ∧ ∀ rec rest_of_line options,
        _ConditionalJoinedLineBlock_CompositeOptLayout
          rec elements joiner no_space_left no_space_right rest_of_line
          options h
        = rec (built (KJoinedLine (inl joiner) false) (next_oid h') lines)
              rest_of_line options (allocated h').
Proof.
  intros Hne Hwf. destruct elements as [|first es]; [done|].
  apply Forall_cons in Hwf as [_ Hwf].
  destruct (conditional_groups_partition_aux no_space_left no_space_right es h
              Hwf) as (joined & later & Hrun & Hcat & Hfull).
  destruct (mapM_new_lines id ((first :: joined) :: later)
              ltac:(constructor; [discriminate | exact Hfull]) h)
    as (lines & h' & E & Hall).
  exists ((first :: joined) :: later), lines, h'.
  split; [cbn [concat] in *; rewrite <- Hcat; reflexivity|].
  split; [exact Hall|].
  intros rec rest_of_line options.
  unfold _ConditionalJoinedLineBlock_CompositeOptLayout.
  rewrite run_bind, Hrun. cbn beta iota.
  rewrite run_bind. unfold id in E. rewrite E. cbn beta iota.
  rewrite run_bind.
  assert (Hl : lines ≠ []) by (inversion Hall; discriminate).
  change (JoinedLineBlock_new (PyBlock <$> lines) (inl joiner) false h')
    with (construct (KJoinedLine (inl joiner) false) (PyBlock <$> lines) h').
  rewrite (construct_built (KJoinedLine (inl joiner) false) lines h' Hl).
  reflexivity.
Qed.

Lemma ConditionalJoinedLineBlock_layout_witness :
  ∃ groups lines h',
    concat groups = [text_a; text_b; text_empty]
    ∧ ∀ rec rest_of_line options,
        _ConditionalJoinedLineBlock_CompositeOptLayout
          rec [text_a; text_b; text_empty] " "
          (λ s, bool_decide (s = "b")) (λ s, false) rest_of_line options
          fresh_heap
        = rec (built (KJoinedLine (inl " ") false) (next_oid h') lines)
              rest_of_line options (allocated h').
Proof.
  destruct (ConditionalJoinedLineBlock_layout [text_a; text_b; text_empty] " "
              (λ s, bool_decide (s = "b")) (λ s, false) fresh_heap)
    as (groups & lines & h' & Hcat & _ & Hrun).
  { discriminate. }
  { repeat constructor. }
  exists groups, lines, h'. split; [exact Hcat | exact Hrun].
Defined.

(** X16.  A [_JoinedStackBlock] is laid out as a [StackBlock] with its
    [break_mult] and as many elements as it has itself: each element but
    the last is put in a new [LineBlock] before the joiner, and that
    [LineBlock] is breaking exactly when the joiner is, whatever the
    element; the last element is taken as it is. *)
Theorem JoinedStackBlock_layout (firsts : list LayoutBlock)
    (final : LayoutBlock) (self_joiner : string + LayoutBlock)
    (break_mult : Qc) (h : heap) :
  let joiner := match self_joiner with
                | inl s => TextBlock (next_oid h) false s
                | inr b => b
                end in
  ∃ lines h',
    Forall2 (λ x ln, ∃ o, ln = LineBlock o (is_breaking joiner) [x; joiner])
            firsts lines
    ∧ ∀ rec rest_of_line options,
        _JoinedStackBlock_CompositeOptLayout
          rec (firsts ++ [final]) self_joiner break_mult rest_of_line options
          h
        = rec (StackBlock (next_oid h') (is_breaking final)
                          (lines ++ [final]) break_mult)
              rest_of_line options (allocated h').
Proof.
  intros joiner.
  set (h0 := match self_joiner with inl _ => allocated h | inr _ => h end).
  destruct (mapM_new_lines (λ x, [x; joiner]) firsts
              ltac:(apply Forall_forall; intros; discriminate) h0)
    as (lines & h' & E & Hall).
  exists lines, h'. split; [exact Hall|].
  intros rec rest_of_line options.
  unfold _JoinedStackBlock_CompositeOptLayout.
  rewrite run_bind.
  assert (Ej : match self_joiner with
               | inl s => TextBlock_new s false
               | inr b => mret b
               end h = (Ok joiner, h0)) by (destruct self_joiner; reflexivity).
  rewrite Ej. cbn beta iota.
  rewrite but_last_snoc, run_bind.
  change (mapM (λ x, LineBlock_new [PyBlock x; PyBlock joiner]) firsts h0)
    with (mapM (λ x, LineBlock_new (PyBlock <$> [x; joiner])) firsts h0).
  rewrite E. cbn beta iota.
  rewrite run_bind. unfold getitem_last. rewrite last_snoc, run_ret.
  cbn beta iota. rewrite run_bind.
  change (StackBlock_new (PyBlock <$> lines ++ [final]) break_mult h')
    with (construct (KStack break_mult) (PyBlock <$> lines ++ [final]) h').
  rewrite construct_built by (destruct lines; discriminate).
  unfold built. rewrite last_snoc. reflexivity.
Qed.

(** X17.  A [_WrapIfLongBlock] of one element is laid out as that element,
    whatever [wrap_len] and the prefix.  With two elements or more it is
    laid out as a [WrapBlock] with its separator, [break_mult] and prefix
    when it has at least [wrap_len] elements, and otherwise as a
    [JoinedLineBlock] whose joiner is a new [TextBlock] of the separator,
    where [break_mult] and the prefix play no part. *)
Theorem WrapIfLongBlock_layout
    (rec : LayoutBlock → option Solution → Options → M (option Solution))
    (elements : list LayoutBlock) (sep : string) (break_mult : Qc)
    (prefix : option string) (wrap_len : Z) (rest_of_line : option Solution)
    (options : Options) (h : heap) :
  let layout :=
    CompositeShortcutMixin_DoOptLayout rec elements
      (_WrapIfLongBlock_CompositeOptLayout rec elements sep break_mult prefix
                                           wrap_len)
      rest_of_line options h in
  (∀ e, elements = [e] → layout = rec e rest_of_line options h)
  ∧ ((2 ≤ length elements)%nat → wrap_len ≤ Z.of_nat (length elements) →
     layout
     = rec (built (KWrap sep break_mult prefix) (next_oid h) elements)
           rest_of_line options (allocated h))
  ∧ ((2 ≤ length elements)%nat → Z.of_nat (length elements) < wrap_len →
     layout
     = rec (built (KJoinedLine (inr (TextBlock (next_oid h) false sep)) false)
                  (Pos.succ (next_oid h)) elements)
           rest_of_line options (allocated (allocated h))).
Proof.
  intros layout. split; [intros e ->; reflexivity|].
  assert (Hc : (2 ≤ length elements)%nat →
            layout = _WrapIfLongBlock_CompositeOptLayout
                       rec elements sep break_mult prefix wrap_len
                       rest_of_line options h).
  { intros Hlen. unfold layout.
    destruct elements as [|e1 [|e2 es]]; cbn in Hlen; try lia. reflexivity. }
  split; intros Hlen Hw; rewrite (Hc Hlen);
    unfold _WrapIfLongBlock_CompositeOptLayout; rewrite run_bind.
  - replace (wrap_len <=? Z.of_nat (length elements)) with true
      by (symmetry; apply Z.leb_le; exact Hw).
    change (WrapBlock_new (PyBlock <$> elements) sep break_mult prefix h)
      with (construct (KWrap sep break_mult prefix) (PyBlock <$> elements) h).
    rewrite construct_built by (destruct elements; [cbn in Hlen; lia | done]).
    reflexivity.
  - replace (wrap_len <=? Z.of_nat (length elements)) with false
      by (symmetry; apply Z.leb_gt; exact Hw).
    rewrite run_bind, TextBlock_new_run. cbn beta iota.
    change (JoinedLineBlock_new (PyBlock <$> elements)
              (inr (TextBlock (next_oid h) false sep)) false (allocated h))
      with (construct (KJoinedLine (inr (TextBlock (next_oid h) false sep))
                                   false)
                      (PyBlock <$> elements) (allocated h)).
    rewrite construct_built by (destruct elements; [cbn in Hlen; lia | done]).
    reflexivity.
Qed.

Lemma WrapIfLongBlock_layout_witness :
  CompositeShortcutMixin_DoOptLayout (OptLayout 2) [text_a; text_b]
    (_WrapIfLongBlock_CompositeOptLayout (OptLayout 2) [text_a; text_b] ", "
                                         1%Qc (Some "# ") 3)
    None default_options fresh_heap
  = OptLayout 2
      (JoinedLineBlock 5%positive true [text_a; text_b]
                       (inr (TextBlock 4%positive false ", ")) false)
      None default_options (allocated (allocated fresh_heap)).
Proof.
  apply (WrapIfLongBlock_layout (OptLayout 2) [text_a; text_b] ", " 1%Qc
           (Some "# ") 3 None default_options fresh_heap).
  - cbn. lia.
  - cbn. lia.
Defined.

(** ** The memo tables only grow *)

Lemma heap_le_refl (h : heap) : heap_le h h.
Proof. split; [lia | auto]. Qed.

Lemma heap_le_trans (h1 h2 h3 : heap) :
  heap_le h1 h2 → heap_le h2 h3 → heap_le h1 h3.
Proof.
  intros [Hn1 He1] [Hn2 He2]. split; [lia|].
  intros o key v Ho Hv. apply He2; [lia|]. apply He1; assumption.
Qed.

Lemma keeps_ret {A} (a : A) : keeps (mret a : M A).
Proof. intros h r h' E. inversion E. apply heap_le_refl. Qed.

Lemma keeps_raise {A} (e : exn) : keeps (raise e : M A).
Proof. intros h r h' E. inversion E. apply heap_le_refl. Qed.

Lemma keeps_out_of_fuel {A} : keeps (out_of_fuel : M A).
Proof. intros h r h' E. inversion E. apply heap_le_refl. Qed.

Lemma keeps_bind {A B} (m : M A) (f : A → M B) :
  keeps m → (∀ a, keeps (f a)) → keeps (m ≫= f).
Proof.
  intros Hm Hf h r h' E. rewrite run_bind in E.
  destruct (m h) as [[a|e|] h1] eqn:Em.
  - eapply heap_le_trans; [eapply Hm, Em | eapply Hf, E].
  - inversion E; subst. eapply Hm, Em.
  - inversion E; subst. eapply Hm, Em.
Qed.

Lemma keeps_mapM {A B} (f : A → M B) (l : list A) :
  (∀ x, keeps (f x)) → keeps (mapM f l).
Proof.
  intros Hf. induction l as [|x l IH]; [apply keeps_ret|].
  rewrite mapM_cons. apply keeps_bind; [apply Hf|].
  intros y. apply keeps_bind; [exact IH|]. intros k. apply keeps_ret.
Qed.

Lemma keeps_for {A S} (xs : list A) (body : A → S → M S) (s : S) :
  (∀ x s, keeps (body x s)) → keeps (for_ xs body s).
Proof.
  intros Hb. revert s. induction xs as [|x xs IH]; intros s;
    [apply keeps_ret|].
  cbn [for_]. apply keeps_bind; [apply Hb | exact IH].
Qed.

Lemma keeps_for_else {A S} (xs : list A) (body : A → S → M (S * bool))
    (s : S) :
  (∀ x s, keeps (body x s)) → keeps (for_else xs body s).
Proof.
  intros Hb. revert s. induction xs as [|x xs IH]; intros s;
    [apply keeps_ret|].
  cbn [for_else]. apply keeps_bind; [apply Hb|].
  intros [s' broke]. destruct broke; [apply keeps_ret | apply IH].
Qed.

Lemma keeps_new_object : keeps new_object.
Proof.
  intros h r h' E. inversion E; subst. clear E. split; [cbn; lia|].
  intros o key v Ho Hv. cbn [caches].
  rewrite lookup_insert_ne by lia. exact Hv.
Qed.

Lemma keeps_cache_of (o : oid) : keeps (cache_of o).
Proof. intros h r h' E. inversion E. apply heap_le_refl. Qed.

(** Code that calls [rec], given as the hypothesis [Hrec], and otherwise
    only creates objects. *)
Ltac keeps_auto :=
  repeat match goal with
  | Hrec : ∀ b rest, keeps (?rec b rest _) |- keeps (?rec _ _ _) =>
      apply Hrec
  | |- keeps (mret _) => apply keeps_ret
  | |- keeps (raise _) => apply keeps_raise
  | |- keeps new_object => apply keeps_new_object
  | |- keeps (cache_of _) => apply keeps_cache_of
  | |- keeps (getitem _ _) => unfold getitem
  | |- keeps (getitem_last _) => unfold getitem_last
  | |- keeps (getkey _ _) => unfold getkey
  | |- keeps (assert _) => unfold assert
  | |- keeps (deref _) => unfold deref
  | |- keeps (TextBlock_new _ _) => unfold TextBlock_new
  | |- keeps (LineBlock_new _) =>
      unfold LineBlock_new, CompositeLayoutBlock_init
  | |- keeps (Append _ _ _ _ _ _) => unfold Append
  | |- keeps (mapM _ _) => apply keeps_mapM; intros ?
  | |- keeps (for_ _ _ _) => apply keeps_for; intros ? ?
  | |- keeps (for_else _ _ _) => apply keeps_for_else; intros ? ?
  | |- keeps (_ ≫= _) => apply keeps_bind; [| intros ?]
  | |- keeps (if ?c then _ else _) => destruct c
  | |- keeps (match ?x with _ => _ end) => destruct x
  | |- keeps ((match ?x with _ => _ end) _) => destruct x
  | |- keeps _ => progress cbv beta zeta
  end.

Lemma memoised_keeps (self : oid) (m : M (option Solution))
    (rest_of_line : option Solution) :
  keeps m → keeps (memoised self m rest_of_line).
Proof.
  intros Hm h r h' E. unfold memoised in E.
  rewrite run_bind in E. cbn [cache_of] in E.
  destruct (bool_decide (is_Some (default ∅ (caches h !! self)
                                  !! rest_of_line))) eqn:Ehit.
  - rewrite run_bind, run_ret in E. cbn beta iota in E.
    rewrite run_bind in E. cbn [cache_of] in E. unfold getkey in E.
    destruct (_ !! _) in E; inversion E; apply heap_le_refl.
  - apply bool_decide_eq_false in Ehit.
    rewrite run_bind, (run_bind m) in E.
    destruct (m h) as [[soln|e|] h1] eqn:Em;
      [|inversion E; subst; eapply Hm, Em ..].
    cbn beta iota in E. cbn [cache_store] in E.
    rewrite run_bind in E. cbn [cache_of] in E. unfold getkey in E.
    assert (Hh' : h' = MkHeap
                    (<[self := <[rest_of_line := soln]>
                                 (default ∅ (caches h1 !! self))]> (caches h1))
                    (next_oid h1)).
    { destruct (_ !! _) in E; inversion E; reflexivity. }
    clear E. destruct (Hm h _ h1 Em) as [Hn He]. subst h'.
    split; [exact Hn|]. intros o key v Ho Hv. cbn [caches].
    destruct (decide (o = self)) as [->|Hne].
    + rewrite lookup_insert_eq. cbn [default from_option]. unfold id.
      destruct (decide (key = rest_of_line)) as [->|Hk].
      * exfalso. apply Ehit. exists v. exact Hv.
      * rewrite lookup_insert_ne by congruence. apply He; assumption.
    + rewrite lookup_insert_ne by congruence. apply He; assumption.
Qed.

Section Keeps.
Variable rec : LayoutBlock → option Solution → Options → M (option Solution).
Variable options : Options.
Hypothesis Hrec : ∀ b rest, keeps (rec b rest options).

Lemma DoOptLayout_keeps (self : LayoutBlock) (rest_of_line : option Solution) :
  keeps (DoOptLayout rec self rest_of_line options).
Proof.
  destruct self as [o br text | o br lines first_nl | o br es | o br es
                    | o br es bm | o br es sep bm prefix | o br es joiner jb];
    cbn [DoOptLayout].
  - keeps_auto.
  - unfold VerbBlock_DoOptLayout. keeps_auto.
  - unfold LineBlock_DoOptLayout. keeps_auto.
  - unfold ChoiceBlock_DoOptLayout. keeps_auto.
  - unfold StackBlock_DoOptLayout. keeps_auto.
  - unfold WrapBlock_DoOptLayout, wrap_program, wrap_outer, wrap_inner.
    keeps_auto.
  - unfold JoinedLineBlock_DoOptLayout, JoinedLineBlock_CompositeOptLayout,
      joined_elements.
    keeps_auto.
Qed.
End Keeps.

Lemma OptLayout_keeps (options : Options) (fuel : nat) :
  ∀ (self : LayoutBlock) (rest_of_line : option Solution),
    keeps (OptLayout fuel self rest_of_line options).
Proof.
  induction fuel as [|fuel IH]; intros self rest_of_line;
    [apply keeps_out_of_fuel|].
  cbn [OptLayout]. apply memoised_keeps, DoOptLayout_keeps, IH.
Qed.

(** X18.  [OptLayout] only adds to the memo tables: whatever the block,
    the continuation and the options, a hook included, and whether the
    call returns or raises, every layout that was memoised before the call
    for an existing object is memoised with the same value after it, and
    no identity is given out twice. *)
Theorem OptLayout_memo_grows (fuel : nat) (self : LayoutBlock)
    (rest_of_line : option Solution) (options : Options)
    (h h' : heap) (r : outcome (option Solution)) :
  OptLayout fuel self rest_of_line options h = (r, h') →
  (next_oid h ≤ next_oid h')%positive
  ∧ ∀ o key v, (o < next_oid h)%positive →
      default ∅ (caches h !! o) !! key = Some v →
      default ∅ (caches h' !! o) !! key = Some v.
Proof.
  intros E.
  destruct (OptLayout_keeps options fuel self rest_of_line h r h' E)
    as [Hnext Hkept].
  split; [exact Hnext|]. intros o key v Ho Hv. apply Hkept; assumption.
Qed.

Lemma OptLayout_memo_grows_witness :
  let h1 := (OptLayout 1 text_a None default_options fresh_heap).2 in
  let h2 := (OptLayout 2 (LineBlock 5%positive true [text_a; text_b]) None
                       default_options h1).2 in
  default ∅ (caches h2 !! 1%positive) !! None
  = Some (Some (TextBlock_DoOptLayout "a" None default_options)).
Proof.
  intros h1 h2.
  apply (proj2 (OptLayout_memo_grows 2
                  (LineBlock 5%positive true [text_a; text_b])
                  None default_options h1 h2
                  (OptLayout 2 (LineBlock 5%positive true [text_a; text_b])
                             None default_options h1).1
                  (surjective_pairing _))
               1%positive None
               (Some (TextBlock_DoOptLayout "a" None default_options))).
  - reflexivity.
  - reflexivity.
Defined.

(** X19.  A layout that [OptLayout] returned for a block and a
    continuation is returned again for them after any other call of
    [OptLayout], on any block and with any options, has run in between:
    the later call computes nothing and leaves the heap alone, and it does
    not look at its own options. *)
Theorem OptLayout_memo_survives (fuel fuel' : nat) (self other : LayoutBlock)
    (rest_of_line rest_of_line' : option Solution)
    (options options' : Options) (v : option Solution)
    (r : outcome (option Solution)) (h h1 h2 : heap) :
  OptLayout fuel self rest_of_line options h = (Ok v, h1) →
  (oid_of self < next_oid h1)%positive →
  OptLayout fuel' other rest_of_line' options' h1 = (r, h2) →
  ∀ fuel'' options'',
    OptLayout (S fuel'') self rest_of_line options'' h2 = (Ok v, h2).
Proof.
  intros E1 Hoid E2 fuel'' options''.
  destruct fuel as [|fuel]; [discriminate E1|].
  cbn [OptLayout] in E1. apply memoised_stores in E1.
  destruct (OptLayout_keeps options' fuel' other rest_of_line' h1 r h2 E2)
    as [_ He].
  cbn [OptLayout]. apply memoised_hit. apply He; assumption.
Qed.

Lemma OptLayout_memo_survives_witness :
  let r1 := OptLayout 1 text_a None default_options fresh_heap in
  let r2 := OptLayout 2 (StackBlock 5%positive true [text_b; text_a] 1%Qc)
                      None default_options r1.2 in
  OptLayout 1 text_a None options_margin_1_3 r2.2
  = (Ok (Some (TextBlock_DoOptLayout "a" None default_options)), r2.2).
Proof.
  intros r1 r2.
  apply (OptLayout_memo_survives 1 2 text_a
           (StackBlock 5%positive true [text_b; text_a] 1%Qc) None None
           default_options default_options
           (Some (TextBlock_DoOptLayout "a" None default_options))
           r2.1 fresh_heap r1.2 r2.2).
  - reflexivity.
  - reflexivity.
  - apply surjective_pairing.
Defined.

(** ** No exception on a tree built by the constructors *)

Lemma total_ret {A} (a : A) (Q : A → Prop) : Q a → total (mret a) Q.
Proof. intros Ha h Hh. exists a, h. auto. Qed.

Lemma total_bind {A B} (m : M A) (f : A → M B) (Q1 : A → Prop)
    (Q2 : B → Prop) :
  total m Q1 → (∀ a, Q1 a → total (f a) Q2) → total (m ≫= f) Q2.
Proof.
  intros Hm Hf h Hh. destruct (Hm h Hh) as (a & h1 & E & Ha & Hh1).
  destruct (Hf a Ha h1 Hh1) as (b & h2 & E2 & Hb & Hh2).
  exists b, h2. rewrite run_bind, E. auto.
Qed.

Lemma total_weaken {A} (m : M A) (Q Q' : A → Prop) :
  total m Q → (∀ a, Q a → Q' a) → total m Q'.
Proof.
  intros Hm HQ h Hh. destruct (Hm h Hh) as (a & h1 & E & Ha & Hh1).
  exists a, h1. auto.
Qed.

Lemma total_ext {A} (m m' : M A) (Q : A → Prop) :
  (∀ h, m h = m' h) → total m' Q → total m Q.
Proof. intros E Hm h Hh. rewrite E. apply Hm, Hh. Qed.

(** A step that leaves the heap alone. *)
Lemma total_pure {A} (m : M A) (a : A) (Q : A → Prop) :
  (∀ h, m h = (Ok a, h)) → Q a → total m Q.
Proof. intros E Ha h Hh. exists a, h. auto. Qed.

(** A call that returns, about which partial correctness is known. *)
Lemma total_safe {A} (m : M A) (Q : A → Prop) :
  safe m Q → (∀ h, heap_ok h → ∃ a h', m h = (Ok a, h')) → total m Q.
Proof.
  intros Hs Hr h Hh. destruct (Hr h Hh) as (a & h' & E).
  destruct (Hs h a h' Hh E) as [Ha Hh']. exists a, h'. auto.
Qed.

Lemma total_mapM {A B} (f : A → M B) (l : list A) (Q : B → Prop) :
  (∀ x, x ∈ l → total (f x) Q) →
  total (mapM f l) (λ l', length l' = length l ∧ Forall Q l').
Proof.
  induction l as [|x l IH]; intros Hf.
  - apply total_ret. split; [reflexivity | constructor].
  - rewrite mapM_cons. eapply total_bind; [apply Hf; by left|].
    intros y Hy. eapply total_bind.
    + apply IH. intros z Hz. apply Hf. by right.
    + intros k [Hlen Hk]. apply total_ret.
      split; [cbn; rewrite Hlen; reflexivity | by constructor].
Qed.

Lemma total_TextBlock_new (text : string) (br : bool) :
  total (TextBlock_new text br) (λ b, wf_block b ∧ depth b = 0%nat).
Proof.
  apply total_safe.
  - intros h b h' Hh E.
    destruct (TextBlock_new_safe text br h b h' Hh E) as [Hb Hh'].
    rewrite TextBlock_new_run in E. inversion E; subst. auto.
  - intros h _. rewrite TextBlock_new_run. eauto.
Qed.

Lemma total_LineBlock_new (joined : list LayoutBlock) :
  joined ≠ [] → Forall wf_block joined →
  total (LineBlock_new (PyBlock <$> joined))
        (λ b, ∃ o br, b = LineBlock o br joined).
Proof.
  intros Hne Hwf. apply total_safe.
  - intros h b h' Hh E.
    destruct (LineBlock_new_safe joined Hne Hwf h b h' Hh E) as [_ Hh'].
    split; [eapply LineBlock_new_blocks, E | exact Hh'].
  - intros h _. rewrite (LineBlock_new_run joined h Hne). eauto.
Qed.

Lemma mapM_deref_some {A} (l : list A) (h : heap) :
  mapM deref (Some <$> l) h = (Ok l, h).
Proof.
  induction l as [|a l IH]; [reflexivity|].
  rewrite fmap_cons, mapM_cons, run_bind. cbn [deref]. rewrite run_ret.
  cbn beta iota. rewrite run_bind, IH. reflexivity.
Qed.

Lemma ok_values_solutions (l : list (option Solution)) :
  Forall ok_value l → ∃ sols, l = Some <$> sols ∧ Forall sol_ok sols.
Proof.
  induction 1 as [|v l (s & -> & Hs) _ (sols & -> & Hsols)].
  - exists []. split; [reflexivity | constructor].
  - exists (s :: sols). split; [reflexivity | by constructor].
Qed.

Lemma omap_id_some {A} (l : list A) : omap id (Some <$> l) = l.
Proof. induction l as [|a l IH]; [reflexivity | cbn; f_equal; exact IH]. Qed.

Lemma memoised_total (self : oid) (m : M (option Solution))
    (rest_of_line : option Solution) :
  total m ok_value → total (memoised self m rest_of_line) ok_value.
Proof.
  intros Hm. apply total_safe.
  - apply memoised_safe. intros h a h' Hh E.
    destruct (Hm h Hh) as (a' & h1 & E' & Ha & Hh1).
    rewrite E in E'. inversion E'; subst. auto.
  - intros h Hh.
    destruct (default ∅ (caches h !! self) !! rest_of_line) as [v|] eqn:Ec.
    + exists v, h. apply memoised_hit, Ec.
    + destruct (Hm h Hh) as (v & h1 & E & _ & _).
      unfold memoised. rewrite run_bind. cbn [cache_of]. rewrite Ec.
      rewrite bool_decide_eq_false_2 by (intros [? ?]; discriminate).
      rewrite run_bind, (run_bind m), E. cbn beta iota. cbn [cache_store].
      rewrite run_bind. cbn [cache_of caches]. unfold getkey.
      rewrite lookup_insert_eq. cbn [default from_option]. unfold id.
      rewrite lookup_insert_eq. eauto.
Qed.

Section Total.
Variable rec : LayoutBlock → option Solution → Options → M (option Solution).
Variable options : Options.
Variable n : nat.
Hypothesis Hvalid : valid_options options.
Hypothesis Hmargins : margin_0 options < margin_1 options.
Hypothesis Hhook : break_element_lines options = None.
Hypothesis Hrec : ∀ b rest, wf_block b → (depth b < n)%nat → ok_rest rest →
                           total (rec b rest options) ok_value.

Lemma child_total (es : list LayoutBlock) (e : LayoutBlock)
    (rest : option Solution) :
  Forall wf_block es → (S (max_depth es) ≤ n)%nat → e ∈ es → ok_rest rest →
  total (rec e rest options) ok_value.
Proof.
  intros Hwf Hd He Hrest. apply Hrec; [|apply max_depth_elem in He; lia|done].
  rewrite Forall_forall in Hwf. by apply Hwf.
Qed.

Lemma line_fold_total (es ln : list LayoutBlock) (k : option Solution) :
  Forall wf_block es → (S (max_depth es) ≤ n)%nat →
  Forall (λ e, e ∈ es) ln → ok_rest k →
  total (line_fold rec ln k options) ok_rest
  ∧ (ln ≠ [] → total (line_fold rec ln k options) ok_value).
Proof.
  intros Hwf Hd Hln Hk. induction Hln as [|e ln He _ [IH _]].
  - split; [by apply total_ret | done].
  - assert (H : total (line_fold rec (e :: ln) k options) ok_value).
    { cbn [line_fold]. eapply total_bind; [exact IH|].
      intros s Hs. by apply (child_total es). }
    split; [|intros _; exact H].
    eapply total_weaken; [exact H | apply ok_value_rest].
Qed.

Lemma VSumSolution_total (l : list (option Solution)) :
  l ≠ [] → Forall ok_value l →
  ∃ s, VSumSolution (omap id l) = Some s ∧ sol_ok s.
Proof.
  intros Hne Hl. destruct (ok_values_solutions l Hl) as (sols & -> & Hsols).
  rewrite omap_id_some. destruct sols as [|s0 later]; [done|].
  exists (vsum s0 later). split; [reflexivity|].
  inversion Hsols; subst. by apply vsum_ok.
Qed.

Lemma LineBlock_total (elements : list LayoutBlock)
    (rest_of_line : option Solution) :
  elements ≠ [] → Forall wf_block elements →
  (S (max_depth elements) ≤ n)%nat → ok_rest rest_of_line →
  total (LineBlock_DoOptLayout rec elements rest_of_line options) ok_value.
Proof.
  intros Hne Hwf Hd Hrest. unfold LineBlock_DoOptLayout.
  destruct elements as [|e0 es]; [done|].
  rewrite split_element_lines_spec, Hhook.
  pose proof (element_lines_of_elem (e0 :: es)) as Hin.
  pose proof (element_lines_of_no_empty (e0 :: es) Hne) as Hfull.
  pose proof (element_lines_of_nonempty (e0 :: es)) as Hlines.
  set (lines := element_lines_of (e0 :: es)) in *. cbv zeta.
  eapply (total_bind _ _ (λ l, l ≠ [] ∧ Forall ok_value l)).
  - eapply total_ext.
    { intros h.
      rewrite (for_ext _ _
        (λ x acc,
           y ← (let '(i, ln) := x in
                line_fold rec ln
                          (if Z.of_nat i <? Z.of_nat (length lines) - 1
                           then None else rest_of_line) options);
           mret (acc ++ [y])))
        by (intros [i ln] s h' _; rewrite !run_bind, line_fold_spec;
            reflexivity).
      apply for_collect. }
    eapply total_bind.
    + apply (total_mapM _ _ ok_value). intros [i ln] Hiln.
      apply enumerate_elem_of in Hiln.
      rewrite Forall_forall in Hin, Hfull.
      apply (line_fold_total (e0 :: es)); auto.
      destruct (Z.of_nat i <? _); [apply ok_rest_None | exact Hrest].
    + intros ys [Hlen Hys]. apply total_ret. cbn [app]. split; [|exact Hys].
      unfold enumerate in Hlen. rewrite length_imap in Hlen.
      destruct ys; [|discriminate]. destruct lines; [done | discriminate].
  - intros line_solns [Hnel Hall].
    destruct (VSumSolution_total line_solns Hnel Hall) as (s & Es & Hs).
    rewrite Es. eapply total_bind; [by apply (total_pure _ s (λ x, x = s))|].
    intros ? ->. apply total_ret. eexists. split; [reflexivity|].
    by apply PlusConst_ok.
Qed.

Lemma ChoiceBlock_total (elements : list LayoutBlock)
    (rest_of_line : option Solution) :
  elements ≠ [] → Forall wf_block elements →
  (S (max_depth elements) ≤ n)%nat → ok_rest rest_of_line →
  total (ChoiceBlock_DoOptLayout rec elements rest_of_line options) ok_value.
Proof.
  intros Hne Hwf Hd Hrest. unfold ChoiceBlock_DoOptLayout.
  eapply total_bind.
  { apply (total_mapM _ _ ok_value). intros x Hx.
    by apply (child_total elements). }
  intros solns [Hlen Hall].
  destruct (ok_values_solutions solns Hall) as (sols & -> & Hsols).
  eapply total_bind;
    [apply (total_pure _ sols (λ x, x = sols));
     [apply mapM_deref_some | reflexivity]|].
  intros ? ->. apply total_ret. rewrite length_fmap in Hlen.
  destruct sols as [|s0 later]; [destruct elements; [done | discriminate]|].
  eexists. split; [reflexivity|]. by apply lower_envelope_ok.
Qed.

Lemma StackBlock_total (elements : list LayoutBlock) (break_mult : Qc)
    (rest_of_line : option Solution) :
  elements ≠ [] → Forall wf_block elements →
  (S (max_depth elements) ≤ n)%nat → ok_rest rest_of_line →
  total (StackBlock_DoOptLayout rec elements break_mult rest_of_line options)
        ok_value.
Proof.
  intros Hne Hwf Hd Hrest. unfold StackBlock_DoOptLayout.
  destruct elements as [|e0 es] eqn:Ee; [done|]. rewrite <- Ee in *.
  destruct (exists_last Hne) as (firsts & final & Efin).
  eapply total_bind.
  { apply (total_mapM _ _ ok_value). intros x Hx.
    apply (child_total elements); [done | done | | apply ok_rest_None].
    unfold but_last in Hx. by eapply subseteq_take. }
  intros fs [_ Hfs]. eapply (total_bind _ _ ok_value).
  { eapply total_bind.
    - apply (total_pure _ final (λ x, x = final)); [|reflexivity].
      intros h. unfold getitem_last. rewrite Efin, last_snoc. reflexivity.
    - intros ? ->. apply (child_total elements); try done.
      rewrite Efin. apply elem_of_app. right. by left. }
  intros fin Hfin.
  assert (Hall : Forall ok_value (fs ++ [fin]))
    by (apply Forall_app; split; [exact Hfs | by constructor]).
  destruct (ok_values_solutions _ Hall) as (sols & Es & Hsols).
  rewrite Es.
  eapply total_bind;
    [apply (total_pure _ sols (λ x, x = sols));
     [apply mapM_deref_some | reflexivity]|].
  intros ? ->.
  destruct sols as [|s0 later]; [destruct fs; discriminate|].
  cbn [VSumSolution]. apply total_ret. eexists. split; [reflexivity|].
  apply PlusConst_ok. inversion Hsols; subst. by apply vsum_ok.
Qed.

Lemma WrapBlock_total (elements : list LayoutBlock) (sep : string)
    (break_mult : Qc) (prefix : option string)
    (rest_of_line : option Solution) :
  elements ≠ [] → Forall wf_block elements →
  (S (max_depth elements) ≤ n)%nat → ok_rest rest_of_line →
  total (WrapBlock_DoOptLayout rec elements sep break_mult prefix rest_of_line
                               options)
        ok_value.
Proof.
  intros Hne Hwf Hd Hrest. unfold WrapBlock_DoOptLayout.
  eapply total_bind; [apply total_TextBlock_new|]. intros sep_block [Hsw Hsd].
  eapply total_bind; [apply Hrec; [exact Hsw | lia | apply ok_rest_None]|].
  intros sep_layout (sep_soln & -> & Hsep).
  rewrite bool_decide_eq_true_2 by eauto.
  eapply total_bind; [by apply (total_pure _ () (λ _, True))|]. intros _ _.
  eapply (total_bind _ _ (λ p, p = wrap_prefix prefix options)).
  { destruct prefix as [[|a p]|]; [by apply total_ret| |by apply total_ret].
    eapply total_bind; [apply total_TextBlock_new|]. intros ? _.
    by apply total_ret. }
  intros ? ->. eapply total_bind.
  { apply (total_mapM _ _ ok_value). intros x Hx.
    apply (child_total elements); [done | done | done | apply ok_rest_None]. }
  intros elt_layouts [Hlen Hall].
  destruct (ok_values_solutions _ Hall) as (sols & -> & Hsols).
  rewrite length_fmap in Hlen.
  apply total_safe.
  - apply wrap_program_safe.
  - intros h _. rewrite (wrap_program_spec _ _ _ _ _ _ _ Hlen h Hne). eauto.
Qed.

Lemma JoinedLineBlock_total (elements : list LayoutBlock)
    (joiner : string + LayoutBlock) (join_breaking : bool)
    (rest_of_line : option Solution) :
  elements ≠ [] → Forall wf_block elements →
  (∀ b, joiner = inr b → wf_block b) →
  (S (S (max_depth elements
         `max` match joiner with inr j => depth j | inl _ => 0 end)) ≤ n)%nat →
  ok_rest rest_of_line →
  total (JoinedLineBlock_DoOptLayout rec elements joiner join_breaking
                                     rest_of_line options)
        ok_value.
Proof.
  intros Hne Hwf Hj Hd Hrest. unfold JoinedLineBlock_DoOptLayout.
  destruct elements as [|e1 [|e2 es]]; [done| |].
  { apply (child_total [e1]); [done| |by left|done]. lia. }
  unfold JoinedLineBlock_CompositeOptLayout.
  eapply (total_bind _ _
            (λ j, wf_block j
                  ∧ (depth j ≤ match joiner with
                               | inr j' => depth j'
                               | inl _ => 0
                               end)%nat)).
  { destruct joiner as [s|b].
    - eapply total_weaken; [apply total_TextBlock_new|].
      intros b [Hb Hb0]. split; [exact Hb | lia].
    - apply total_ret. split; [by apply Hj | lia]. }
  intros j [Hjw Hjd]. cbv zeta.
  eapply total_bind.
  { apply (total_pure _ (interleave (e1 :: e2 :: es) j join_breaking)
                      (λ x, x = interleave (e1 :: e2 :: es) j join_breaking));
      [|reflexivity].
    intros h. by apply joined_elements_spec. }
  intros ? ->. eapply total_bind.
  { apply total_LineBlock_new;
      [by apply interleave_nonempty | by apply interleave_wf]. }
  intros block (o & br & ->). apply Hrec; [| |exact Hrest].
  - constructor; [by apply interleave_nonempty | by apply interleave_wf].
  - change (S (max_depth (interleave (e1 :: e2 :: es) j join_breaking)) < n)%nat.
    assert (Hm : (max_depth (interleave (e1 :: e2 :: es) j join_breaking)
                  ≤ max_depth (e1 :: e2 :: es) `max` depth j)%nat).
    { apply max_depth_bound.
      eapply Forall_impl; [apply interleave_elem|].
      intros x [Hx| ->]; [apply max_depth_elem in Hx|]; lia. }
    lia.
Qed.

Lemma DoOptLayout_total (self : LayoutBlock) (rest_of_line : option Solution) :
  wf_block self → (depth self ≤ n)%nat → ok_rest rest_of_line →
  total (DoOptLayout rec self rest_of_line options) ok_value.
Proof.
  intros Hwf Hd Hrest. destruct Hwf; cbn [DoOptLayout depth] in *;
    try fold (max_depth es) in Hd.
  - apply total_ret. eexists. split; [reflexivity|]. apply TextBlock_ok.
  - eapply total_bind.
    + apply total_safe; [apply VerbBlock_safe, Hvalid|].
      intros h _. rewrite VerbBlock_solution by assumption. eauto.
    + intros s Hs. apply total_ret. by exists s.
  - by apply LineBlock_total.
  - by apply ChoiceBlock_total.
  - by apply StackBlock_total.
  - by apply WrapBlock_total.
  - by apply JoinedLineBlock_total.
Qed.
End Total.

Lemma OptLayout_total (options : Options) (fuel : nat) :
  valid_options options → margin_0 options < margin_1 options →
  break_element_lines options = None →
  ∀ (self : LayoutBlock) (rest_of_line : option Solution),
    wf_block self → (depth self < fuel)%nat → ok_rest rest_of_line →
    total (OptLayout fuel self rest_of_line options) ok_value.
Proof.
  intros Hvalid Hm Hhook.
  induction fuel as [|fuel IH]; intros self rest Hwf Hd Hrest; [lia|].
  cbn [OptLayout]. apply memoised_total.
  apply (DoOptLayout_total _ options fuel Hvalid Hm Hhook IH); [done|lia|done].
Qed.

(** X20.  On a tree built by the constructors, with options that
    [Options.Check] accepts, [margin_0 < margin_1] and no hook, laying out
    and rendering raise nothing: no assertion of [LineBlock], [StackBlock]
    or [WrapBlock] fails, no index is out of range and no layout is
    [None].  [OptLayout] returns a solution whose first knot is 0, and
    [Render] returns a string; a recursion budget above the depth of the
    tree is enough, and the memoised layouts stay solutions. *)
Theorem Render_never_raises (fuel : nat) (self : LayoutBlock)
    (rest_of_line : option Solution) (options : Options) (h : heap) :
  valid_options options → margin_0 options < margin_1 options →
  break_element_lines options = None →
  wf_block self → (depth self < fuel)%nat → ok_rest rest_of_line →
  heap_ok h →
  (∃ s h', OptLayout fuel self rest_of_line options h = (Ok (Some s), h')
           ∧ sol_ok s ∧ heap_ok h')
  ∧ (∃ out h', Render fuel self options h = (Ok out, h') ∧ heap_ok h').
Proof.
  intros Hvalid Hm Hhook Hwf Hd Hrest Hh. split.
  - destruct (OptLayout_total options fuel Hvalid Hm Hhook self rest_of_line
                Hwf Hd Hrest h Hh) as (v & h' & E & (s & -> & Hs) & Hh').
    exists s, h'. auto.
  - destruct (OptLayout_total options fuel Hvalid Hm Hhook self None
                Hwf Hd ok_rest_None h Hh) as (v & h' & E & (s & -> & Hs) & Hh').
    destruct (LayoutAt_0 s Hs) as (l & El & _).
    exists ("" +:+ PrintLayout l), h'. split; [|exact Hh'].
    unfold Render, PrintOn. rewrite run_bind, E. cbn beta iota.
    unfold getitem. rewrite run_bind, El. reflexivity.
Qed.

Lemma Render_never_raises_witness :
  ∃ out h',
    Render 3 (WrapBlock 6%positive true
                [text_a; LineBlock 5%positive true [text_empty; text_b];
                 VerbBlock 7%positive true ["x"; "y"] false]
                ", " 1%Qc (Some "# "))
           default_options (MkHeap ∅ 8%positive)
    = (Ok out, h').
Proof.
  destruct (Render_never_raises 3
              (WrapBlock 6%positive true
                 [text_a; LineBlock 5%positive true [text_empty; text_b];
                  VerbBlock 7%positive true ["x"; "y"] false]
                 ", " 1%Qc (Some "# "))
              None default_options (MkHeap ∅ 8%positive))
    as [_ (out & h' & E & _)].
  - exact default_options_valid.
  - reflexivity.
  - reflexivity.
  - repeat first [ constructor | discriminate ].
  - cbn. lia.
  - exact ok_rest_None.
  - intros o c key v Hc. cbn [caches] in Hc. rewrite lookup_empty in Hc.
    discriminate.
  - exists out, h'. exact E.
Defined.

(** X21.  With a hook or without one, on a tree built by the constructors
    and under options that [Options.Check] accepts, [OptLayout] never
    returns [None]: when it returns, the value is a solution whose first
    knot is 0 and whose five sequences have the same length, and every
    memoised layout is such a solution again.  The hook is only asked to
    hand back blocks built by the constructors. *)
Theorem OptLayout_returns_solution (fuel : nat) (self : LayoutBlock)
    (rest_of_line v : option Solution) (options : Options) (h h' : heap) :
  valid_options options → hook_ok options →
  wf_block self → ok_rest rest_of_line → heap_ok h →
  OptLayout fuel self rest_of_line options h = (Ok v, h') →
  (∃ s, v = Some s ∧ sol_ok s) ∧ heap_ok h'.
Proof.
  intros Hvalid Hhook Hwf Hrest Hh E.
  exact (OptLayout_safe options fuel Hvalid Hhook self rest_of_line Hwf Hrest
                        h v h' Hh E).
Qed.

Lemma OptLayout_returns_solution_witness :
  ∃ s h',
    OptLayout 2 (LineBlock 5%positive false [text_b; text_a]) None
              options_one_line fresh_heap
    = (Ok (Some s), h')
    ∧ sol_ok s.
Proof.
  pose (r := OptLayout 2 (LineBlock 5%positive false [text_b; text_a]) None
                       options_one_line fresh_heap).
  assert (E : ∃ v, r = (Ok v, r.2)).
  { vm_compute. eexists. reflexivity. }
  destruct E as [v E].
  destruct (OptLayout_returns_solution 2
              (LineBlock 5%positive false [text_b; text_a]) None v
              options_one_line fresh_heap r.2)
    as [(s & -> & Hs) _].
  - repeat split; (cbn; lia) || discriminate.
  - intros hook lines Ehook Hlines. injection Ehook as <-.
    unfold one_line_hook. constructor; [|constructor].
    apply Forall_concat. exact Hlines.
  - repeat first [ constructor | discriminate ].
  - exact ok_rest_None.
  - exact fresh_heap_ok.
  - exact E.
  - exists s, r.2. split; [exact E | exact Hs].
Defined.
